(** * hdbscan.plots: tree traversal, condensed-tree layout and cluster selection

    A shallow embedding of [hdbscan/plots.py].  The numeric core of the module
    (the traversal helpers, [CondensedTree.get_plot_data] and
    [CondensedTree._select_clusters]) is embedded as functions into an error
    monad; the two [plot] methods are embedded up to their calls into
    matplotlib and scikit-learn, which are recorded as events.

    Conventions.
    - numpy integer columns ([parent], [child], [child_size]) are [Z]; sums of
      [child_size] are taken in int64 and wrap ([int64]).
    - float64 values (lambda values, stabilities, coordinates) are idealised as
      real numbers [R].  Where the rounding of an operation decides what the
      code does next, the operation is not idealised: the sum of stabilities
      that [_select_clusters] compares and the re-logged size of
      [get_plot_data] are parameters of the model ([float_sum],
      [log_shrink]), and the logarithm of a size that is not positive is
      [-inf] or [nan] as in numpy ([np_log]).
    - Python dictionaries are [gmap]s keyed by node id.
    - [while] loops carry a [fuel] argument; running out of it is the outcome
      [OutOfFuel], distinct from every Python exception: the loop does not
      end.
    - Recursion carries the [recursion_limit] of the interpreter; exceeding
      it raises [RecursionError]. *)

From Stdlib Require Import ZArith Reals Lra Lia.
From stdpp Require Import base tactics option list sorting gmap strings.

Open Scope Z_scope.

(** ** Outcomes of a Python computation *)

Inductive exn :=
  ValueError | KeyError | IndexError | ImportError | NameError | RecursionError.

Inductive outcome (A : Type) :=
  | Ret (a : A)
  | Raise (e : exn)
  | OutOfFuel.
Arguments Ret {A} a.
Arguments Raise {A} e.
Arguments OutOfFuel {A}.

#[global] Instance outcome_ret : MRet outcome := @Ret.
#[global] Instance outcome_bind : MBind outcome := λ A B f m,
  match m with Ret a => f a | Raise e => Raise e | OutOfFuel => OutOfFuel end.
#[global] Instance outcome_fmap : FMap outcome := λ A B f m,
  match m with Ret a => Ret (f a) | Raise e => Raise e | OutOfFuel => OutOfFuel end.

(** [for x in xs: st = body st x], stopping at the first exception. *)
Fixpoint for_each {S A : Type} (body : S → A → outcome S) (st : S) (xs : list A)
  : outcome S :=
  match xs with
  | [] => Ret st
  | x :: xs' => st' ← body st x; for_each body st' xs'
  end.

(** ** Effects of the plotting methods

    A [plot] method imports matplotlib when it is called, may issue a warning,
    and calls into matplotlib and scikit-learn.  Which optional modules can be
    imported is the [environment]; warnings and calls to the collaborators are
    collected as a trace of [event]s. *)

Record environment := Environment {
  has_pyplot : bool;       (* import matplotlib.pyplot as plt *)
  has_collections : bool;  (* from matplotlib.collections import LineCollection *)
  has_patches : bool       (* from matplotlib.patches import Ellipse *)
}.

Inductive event :=
  | Warn (message : string)
  | Call (callee : string).

Record effect (A : Type) := Effect {
  trace : list event;
  value : outcome A
}.
Arguments Effect {A} trace value.
Arguments trace {A} _.
Arguments value {A} _.

#[global] Instance effect_ret : MRet effect := λ A a, Effect [] (Ret a).
#[global] Instance effect_bind : MBind effect := λ A B f m,
  match value m with
  | Ret a => Effect (trace m ++ trace (f a)) (value (f a))
  | Raise e => Effect (trace m) (Raise e)
  | OutOfFuel => Effect (trace m) OutOfFuel
  end.

Definition emit (e : event) : effect () := Effect [e] (Ret ()).
Definition lift {A : Type} (m : outcome A) : effect A := Effect [] m.

(** [try: import ... except ImportError: raise ImportError(...)] *)
Definition import_or_raise (available : bool) : effect () :=
  if available then mret () else lift (Raise ImportError).

(** A matplotlib axes object: one handed in by the caller, or [plt.gca()]. *)
Inductive axes := GivenAxes (n : nat) | CurrentAxes.

(** [if axis is None: axis = plt.gca()] *)
Definition axis_or_gca (axis : option axes) : effect axes :=
  match axis with
  | Some a => mret a
  | None => _ ← emit (Call "plt.gca"); mret CurrentAxes
  end.

(** [for x in xs: body x] for a body with effects. *)
Fixpoint for_each_effect {A : Type} (body : A → effect ()) (xs : list A) : effect () :=
  match xs with
  | [] => mret ()
  | x :: xs' => _ ← body x; for_each_effect body xs'
  end.

(** [d[k]] on a dictionary: [KeyError] when the key is absent. *)
Definition getitem {V : Type} (d : gmap Z V) (k : Z) : outcome V :=
  match d !! k with Some v => Ret v | None => Raise KeyError end.

(** [dict(pairs)]: a later pair overrides an earlier one with the same key. *)
Definition py_dict {V : Type} (pairs : list (Z * V)) : gmap Z V :=
  foldl (λ d kv, <[kv.1 := kv.2]> d) ∅ pairs.

(** [range(start, stop, -1)]. *)
Definition range_down (start stop : Z) : list Z :=
  reverse (seqZ (stop + 1) (start - stop)).

(** ** numpy primitives *)

#[global] Instance R_inhabited : Inhabited R := populate 0%R.
#[global] Instance Rle_decision (x y : R) : Decision (x <= y)%R := Rle_dec x y.
#[global] Instance Rlt_decision (x y : R) : Decision (x < y)%R := Rlt_dec x y.
#[global] Instance Req_decision : EqDecision R := Req_dec_T.

(** Two's-complement wrap-around of int64 arithmetic. *)
Definition int64 (z : Z) : Z := (z + 2 ^ 63) `mod` 2 ^ 64 - 2 ^ 63.

(** [np.sum] of an integer column. *)
Definition np_sum_int (l : list Z) : Z := int64 (foldr Z.add 0 l).

(** [np.sum] of a list of floats. *)
Definition np_sum (l : list R) : R := foldl Rplus 0%R l.

(** [np.mean] of a non-empty list of floats. *)
Definition np_mean (l : list R) : R := (np_sum l / INR (length l))%R.

(** [a.min()] and [a.max()]: [ValueError] on a zero-size array. *)
Definition np_min (l : list Z) : outcome Z :=
  match l with
  | [] => Raise ValueError
  | x :: l' => Ret (foldl Z.min x l')
  end.

Definition np_max (l : list Z) : outcome Z :=
  match l with
  | [] => Raise ValueError
  | x :: l' => Ret (foldl Z.max x l')
  end.

Definition np_max_float (l : list R) : outcome R :=
  match l with
  | [] => Raise ValueError
  | x :: l' => Ret (foldl Rmax x l')
  end.

(** [np.sign]. *)
Definition np_sign (x : R) : R :=
  if decide (0 < x)%R then 1%R else if decide (x < 0)%R then (-1)%R else 0%R.

(** [np.argsort]: the indices of [l] in an order that sorts it.  numpy does
    not promise how ties are ordered. *)
Definition np_argsort (l : list R) : list nat :=
  merge_sort (λ i j, (l !!! i <= l !!! j)%R) (seq 0 (length l)).

(** [a[i]] on a one-dimensional array, with Python's negative indices. *)
Definition np_index {A : Type} (a : list A) (i : Z) : outcome A :=
  let n := Z.of_nat (length a) in
  let j := if decide (0 ≤ i) then i else n + i in
  if decide (0 ≤ j < n) then
    match a !! Z.to_nat j with Some x => Ret x | None => Raise IndexError end
  else Raise IndexError.

(** A number that is an int64 or a float64, as [current_size] and [scaling]
    are depending on [log_size]. *)
Inductive number := Int (z : Z) | Float (x : R).

Definition as_float (n : number) : R :=
  match n with Int z => IZR z | Float x => x end.

(** [current_size] while the bars of a cluster are drawn: a number, or what
    [np.log] gives for zero ([-inf]) and for a negative argument ([nan]). *)
Inductive running_size := Size (n : number) | NegInf | NaN.

(** [np.log] of a float: [-inf] at zero and [nan] below it, both with a
    warning only. *)
Definition np_log (x : R) : running_size :=
  if decide (0 < x)%R then Size (Float (ln x))
  else if decide (x = 0)%R then NegInf else NaN.

(** [np.log(np.exp(current_size) - k)] on real numbers, without rounding;
    [np.exp(-inf)] is zero and [nan] stays [nan]. *)
Definition exact_log_shrink (current_size : running_size) (k : Z) : running_size :=
  match current_size with
  | Size n => np_log (exp (as_float n) - IZR k)
  | NegInf => np_log (0 - IZR k)
  | NaN => NaN
  end.

(** ** The edge-array tree model *)

(** A row of the condensed tree. *)
Record edge := Edge {
  parent : Z;
  child : Z;
  lambda_val : R;
  child_size : Z
}.

(** A row of the single-linkage matrix; the first two columns hold node ids,
    so their cast [astype(np.int64)] is kept as the [Z] it yields. *)
Record merge := Merge {
  left_child : Z;
  right_child : Z;
  distance : R;
  size : R
}.

(** ** Traversal utilities *)

(** [tree['child'][np.in1d(tree['parent'], to_process)].tolist()] *)
Definition children_in (tree : list edge) (to_process : list Z) : list Z :=
  child <$> filter (λ r, parent r ∈ to_process) tree.

(** The [while to_process:] loop of [_bfs_from_cluster_tree]. *)
Fixpoint bfs_cluster_loop (fuel : nat) (tree : list edge)
    (result to_process : list Z) : outcome (list Z) :=
  match to_process with
  | [] => Ret result
  | _ :: _ =>
    match fuel with
    | O => OutOfFuel
    | S fuel' =>
      bfs_cluster_loop fuel' tree (result ++ to_process) (children_in tree to_process)
    end
  end.

Definition _bfs_from_cluster_tree (fuel : nat) (tree : list edge) (bfs_root : Z)
  : outcome (list Z) :=
  bfs_cluster_loop fuel tree [] [bfs_root].

(** [cluster_tree[cluster_tree['parent'] == current_node]['child']] *)
Definition children_of (cluster_tree : list edge) (current_node : Z) : list Z :=
  child <$> filter (λ r, parent r = current_node) cluster_tree.

(** [_recurse_leaf_dfs].  [recursion_limit] is the number of nested calls of
    the function that the interpreter still allows; the call that exceeds it
    raises [RecursionError]. *)
Fixpoint _recurse_leaf_dfs (recursion_limit : nat) (cluster_tree : list edge)
    (current_node : Z) : outcome (list Z) :=
  match recursion_limit with
  | O => Raise RecursionError
  | S recursion_limit' =>
    let children : list Z := children_of cluster_tree current_node in
    if decide (length children = 0%nat) then Ret [current_node]
    else
      leaves ← mapM (_recurse_leaf_dfs recursion_limit' cluster_tree) children;
      Ret (concat leaves)
  end.

(** [condensed_tree[condensed_tree['child_size'] > 1]] *)
Definition cluster_tree_of (condensed_tree : list edge) : list edge :=
  filter (λ r, 1 < child_size r) condensed_tree.

Definition _get_leaves (recursion_limit : nat) (condensed_tree : list edge)
  : outcome (list Z) :=
  let cluster_tree := cluster_tree_of condensed_tree in
  root ← np_min (parent <$> cluster_tree);
  _recurse_leaf_dfs recursion_limit cluster_tree root.

(** [a[to_process]] for one entry [i] of a list [to_process] of Python
    integers that are not negative.  numpy makes the list an int64 array
    when its entries are below [2^63]; a uint64 array, which it casts to its
    index type with wrap-around, when they are below [2^64]; and an object
    array, which is no index, beyond that.  An array has fewer than [2^63]
    rows, so an index below the number of rows is taken as it is. *)
Definition np_take {A : Type} (a : list A) (i : Z) : outcome A :=
  if decide (i < Z.of_nat (length a)) then np_index a i
  else if decide (2 ^ 63 ≤ i < 2 ^ 64) then np_index a (i - 2 ^ 64)
  else Raise IndexError.

(** [hierarchy[to_process, :2].flatten().astype(np.int64).tolist()] *)
Definition merged_children (hierarchy : list merge) (to_process : list Z)
  : outcome (list Z) :=
  rows ← mapM (np_take hierarchy) to_process;
  Ret (concat ((λ m, [left_child m; right_child m]) <$> rows)).

(** The [while to_process:] loop of [_bfs_from_linkage_tree]. *)
Fixpoint bfs_linkage_loop (fuel : nat) (hierarchy : list merge) (num_points : Z)
    (result to_process : list Z) : outcome (list Z) :=
  match to_process with
  | [] => Ret result
  | _ :: _ =>
    match fuel with
    | O => OutOfFuel
    | S fuel' =>
      let result := result ++ to_process in
      let to_process :=
        (λ x, x - num_points) <$> filter (λ x, num_points ≤ x) to_process in
      to_process ← (if decide (to_process = []) then Ret []
                    else merged_children hierarchy to_process);
      bfs_linkage_loop fuel' hierarchy num_points result to_process
    end
  end.

Definition _bfs_from_linkage_tree (fuel : nat) (hierarchy : list merge) (bfs_root : Z)
  : outcome (list Z) :=
  let dim := Z.of_nat (length hierarchy) in
  let max_node := 2 * dim in
  let num_points := max_node - dim + 1 in
  bfs_linkage_loop fuel hierarchy num_points [] [bfs_root].

(** ** The condensed tree: layout and cluster selection *)

Definition CB_LEFT : nat := 0.
Definition CB_RIGHT : nat := 1.
Definition CB_BOTTOM : nat := 2.
Definition CB_TOP : nat := 3.

(** The dictionary returned by [get_plot_data]. *)
Record plot_data := PlotData {
  bar_centers : list R;
  bar_tops : list R;
  bar_bottoms : list R;
  bar_widths : list running_size;
  line_xs : list (list R);
  line_ys : list (list R);
  cluster_bounds : gmap Z (list R)
}.

(** The four parallel bar lists while they are being filled. *)
Record bars := Bars {
  centers : list R;
  tops : list R;
  bottoms : list R;
  widths : list running_size
}.

Module CondensedTree.

(** [raw[(raw['parent'] == cluster) & (raw['child_size'] > 1)]] *)
Definition split_of (_raw_tree : list edge) (cluster : Z) : list edge :=
  filter (λ r, parent r = cluster ∧ 1 < child_size r) _raw_tree.

(** Body of the first loop of [get_plot_data]: place [cluster] between its
    two cluster children and record where each child starts. *)
Definition place_cluster (_raw_tree : list edge)
    (coords : gmap Z R * gmap Z R) (cluster : Z) : outcome (gmap Z R * gmap Z R) :=
  let '(cluster_x_coords, cluster_y_coords) := coords in
  let split := split_of _raw_tree cluster in
  if decide (1 < length split)%nat then
    match split with
    | [left_row; right_row] =>
      let left_child := child left_row in
      let right_child := child right_row in
      x_left ← getitem cluster_x_coords left_child;
      x_right ← getitem cluster_x_coords right_child;
      let cluster_x_coords := <[cluster := np_mean [x_left; x_right]]> cluster_x_coords in
      let cluster_y_coords := <[left_child := lambda_val left_row]> cluster_y_coords in
      let cluster_y_coords := <[right_child := lambda_val right_row]> cluster_y_coords in
      Ret (cluster_x_coords, cluster_y_coords)
    | _ => Raise ValueError
    end
  else Ret coords.

(** The coordinates computed by the first part of [get_plot_data]. *)
Definition cluster_coords (recursion_limit : nat) (_raw_tree : list edge)
    (leaf_separation : R) : outcome (gmap Z R * gmap Z R) :=
  leaves ← _get_leaves recursion_limit _raw_tree;
  last_leaf ← np_max (parent <$> _raw_tree);
  root ← np_min (parent <$> _raw_tree);
  let cluster_x_coords :=
    py_dict (zip leaves ((λ x, leaf_separation * IZR x)%R
                           <$> seqZ 0 (Z.of_nat (length leaves)))) in
  let cluster_y_coords : gmap Z R := {[ root := 0%R ]} in
  for_each (place_cluster _raw_tree) (cluster_x_coords, cluster_y_coords)
           (range_down last_leaf (root - 1)).

Section layout.

(** [np.log(np.exp(current_size) - k)] as numpy computes it in float64.  The
    rounding of [np.exp] decides whether the argument of the logarithm is
    positive, zero (the logarithm is [-inf]) or negative ([nan]), so the
    model does not replace the operation by the one on real numbers: it is a
    parameter. *)
Context (log_shrink : running_size → Z → running_size).

(** [current_size -= k], or its [log_size] form
    [current_size = np.log(np.exp(current_size) - k)]. *)
Definition shrink (log_size : bool) (current_size : running_size) (k : Z)
  : running_size :=
  if log_size then log_shrink current_size k
  else
    match current_size with
    | Size (Int z) => Size (Int (int64 (z - k)))
    | Size (Float x) => Size (Float (x - IZR k))
    | NegInf => NegInf
    | NaN => NaN
    end.

(** Body of the loop over the children of one cluster, in [argsort] order. *)
Definition bar_row (log_size : bool) (center : R)
    (st : bars * running_size * R) (row : edge) : bars * running_size * R :=
  let '(b, current_size, current_lambda) := st in
  let b :=
    if decide (lambda_val row ≠ current_lambda) then
      Bars (centers b ++ [center])
           (tops b ++ [(lambda_val row - current_lambda)%R])
           (bottoms b ++ [current_lambda])
           (widths b ++ [current_size])
    else b in
  (b, shrink log_size current_size (child_size row), lambda_val row).

(** The bars of one cluster: the rows [c_children], visited along [order],
    starting from the size [current_size] and the height [current_lambda]. *)
Definition bar_rows (log_size : bool) (center : R) (c_children : list edge)
    (order : list nat) (st : bars * running_size * R)
  : outcome (bars * running_size * R) :=
  for_each (λ st i,
              match c_children !! i with
              | Some row => Ret (bar_row log_size center st row)
              | None => Raise IndexError
              end) st order.

(** [np.sum(c_children['child_size'])], logged when [log_size]. *)
Definition initial_size (log_size : bool) (c_children : list edge) : number :=
  let current_size := np_sum_int (child_size <$> c_children) in
  if log_size then Float (ln (IZR current_size)) else Int current_size.

(** Body of the second loop of [get_plot_data]: bounds and bars of [c]. *)
Definition cluster_bars (_raw_tree : list edge) (log_size : bool) (scaling : R)
    (cluster_x_coords cluster_y_coords : gmap Z R)
    (st : bars * gmap Z (list R)) (c : Z) : outcome (bars * gmap Z (list R)) :=
  let '(b, cluster_bounds) := st in
  let c_children := filter (λ r, parent r = c) _raw_tree in
  current_lambda ← getitem cluster_y_coords c;
  let current_size := initial_size log_size c_children in
  x ← getitem cluster_x_coords c;
  let left := (x * scaling - as_float current_size / 2)%R in
  let right := (x * scaling + as_float current_size / 2)%R in
  top ← np_max_float (lambda_val <$> c_children);
  let cluster_bounds := <[c := [left; right; current_lambda; top]]> cluster_bounds in
  '(b, _, _) ← bar_rows log_size (x * scaling)%R c_children
                 (np_argsort (lambda_val <$> c_children))
                 (b, Size current_size, current_lambda);
  Ret (b, cluster_bounds).

(** Body of the last loop of [get_plot_data]: the connector of one split. *)
Definition split_line (log_size : bool) (scaling : R)
    (cluster_x_coords cluster_y_coords : gmap Z R)
    (st : list (list R) * list (list R)) (row : edge)
  : outcome (list (list R) * list (list R)) :=
  let '(line_xs, line_ys) := st in
  let child_size :=
    if log_size then ln (IZR (child_size row)) else IZR (child_size row) in
  x_child ← getitem cluster_x_coords (child row);
  x_parent ← getitem cluster_x_coords (parent row);
  let sign := np_sign (x_child - x_parent) in
  y_child ← getitem cluster_y_coords (child row);
  Ret (line_xs ++ [[(x_parent * scaling)%R;
                    (x_child * scaling + sign * (child_size / 2))%R]],
       line_ys ++ [[y_child; y_child]]).

Definition get_plot_data (recursion_limit : nat) (_raw_tree : list edge)
    (leaf_separation : R) (log_size : bool) : outcome plot_data :=
  '(cluster_x_coords, cluster_y_coords) ←
    cluster_coords recursion_limit _raw_tree leaf_separation;
  last_leaf ← np_max (parent <$> _raw_tree);
  root ← np_min (parent <$> _raw_tree);
  let scaling :=
    np_sum_int (child_size <$> filter (λ r, parent r = root) _raw_tree) in
  let scaling := if log_size then ln (IZR scaling) else IZR scaling in
  '(b, cluster_bounds) ←
    for_each (cluster_bars _raw_tree log_size scaling cluster_x_coords cluster_y_coords)
             (Bars [] [] [] [], ∅) (range_down last_leaf (root - 1));
  '(line_xs, line_ys) ←
    for_each (split_line log_size scaling cluster_x_coords cluster_y_coords)
             ([], []) (cluster_tree_of _raw_tree);
  Ret (PlotData (centers b) (tops b) (bottoms b) (widths b)
                line_xs line_ys cluster_bounds).

(** [sorted(stability.keys(), reverse=True)[:-1]] *)
Definition node_list_of (stability : gmap Z R) : list Z :=
  removelast (merge_sort Z.ge (map_to_list stability).*1).

Section selection.

(** [np.sum] on a list of float64 values, as numpy computes it.  The sum
    rounds, and [_select_clusters] compares it with a stability, so the
    model does not replace it by the sum of real numbers: it is a
    parameter. *)
Context (float_sum : list R → R).

(** [np.sum([stability[child] for child in cluster_tree['child'][child_selection]])] *)
Definition subtree_stability_of (cluster_tree : list edge) (stability : gmap Z R)
    (node : Z) : outcome R :=
  stabilities ← mapM (getitem stability) (children_of cluster_tree node);
  Ret (float_sum stabilities).

(** The [else] branch: every BFS descendant other than [node] is unmarked. *)
Definition unmark_descendants (node : Z) (is_cluster : gmap Z bool)
    (sub_nodes : list Z) : gmap Z bool :=
  foldl (λ is_cluster sub_node,
           if decide (sub_node ≠ node) then <[sub_node := false]> is_cluster
           else is_cluster) is_cluster sub_nodes.

(** Body of the loop of [_select_clusters]. *)
Definition select_node (fuel : nat) (cluster_tree : list edge)
    (st : gmap Z R * gmap Z bool) (node : Z) : outcome (gmap Z R * gmap Z bool) :=
  let '(stability, is_cluster) := st in
  subtree_stability ← subtree_stability_of cluster_tree stability node;
  own ← getitem stability node;
  if decide (own < subtree_stability)%R then
    Ret (<[node := subtree_stability]> stability, <[node := false]> is_cluster)
  else
    sub_nodes ← _bfs_from_cluster_tree fuel cluster_tree node;
    Ret (stability, unmark_descendants node is_cluster sub_nodes).

(** [{cluster: True for cluster in node_list}] *)
Definition all_selected (node_list : list Z) : gmap Z bool :=
  py_dict ((λ cluster, (cluster, true)) <$> node_list).

(** [[cluster for cluster in is_cluster if is_cluster[cluster]]].  A
    dictionary is walked in the order in which its keys were inserted: the
    keys of [node_list] first and in that order, then the keys that the loop
    has added, all of which are unmarked. *)
Definition selected (node_list : list Z) (is_cluster : gmap Z bool) : list Z :=
  filter (λ cluster, is_cluster !! cluster = Some true) node_list.

(** [_select_clusters], with [stability] standing for the dictionary that
    [compute_stability(self._raw_tree)] returns. *)
Definition _select_clusters (fuel : nat) (_raw_tree : list edge)
    (stability : gmap Z R) : outcome (list Z) :=
  let node_list := node_list_of stability in
  let cluster_tree := cluster_tree_of _raw_tree in
  let is_cluster := all_selected node_list in
  '(_, is_cluster) ← for_each (select_node fuel cluster_tree)
                        (stability, is_cluster) node_list;
  Ret (selected node_list is_cluster).

(** The drawing part of [plot], once [plot_data] is computed.  [stability]
    stands for the dictionary of [compute_stability], as in
    [_select_clusters]. *)
Definition draw (env : environment) (fuel : nat) (_raw_tree : list edge)
    (stability : gmap Z R) (plot_data : plot_data)
    (cmap : string) (select_clusters label_clusters : bool)
    (axis : option axes) (colorbar : bool) : effect axes :=
  sm ← (if decide (cmap ≠ "none") then
          (* max(plot_data['bar_widths']) *)
          _ ← lift (match bar_widths plot_data with
                    | [] => Raise ValueError
                    | _ :: _ => Ret ()
                    end);
          _ ← emit (Call "plt.cm.ScalarMappable");
          mret true
        else mret false);
  axis ← axis_or_gca axis;
  _ ← emit (Call "axis.bar");
  _ ← for_each_effect (λ _, emit (Call "axis.plot"))
        (zip (line_xs plot_data) (line_ys plot_data));
  _ ← (if select_clusters then
         _ ← import_or_raise (has_patches env);
         chosen_clusters ← lift (_select_clusters fuel _raw_tree stability);
         for_each_effect
           (λ c, _ ← lift (getitem (cluster_bounds plot_data) c);
                 _ ← emit (Call "Ellipse");
                 _ ← (if label_clusters then emit (Call "axis.annotate") else mret ());
                 emit (Call "axis.add_artist"))
           chosen_clusters
       else mret ());
  _ ← (if colorbar then
         (* [sm] is bound only when [cmap != 'none'] *)
         _ ← lift (if sm : bool then Ret () else Raise NameError);
         emit (Call "plt.colorbar")
       else mret ());
  _ ← emit (Call "axis.set_xticks");
  _ ← emit (Call "axis.invert_yaxis");
  _ ← emit (Call "axis.set_ylabel");
  mret axis.

(** [plot]: the icicle plot. *)
Definition plot (env : environment) (recursion_limit fuel : nat)
    (_raw_tree : list edge) (stability : gmap Z R)
    (leaf_separation : R) (cmap : string) (select_clusters label_clusters : bool)
    (axis : option axes) (colorbar log_size : bool) : effect axes :=
  _ ← import_or_raise (has_pyplot env);
  plot_data ← lift (get_plot_data recursion_limit _raw_tree leaf_separation log_size);
  draw env fuel _raw_tree stability plot_data
       cmap select_clusters label_clusters axis colorbar.

End selection.

End layout.

End CondensedTree.

(** ** The minimum spanning tree *)

(** A two-dimensional float array: its shape and its entries. *)
Record ndarray := NdArray {
  shape0 : Z;
  shape1 : Z;
  item : Z → Z → R
}.

(** A row of the MST array; the first two columns hold point indices. *)
Record mst_edge := MstEdge {
  mst_from : Z;
  mst_to : Z;
  mst_distance : R
}.

(** The scikit-learn projections used by [MinimumSpanningTree.plot]; either
    may raise, as PCA does on fewer samples than components. *)
Record projector := Projector {
  (* PCA(n_components=32).fit_transform *)
  pca_fit_transform : ndarray → outcome ndarray;
  (* TSNE().fit_transform *)
  tsne_fit_transform : ndarray → outcome ndarray
}.

Module MinimumSpanningTree.

Record t := Make {
  _mst : list mst_edge;
  _data : ndarray
}.

Definition too_many_points : string :=
  "Too many data points for safe rendering of an minimal spanning tree!".

(** [projection[self._mst[:, :2].astype(int)]]: every end point must index a
    row of the projection. *)
Definition line_coords (projection : ndarray) (mst : list mst_edge) : outcome () :=
  for_each (λ _ i, if decide (- shape0 projection ≤ i < shape0 projection)
                   then Ret () else Raise IndexError)
           () (concat ((λ e, [mst_from e; mst_to e]) <$> mst)).

(** The two-dimensional [projection] of the data: the data themselves when
    they have at most two columns, else their t-SNE embedding, taken after a
    PCA when they have more than 32 columns. *)
Definition project (sklearn : projector) (data : ndarray) : effect ndarray :=
  if decide (2 < shape1 data) then
    data_for_projection ←
      (if decide (32 < shape1 data) then
         _ ← emit (Call "PCA.fit_transform");
         lift (pca_fit_transform sklearn data)
       else mret data);
    _ ← emit (Call "TSNE.fit_transform");
    lift (tsne_fit_transform sklearn data_for_projection)
  else mret data.

Definition plot (env : environment) (sklearn : projector) (self : t)
    (axis : option axes) (vary_linewidth colorbar : bool) : effect (option axes) :=
  _ ← import_or_raise (has_pyplot env && has_collections env);
  if decide (32767 < shape0 (_data self)) then
    _ ← emit (Warn too_many_points);
    mret None
  else
    axis ← axis_or_gca axis;
    projection ← project sklearn (_data self);
    (* self._mst.T[2].max() *)
    _ ← lift (if vary_linewidth then
                _ ← np_max_float (mst_distance <$> _mst self); Ret ()
              else Ret ());
    _ ← lift (line_coords projection (_mst self));
    _ ← emit (Call "LineCollection");
    _ ← emit (Call "axis.add_artist");
    (* projection.T[0], projection.T[1] *)
    _ ← lift (if decide (2 ≤ shape1 projection) then Ret () else Raise IndexError);
    _ ← emit (Call "axis.scatter");
    _ ← emit (Call "axis.set_xticks");
    _ ← emit (Call "axis.set_yticks");
    _ ← (if colorbar then emit (Call "plt.colorbar") else mret ());
    mret (Some axis).

End MinimumSpanningTree.

(** ** The single linkage tree *)

(** [_line_width]: a link at height zero leaves a point and is drawn with
    the width of one point; any other is as wide as the first merge at that
    distance, [linkage[linkage.T[2] == y][0, 3]]. *)
Definition _line_width (y : R) (linkage : list merge) : outcome R :=
  if decide (y = 0%R) then Ret 1%R
  else match filter (λ m, distance m = y) linkage with
       | [] => Raise IndexError
       | m :: _ => Ret (size m)
       end.

(** What [scipy.cluster.hierarchy.dendrogram] returns with [no_plot=True],
    as far as [plot] reads it: per drawn link the four x coordinates and the
    four heights of its path. *)
Record dendrogram_data := DendrogramData {
  icoord : list (list R);
  dcoord : list (list R)
}.

(** [np.arange(start, stop)] on integers. *)
Definition np_arange (start stop : Z) : list Z := seqZ start (stop - start).

(** The frame of [SingleLinkageTree.to_pandas]: the column [parent] beside
    the four columns of the linkage matrix. *)
Record linkage_frame := LinkageFrame {
  frame_parent : list Z;
  frame_linkage : list merge
}.

Module SingleLinkageTree.

(** [(_line_width(y[0], self._linkage), _line_width(y[1], self._linkage))] *)
Definition link_widths (_linkage : list merge) (y : list R) : outcome (R * R) :=
  y0 ← np_index y 0;
  lw0 ← _line_width y0 _linkage;
  y1 ← np_index y 1;
  lw1 ← _line_width y1 _linkage;
  Ret (lw0, lw1).

(** [plot]: the dendrogram, drawn with three lines per link.  [dendrogram]
    stands for scipy's function of that name. *)
Definition plot (env : environment)
    (dendrogram : list merge → Z → option string → outcome dendrogram_data)
    (_linkage : list merge) (axis : option axes) (truncate_mode : option string)
    (p : Z) (vary_line_width : bool) : effect axes :=
  dendrogram_data ← lift (dendrogram _linkage p truncate_mode);
  let X := icoord dendrogram_data in
  let Y := dcoord dendrogram_data in
  _ ← import_or_raise (has_pyplot env);
  axis ← axis_or_gca axis;
  linewidths ← lift (if vary_line_width then mapM (link_widths _linkage) Y
                     else Ret (replicate (length Y) (1%R, 1%R)));
  _ ← for_each_effect
        (λ _, _ ← emit (Call "axis.plot");
              _ ← emit (Call "axis.plot");
              emit (Call "axis.plot"))
        (zip (zip X Y) linewidths);
  _ ← emit (Call "axis.set_xticks");
  _ ← emit (Call "axis.set_ylabel");
  mret axis.

(** [to_pandas]; [has_pandas] tells whether pandas can be imported.  The
    [DataFrame] constructor raises [ValueError] for columns of different
    lengths. *)
Definition to_pandas (has_pandas : bool) (_linkage : list merge)
  : outcome linkage_frame :=
  if has_pandas then
    let max_node := 2 * Z.of_nat (length _linkage) in
    let num_points := max_node - (Z.of_nat (length _linkage) - 1) in
    let parent_array := np_arange num_points (max_node + 1) in
    if decide (length parent_array = length _linkage)
    then Ret (LinkageFrame parent_array _linkage)
    else Raise ValueError
  else Raise ImportError.

End SingleLinkageTree.

(** ** Specification vocabulary *)

(** [link tree x y]: some row of [tree] has parent [x] and child [y]. *)
Definition link (tree : list edge) (x y : Z) : Prop :=
  ∃ r, r ∈ tree ∧ parent r = x ∧ child r = y.

(** [y] is [x] or a descendant of [x]. *)
Definition reachable (tree : list edge) : relation Z := rtc (link tree).

(** [y] is a descendant of [x] other than [x] itself. *)
Definition strict_descendant (tree : list edge) : relation Z := tc (link tree).

(** No cycle: every row goes from a lower to a higher rank. *)
Definition ranked (rank : Z → nat) (tree : list edge) : Prop :=
  ∀ r, r ∈ tree → (rank (parent r) < rank (child r))%nat.

(** The highest rank of a child. *)
Definition rank_bound (rank : Z → nat) (tree : list edge) : nat :=
  max_list (rank ∘ child <$> tree).

(** No node has two parents, and no row is repeated. *)
Definition one_parent (tree : list edge) : Prop := NoDup (child <$> tree).

(** The parent of every row is [root] or has a parent itself. *)
Definition rooted_at (root : Z) (tree : list edge) : Prop :=
  ∀ r, r ∈ tree → parent r = root ∨ parent r ∈ child <$> tree.

(** The node ids of a tree, each once. *)
Definition nodes_of (tree : list edge) : list Z :=
  remove_dups ((parent <$> tree) ++ (child <$> tree)).

(** The [k]-th frontier of a breadth-first search and the nodes collected
    over the first [n] frontiers, for a frontier expansion [next]. *)
Fixpoint frontier (next : list Z → list Z) (k : nat) (to_process : list Z) : list Z :=
  match k with
  | O => to_process
  | S k' => frontier next k' (next to_process)
  end.

Fixpoint sweep (next : list Z → list Z) (n : nat) (to_process : list Z) : list Z :=
  match n with
  | O => []
  | S n' => to_process ++ sweep next n' (next to_process)
  end.

(** [merges_into hierarchy x y]: the merge that creates node [x] merges [y]. *)
Definition merges_into (hierarchy : list merge) (x y : Z) : Prop :=
  ∃ (i : nat) m, hierarchy !! i = Some m ∧
    x = Z.of_nat (length hierarchy) + 1 + Z.of_nat i ∧
    (y = left_child m ∨ y = right_child m).

(** A linkage matrix over [length hierarchy + 1] points: a merge joins two
    nodes that exist before it, and no node is merged twice. *)
Definition linkage_wf (hierarchy : list merge) : Prop :=
  (∀ (i : nat) m, hierarchy !! i = Some m →
     0 ≤ left_child m < Z.of_nat (length hierarchy) + 1 + Z.of_nat i ∧
     0 ≤ right_child m < Z.of_nat (length hierarchy) + 1 + Z.of_nat i) ∧
  NoDup (hierarchy ≫= λ m, [left_child m; right_child m]).

(** The frontier expansion of the linkage search when no index is out of
    range. *)
Definition merged_of (hierarchy : list merge) (num_points : Z) (to_process : list Z)
  : list Z :=
  filter (λ x, num_points ≤ x) to_process ≫= λ x,
    match hierarchy !! Z.to_nat (x - num_points) with
    | Some m => [left_child m; right_child m]
    | None => []
    end.

(** The points that the rows [rows] take away: the sum of their sizes. *)
Definition mass (rows : list edge) : Z := foldr Z.add 0 (child_size <$> rows).

(** The bars of one cluster as the specification words them: walking the
    rows in ascending lambda order, one bar (bottom, height, points) per row
    whose lambda differs from the previous one, from the previous lambda up
    to the row's, as wide as the points that remain; every row then takes
    its points away. *)
Fixpoint expected_bars (remaining : Z) (previous : R) (rows : list edge)
  : list (R * R * Z) :=
  match rows with
  | [] => []
  | row :: rows' =>
    (if decide (lambda_val row ≠ previous)
     then [(previous, (lambda_val row - previous)%R, remaining)]
     else []) ++
    expected_bars (remaining - child_size row) (lambda_val row) rows'
  end.

(** The four bar lists [b] extended by the bars [new] of a cluster drawn
    at [center], each as wide as its number of points. *)
Definition add_bars (center : R) (b : bars) (new : list (R * R * Z)) : bars :=
  Bars (centers b ++ ((λ _, center) <$> new))
       (tops b ++ ((λ bar, bar.1.2) <$> new))
       (bottoms b ++ ((λ bar, bar.1.1) <$> new))
       (widths b ++ ((λ bar, Size (Int bar.2)) <$> new)).

(** The rows of the condensed tree whose child is a cluster: it holds more
    than one point. *)
Definition cluster_edges (raw : list edge) : list edge :=
  filter (λ r, 1 < child_size r) raw.

(** The rows that split the cluster [c] into clusters, in the order of the
    array, and the clusters they split off. *)
Definition cluster_rows (raw : list edge) (c : Z) : list edge :=
  filter (λ r, parent r = c ∧ 1 < child_size r) raw.

Definition cluster_children (raw : list edge) (c : Z) : list Z :=
  child <$> cluster_rows raw c.

(** [y] is a cluster child of [x]. *)
Definition cluster_link (raw : list edge) (x y : Z) : Prop :=
  ∃ r, r ∈ raw ∧ 1 < child_size r ∧ parent r = x ∧ child r = y.

(** [y] is a cluster of the tree: the parent or the child of a row that
    splits off a cluster. *)
Definition cluster_node (raw : list edge) (y : Z) : Prop :=
  ∃ x, cluster_link raw x y ∨ cluster_link raw y x.

(** One node of the selection, as the specification words it, on the
    dictionaries [stability] and [is_cluster]: when the stabilities of the
    cluster children of [n] sum to more than the stability of [n], [n] is
    unmarked and takes the sum as its stability; otherwise the mark of [n]
    is left alone and every cluster below [n] is unmarked. *)
Definition rule_step (float_sum : list R → R) (raw : list edge) (n : Z)
    (st st' : gmap Z R * gmap Z bool) : Prop :=
  ∃ vs own,
    Forall2 (λ c v, st.1 !! c = Some v) (cluster_children raw n) vs ∧
    st.1 !! n = Some own ∧
    ((float_sum vs > own)%R →
     st' = (<[n := float_sum vs]> st.1, <[n := false]> st.2)) ∧
    (¬ (float_sum vs > own)%R →
     st'.1 = st.1 ∧
     (∀ d, tc (cluster_link raw) n d → st'.2 !! d = Some false) ∧
     (∀ k, ¬ tc (cluster_link raw) n k → st'.2 !! k = st.2 !! k)).

(** The states of a loop that takes one [step] per node of a list. *)
Inductive visits {S : Type} (step : Z → S → S → Prop) : list Z → S → S → Prop :=
  | visits_nil st : visits step [] st st
  | visits_cons n nodes st st' st'' :
      step n st st' → visits step nodes st' st'' → visits step (n :: nodes) st st''.

#[global] Instance edge_inhabited : Inhabited edge := populate (Edge 0 0 0 0).

(** The rows of a cluster in the order [np.argsort] visits them. *)
Definition in_argsort_order (c_children : list edge) : list edge :=
  (λ i, c_children !!! i) <$> np_argsort (lambda_val <$> c_children).

(** The proof devices of the leaf, linkage and example lemmas. *)
Definition leaf_below (ct : list edge) (x y : Z) : Prop :=
  reachable ct x y ∧ children_of ct y = [].

Definition merged_pair (m : merge) : list Z := [left_child m; right_child m].

Definition linkage_rank (hierarchy : list merge) (y : Z) : nat :=
  if decide (y < Z.of_nat (length hierarchy) + 1)
  then length hierarchy
  else Z.to_nat (Z.of_nat (length hierarchy) - 1
                 - (y - (Z.of_nat (length hierarchy) + 1))).

(** ** Example inputs and proof vocabulary *)

Import CondensedTree.

Definition two_leaves : list edge := [Edge 5 6 1 3; Edge 5 7 1.5 2].

Definition two_leaves_stability (root_stability : R) : gmap Z R :=
  <[5 := root_stability]> (<[6 := 1.2%R]> (<[7 := 0.5%R]> ∅)).

(** Seven points; the root 7 splits into 8 and 9, and 8 splits into 10 and 11. *)
Definition three_levels : list edge :=
  [ Edge 7 8 1 4; Edge 7 9 1 3;
    Edge 8 10 2 2; Edge 8 11 2 2;
    Edge 9 4 3 1; Edge 9 5 3 1; Edge 9 6 4 1;
    Edge 10 0 3 1; Edge 10 1 5 1;
    Edge 11 2 4 1; Edge 11 3 4 1 ].

Definition id_rank (x : Z) : nat := Z.to_nat x.

Definition two_merges : list merge := [Merge 0 1 1 2; Merge 3 2 2 3].

(** A chain of [n] clusters below the cluster 0. *)
Definition chain (n : nat) : list edge :=
  (λ i, Edge (Z.of_nat i) (Z.of_nat i + 1) 1 2) <$> seq 0 n.

(** One cluster of three points, none of which forms a sub-cluster. *)
Definition single_cluster : list edge :=
  [Edge 3 0 1 1; Edge 3 1 2 1; Edge 3 2 2 1].

(** Stabilities for [three_levels]: the children 10 and 11 of 8 outweigh it. *)
Definition three_levels_stability : gmap Z R :=
  <[7 := 9%R]> (<[8 := 1%R]> (<[9 := 3%R]> (<[10 := 1.5%R]> (<[11 := 0.5%R]> ∅)))).

Definition large_mst : MinimumSpanningTree.t :=
  MinimumSpanningTree.Make [] (NdArray 32768 2 (λ _ _, 0%R)).

Definition with_matplotlib : environment := Environment true true true.

Definition without_matplotlib : environment := Environment false false false.

Definition no_projection : projector := Projector (λ a, Ret a) (λ a, Ret a).

(** A root with three cluster children. *)
Definition three_way : list edge :=
  [ Edge 6 7 1 2; Edge 6 8 1 2; Edge 6 9 1 2;
    Edge 7 0 2 1; Edge 7 1 2 1;
    Edge 8 2 2 1; Edge 8 3 3 1;
    Edge 9 4 2 1; Edge 9 5 4 1 ].

(** Two nodes that are each other's child. *)
Definition two_cycle : list edge := [Edge 1 2 1 2; Edge 2 1 1 2].

(** The four bar lists run in parallel and hold no bar of height zero. *)
Definition bars_aligned (b : bars) : Prop :=
  length (centers b) = length (tops b) ∧
  length (bottoms b) = length (tops b) ∧
  length (widths b) = length (tops b) ∧
  Forall (λ h, h ≠ 0%R) (tops b).

(** The cluster ids 5 and 7 are in use, 6 is not. *)
Definition gap_tree : list edge :=
  [ Edge 5 7 1 2; Edge 5 8 1 2; Edge 7 0 2 1; Edge 7 1 2 1 ].

(** Two computations end the same way: both return, with results related by
    [R], or both raise the same exception, or both run out of recursion_limit. *)
Definition same_outcome {A B} (R : A → B → Prop) (m1 : outcome A) (m2 : outcome B)
  : Prop :=
  match m1, m2 with
  | Ret a, Ret b => R a b
  | Raise e1, Raise e2 => e1 = e2
  | OutOfFuel, OutOfFuel => True
  | _, _ => False
  end.

(** The parts of two plot data that do not depend on the size scale. *)
Definition same_heights (pd1 pd2 : plot_data) : Prop :=
  bar_tops pd1 = bar_tops pd2 ∧
  bar_bottoms pd1 = bar_bottoms pd2 ∧
  length (bar_centers pd1) = length (bar_centers pd2) ∧
  length (bar_widths pd1) = length (bar_widths pd2) ∧
  line_ys pd1 = line_ys pd2 ∧
  length (line_xs pd1) = length (line_xs pd2) ∧
  drop 2 <$> cluster_bounds pd1 = drop 2 <$> cluster_bounds pd2.

(** The bar lists of the two runs, up to the centers and the widths. *)
Definition same_bars (b1 b2 : bars) : Prop :=
  tops b1 = tops b2 ∧ bottoms b1 = bottoms b2 ∧
  length (centers b1) = length (centers b2) ∧
  length (widths b1) = length (widths b2).

(** The state of the loop of [_select_clusters] after the nodes [done]:
    the dictionaries keep their keys, a node still to come is marked and
    has its first stability, and every leaf below a node of [done] lies
    below a marked node of [done]. *)
Definition covering (ct : list edge) (stability : gmap Z R) (done : list Z)
    (st : gmap Z R * gmap Z bool) : Prop :=
  (∀ k, is_Some (st.1 !! k) ↔ is_Some (stability !! k)) ∧
  (∀ k, k ∈ node_list_of stability → k ∉ done →
        st.2 !! k = Some true ∧ st.1 !! k = stability !! k) ∧
  (∀ n y, n ∈ done → leaf_below ct n y →
          ∃ a, a ∈ done ∧ st.2 !! a = Some true ∧ reachable ct a y).

(** matplotlib without its patches. *)
Definition without_patches : environment := Environment true true false.

(** [projection] in [MinimumSpanningTree.plot]: the data themselves with at
    most two columns, else their t-SNE embedding, taken after a PCA to 32
    columns when there are more than 32; an exception of either projection
    is passed on. *)
Definition projected (sklearn : projector) (data : ndarray) : outcome ndarray :=
  if decide (2 < shape1 data) then
    data_for_projection ←
      (if decide (32 < shape1 data) then pca_fit_transform sklearn data else Ret data);
    tsne_fit_transform sklearn data_for_projection
  else Ret data.

(** An index into the rows of the projection, negative ones included. *)
Definition row_index (projection : ndarray) (i : Z) : Prop :=
  - shape0 projection ≤ i < shape0 projection.

(** What [MinimumSpanningTree.plot] does once the projection is there. *)
Definition draw_mst (self : MinimumSpanningTree.t) (axis : axes)
    (vary_linewidth colorbar : bool) (projection : ndarray) : effect (option axes) :=
  _ ← lift (if vary_linewidth then
              _ ← np_max_float (mst_distance <$> MinimumSpanningTree._mst self);
              Ret ()
            else Ret ());
  _ ← lift (MinimumSpanningTree.line_coords projection (MinimumSpanningTree._mst self));
  _ ← emit (Call "LineCollection");
  _ ← emit (Call "axis.add_artist");
  _ ← lift (if decide (2 ≤ shape1 projection) then Ret () else Raise IndexError);
  _ ← emit (Call "axis.scatter");
  _ ← emit (Call "axis.set_xticks");
  _ ← emit (Call "axis.set_yticks");
  _ ← (if colorbar then emit (Call "plt.colorbar") else mret ());
  mret (Some axis).

(** Two points in the plane and the edge between them. *)
Definition small_mst : MinimumSpanningTree.t :=
  MinimumSpanningTree.Make [MstEdge 0 1 1] (NdArray 2 2 (λ _ _, 0%R)).

(** The shape of the condensed trees that HDBSCAN builds, as far as
    [get_plot_data] relies on it: the cluster ids are the parent ids, they
    fill the range from [root] to [last_leaf], they grow from parent to
    child, every cluster but the root is the cluster child of exactly one
    cluster, and a cluster splits into two clusters or into none. *)
Definition binary_condensed (_raw_tree : list edge) (root last_leaf : Z) : Prop :=
  0 ≤ root ∧
  (∃ r, r ∈ cluster_edges _raw_tree) ∧
  (∀ r, r ∈ _raw_tree → root ≤ parent r ≤ last_leaf) ∧
  (∀ c, root ≤ c ≤ last_leaf → c ∈ parent <$> _raw_tree) ∧
  (∀ x y, cluster_link _raw_tree x y → x < y ≤ last_leaf) ∧
  (∀ c, root < c ≤ last_leaf → ∃ x, cluster_link _raw_tree x c) ∧
  NoDup (child <$> cluster_edges _raw_tree) ∧
  (∀ c, length (cluster_rows _raw_tree c) = 0%nat ∨
        length (cluster_rows _raw_tree c) = 2%nat).

(** The root 5 has the cluster children 6 and 7; 7 has the single cluster
    child 8. *)
Definition single_child : list edge :=
  [ Edge 5 6 1 3; Edge 5 7 1 3; Edge 7 8 2 2;
    Edge 6 0 2 1; Edge 6 1 2 1; Edge 6 2 3 1;
    Edge 7 3 2 1;
    Edge 8 4 3 1; Edge 8 5 4 1 ].

(** The root 5 splits into the three clusters 6, 7 and 8; 8 has the single
    cluster child 9. *)
Definition single_child_three_way : list edge :=
  [ Edge 5 6 1 2; Edge 5 7 1 2; Edge 5 8 1 3; Edge 8 9 2 2;
    Edge 6 0 2 1; Edge 6 1 2 1;
    Edge 7 2 2 1; Edge 7 3 3 1;
    Edge 8 4 2 1;
    Edge 9 5 3 1; Edge 9 6 4 1 ].

(** * Breadth-first search *)

Section frontiers.
Context (next : list Z → list Z) (E : relation Z).
Hypothesis next_spec : ∀ tp y, y ∈ next tp ↔ ∃ x, x ∈ tp ∧ E x y.

Lemma next_nil : next [] = [].
Proof.
  apply elem_of_nil_inv. intros y [x [Hx _]]%next_spec.
  by apply not_elem_of_nil in Hx.
Qed.

Lemma frontier_nil k : frontier next k [] = [].
Proof. induction k as [|k IH]; simpl; [done|]. by rewrite next_nil. Qed.

Lemma frontier_spec k tp y :
  y ∈ frontier next k tp ↔ ∃ x, x ∈ tp ∧ nsteps E k x y.
Proof.
  revert tp. induction k as [|k IH]; intros tp; simpl.
  - split.
    + intros Hy. exists y. split; [done|constructor].
    + intros (x & Hx & Hn). by inversion Hn; subst.
  - rewrite IH. split.
    + intros (x & (w & Hw & Hwx)%next_spec & Hn).
      exists w. split; [done|]. by econstructor.
    + intros (w & Hw & Hn). inversion Hn as [|? ? x ? Hwx Hn']; subst.
      exists x. split; [|done]. apply next_spec. eauto.
Qed.

Lemma sweep_spec n tp y :
  y ∈ sweep next n tp ↔ ∃ k, (k < n)%nat ∧ y ∈ frontier next k tp.
Proof.
  revert tp. induction n as [|n IH]; intros tp; simpl.
  - split; [by intros ?%not_elem_of_nil|]. intros (k & ? & _). lia.
  - rewrite elem_of_app, IH. split.
    + intros [Hy|(k & Hk & Hy)].
      * exists 0%nat. split; [lia|done].
      * exists (S k). split; [lia|done].
    + intros ([|k] & Hk & Hy); [by left|].
      right. exists k. split; [lia|done].
Qed.

Lemma sweep_nil n : sweep next n [] = [].
Proof. induction n as [|n IH]; simpl; [done|]. by rewrite next_nil. Qed.

Section ranked.
Context (rank : Z → nat) (bound : nat).
Hypothesis rank_lt : ∀ x y, E x y → (rank x < rank y ≤ bound)%nat.

Lemma nsteps_rank k x y : nsteps E k x y → (rank x + k ≤ rank y)%nat.
Proof.
  induction 1 as [|k x w y Hxw _ IH]; [lia|].
  apply rank_lt in Hxw. lia.
Qed.

Lemma nsteps_rank_bound k x y : nsteps E (S k) x y → (rank y ≤ bound)%nat.
Proof.
  intros (w & _ & Hwy)%nsteps_inv_r. apply rank_lt in Hwy. lia.
Qed.

Lemma frontier_empty tp : frontier next (S bound) tp = [].
Proof.
  apply elem_of_nil_inv. intros y (x & _ & Hn)%frontier_spec.
  pose proof (nsteps_rank _ _ _ Hn). pose proof (nsteps_rank_bound _ _ _ Hn).
  lia.
Qed.

Lemma sweep_reach s y : y ∈ sweep next (S bound) [s] ↔ rtc E s y.
Proof.
  rewrite sweep_spec. split.
  - intros (k & _ & (x & ->%list_elem_of_singleton & Hn)%frontier_spec).
    by eapply rtc_nsteps_2.
  - intros [k Hn]%rtc_nsteps_1. exists k. split.
    + destruct k as [|k]; [lia|].
      pose proof (nsteps_rank _ _ _ Hn). pose proof (nsteps_rank_bound _ _ _ Hn).
      lia.
    + apply frontier_spec. exists s. split; [|done]. by apply list_elem_of_singleton.
Qed.

Hypothesis one_pred : ∀ x x' y, E x y → E x' y → x = x'.
Hypothesis next_NoDup : ∀ tp, NoDup tp → NoDup (next tp).

Lemma nsteps_same_length s y i j :
  nsteps E i s y → nsteps E j s y → i = j.
Proof.
  revert y j. induction i as [|i IH]; intros y j Hi Hj.
  - inversion Hi; subst. destruct j as [|j]; [done|].
    pose proof (nsteps_rank _ _ _ Hj). lia.
  - destruct j as [|j].
    + inversion Hj; subst. pose proof (nsteps_rank _ _ _ Hi). lia.
    + apply nsteps_inv_r in Hi as (w & Hi & Hwy).
      apply nsteps_inv_r in Hj as (w' & Hj & Hwy').
      assert (w = w') as <- by eauto. f_equal. eauto.
Qed.

Lemma frontier_S k tp : frontier next (S k) tp = next (frontier next k tp).
Proof. revert tp. induction k as [|k IH]; intros tp; [done|]. apply (IH (next tp)). Qed.

Lemma frontier_add j k tp :
  frontier next j (frontier next k tp) = frontier next (k + j) tp.
Proof. revert tp. induction k as [|k IH]; intros tp; [done|]. apply (IH (next tp)). Qed.

Lemma frontier_NoDup k tp : NoDup tp → NoDup (frontier next k tp).
Proof. revert tp. induction k as [|k IH]; intros tp ?; simpl; auto. Qed.

Lemma sweep_frontier n k tp :
  sweep next n (frontier next k tp) =
  match n with O => [] | S n' => frontier next k tp ++ sweep next n' (frontier next (S k) tp) end.
Proof. destruct n; [done|]. simpl. by rewrite <-frontier_S. Qed.

Lemma sweep_NoDup_from s n k : NoDup (sweep next n (frontier next k [s])).
Proof.
  revert k. induction n as [|n IH]; intros k; [constructor|].
  rewrite sweep_frontier. apply NoDup_app. split_and!.
  - apply frontier_NoDup, NoDup_singleton.
  - intros y (x & ->%list_elem_of_singleton & Hk)%frontier_spec
             (j & _ & Hj)%sweep_spec.
    rewrite frontier_add in Hj.
    apply frontier_spec in Hj as (x & ->%list_elem_of_singleton & Hjk).
    pose proof (nsteps_same_length _ _ _ _ Hk Hjk). lia.
  - apply IH.
Qed.

Lemma sweep_NoDup s n : NoDup (sweep next n [s]).
Proof. apply (sweep_NoDup_from s n 0). Qed.
End ranked.
End frontiers.

(** ** The condensed-tree search *)

Lemma children_in_spec tree tp y :
  y ∈ children_in tree tp ↔ ∃ x, x ∈ tp ∧ link tree x y.
Proof.
  unfold children_in, link. rewrite list_elem_of_fmap. split.
  - intros (r & -> & [Hp Hr]%list_elem_of_filter). eauto 6.
  - intros (x & Hx & r & Hr & <- & <-). exists r. split; [done|].
    by apply list_elem_of_filter.
Qed.

Lemma children_in_NoDup tree tp : one_parent tree → NoDup (children_in tree tp).
Proof.
  unfold one_parent, children_in. intros Hnd.
  eapply sublist_NoDup; [exact Hnd|]. apply fmap_sublist, sublist_filter.
Qed.

Lemma link_rank rank tree x y :
  ranked rank tree → link tree x y → (rank x < rank y ≤ rank_bound rank tree)%nat.
Proof.
  intros Hrk (r & Hr & <- & <-). split; [by apply Hrk|].
  unfold rank_bound. apply max_list_elem_of_le, list_elem_of_fmap. eauto.
Qed.

Lemma link_one_parent tree x x' y :
  one_parent tree → link tree x y → link tree x' y → x = x'.
Proof.
  intros Hnd (r & Hr & <- & <-) (r' & Hr' & <- & Hc). f_equal.
  apply list_elem_of_lookup in Hr as [i Hi]. apply list_elem_of_lookup in Hr' as [j Hj].
  assert (i = j) as ->.
  { eapply NoDup_lookup; [exact Hnd| |].
    - rewrite list_lookup_fmap, Hi. done.
    - rewrite list_lookup_fmap, Hj. simpl. by rewrite Hc. }
  congruence.
Qed.

Lemma bfs_cluster_loop_sweep tree n fuel acc tp :
  frontier (children_in tree) n tp = [] → (n ≤ fuel)%nat →
  bfs_cluster_loop fuel tree acc tp = Ret (acc ++ sweep (children_in tree) n tp).
Proof.
  revert fuel acc tp. induction n as [|n IH]; intros fuel acc tp Hn Hfuel.
  - simpl in Hn. subst tp. destruct fuel; simpl; by rewrite app_nil_r.
  - destruct tp as [|x tp].
    { rewrite (sweep_nil _ _ (children_in_spec tree)).
      destruct fuel; simpl; by rewrite app_nil_r. }
    destruct fuel as [|fuel]; [lia|]. simpl.
    rewrite (IH fuel); [|done|lia]. by rewrite <-(assoc_L (++)).
Qed.

Lemma bfs_cluster_returns rank tree s fuel :
  ranked rank tree → (rank_bound rank tree < fuel)%nat →
  _bfs_from_cluster_tree fuel tree s =
    Ret (sweep (children_in tree) (S (rank_bound rank tree)) [s]).
Proof.
  intros Hrk Hfuel. unfold _bfs_from_cluster_tree.
  rewrite (bfs_cluster_loop_sweep tree (S (rank_bound rank tree))); [done| |lia].
  eapply frontier_empty; [apply children_in_spec|].
  intros x y. by apply link_rank.
Qed.

Lemma bfs_cluster_reach rank tree s y :
  ranked rank tree →
  y ∈ sweep (children_in tree) (S (rank_bound rank tree)) [s] ↔ reachable tree s y.
Proof.
  intros Hrk. eapply sweep_reach; [apply children_in_spec|].
  intros x' y'. by apply link_rank.
Qed.

Lemma bfs_cluster_NoDup rank tree s n :
  ranked rank tree → one_parent tree → NoDup (sweep (children_in tree) n [s]).
Proof.
  intros Hrk Hop. eapply (sweep_NoDup _ _ (children_in_spec tree) rank).
  - intros x y. by apply link_rank.
  - intros x x' y. by apply link_one_parent.
  - intros tp _. by apply children_in_NoDup.
Qed.

(** Every node of a single-rooted tree is reachable from the root. *)
Lemma rooted_reachable rank tree root y :
  ranked rank tree → rooted_at root tree → root ∈ parent <$> tree →
  y ∈ nodes_of tree ↔ reachable tree root y.
Proof.
  intros Hrk Hroot Hin. unfold nodes_of. rewrite elem_of_remove_dups, elem_of_app. split.
  - assert (∀ n y, (rank y < n)%nat →
              y ∈ parent <$> tree ∨ y ∈ child <$> tree → reachable tree root y) as Hind.
    { clear y. induction n as [|n IH]; intros y Hn Hy; [lia|].
      assert (y = root ∨ y ∈ child <$> tree) as [->|Hc].
      { destruct Hy as [(r & -> & Hr)%list_elem_of_fmap|?]; [|by right].
        destruct (Hroot r Hr); auto. }
      { apply rtc_refl. }
      apply list_elem_of_fmap in Hc as (r & -> & Hr).
      eapply rtc_r; [apply (IH (parent r))|].
      - pose proof (Hrk r Hr). lia.
      - left. apply list_elem_of_fmap. eauto.
      - exists r. eauto. }
    apply (Hind (S (rank y))). lia.
  - intros Hreach. apply rtc_inv_r in Hreach as [->|(w & _ & r & Hr & _ & <-)].
    + by left.
    + right. apply list_elem_of_fmap. eauto.
Qed.

(** ** The linkage-tree search *)

Lemma np_index_lookup {A} (a : list A) (i : nat) x :
  a !! i = Some x → np_index a (Z.of_nat i) = Ret x.
Proof.
  intros Hi. unfold np_index. pose proof (lookup_lt_Some _ _ _ Hi).
  cbv zeta. destruct (decide (0 ≤ Z.of_nat i)); [|lia].
  rewrite decide_True by lia. by rewrite Nat2Z.id, Hi.
Qed.

Lemma np_index_out_of_range {A} (a : list A) (i : Z) :
  Z.of_nat (length a) ≤ i → np_index a i = Raise IndexError.
Proof.
  intros Hi. unfold np_index.
  cbv zeta. destruct (decide (0 ≤ i)); [|lia]. by rewrite decide_False by lia.
Qed.

Lemma np_take_lookup {A} (a : list A) (i : nat) x :
  a !! i = Some x → np_take a (Z.of_nat i) = Ret x.
Proof.
  intros Hi. unfold np_take. pose proof (lookup_lt_Some _ _ _ Hi).
  rewrite decide_True by lia. by apply np_index_lookup.
Qed.

Lemma np_take_out_of_range {A} (a : list A) (i : Z) :
  Z.of_nat (length a) ≤ i < 2 ^ 63 → np_take a i = Raise IndexError.
Proof.
  intros Hi. unfold np_take. rewrite decide_False by lia.
  by rewrite decide_False by lia.
Qed.

Lemma elem_of_pair (y a b : Z) : y ∈ [a; b] ↔ y = a ∨ y = b.
Proof. rewrite elem_of_cons, list_elem_of_singleton. tauto. Qed.

Section linkage.
Context (hierarchy : list merge).
Local Abbreviation dim := (Z.of_nat (length hierarchy)).
Local Abbreviation num_points := (Z.of_nat (length hierarchy) + 1).

Lemma merged_children_in_range (l : list Z) :
  Forall (λ x, num_points ≤ x < num_points + dim) l →
  merged_children hierarchy ((λ x, x - num_points) <$> l) =
    Ret (l ≫= λ x, match hierarchy !! Z.to_nat (x - num_points) with
                     | Some m => [left_child m; right_child m]
                     | None => []
                     end).
Proof.
  unfold merged_children.
  induction 1 as [|x l Hx _ IH]; [done|].
  destruct (lookup_lt_is_Some_2 hierarchy (Z.to_nat (x - num_points))) as [m Hm].
  { lia. }
  rewrite fmap_cons. simpl mapM.
  replace (x - num_points) with (Z.of_nat (Z.to_nat (x - num_points))) at 1 by lia.
  rewrite (np_take_lookup _ _ _ Hm). simpl.
  rewrite Hm.
  destruct (mapM (np_take hierarchy) ((λ x, x - num_points) <$> l)) as [rows| |];
    simpl in *; [|done..].
  injection IH as IH. do 3 f_equal. exact IH.
Qed.

Lemma merged_of_spec tp y :
  y ∈ merged_of hierarchy num_points tp ↔ ∃ x, x ∈ tp ∧ merges_into hierarchy x y.
Proof.
  unfold merged_of, merges_into. rewrite list_elem_of_bind. split.
  - intros (x & Hy & [Hx Hin]%list_elem_of_filter).
    destruct (hierarchy !! Z.to_nat (x - num_points)) as [m|] eqn:Hm;
      [|by apply not_elem_of_nil in Hy].
    exists x. split; [done|]. exists (Z.to_nat (x - num_points)), m.
    split_and!; [done|lia|].
    by apply elem_of_pair.
  - intros (x & Hx & i & m & Hm & -> & Hy). exists (dim + 1 + Z.of_nat i).
    split.
    + replace (Z.to_nat (dim + 1 + Z.of_nat i - num_points)) with i
        by (lia).
      rewrite Hm. by apply elem_of_pair.
    + apply list_elem_of_filter. split; [lia|done].
Qed.

Hypothesis wf : linkage_wf hierarchy.

Lemma merges_into_lt x y : merges_into hierarchy x y → 0 ≤ y < x ∧ x < num_points + dim.
Proof.
  intros (i & m & Hm & -> & Hy). destruct wf as [Hlt _].
  pose proof (lookup_lt_Some _ _ _ Hm). specialize (Hlt i m Hm).
  destruct Hy; subst; lia.
Qed.

Lemma merges_into_rank x y :
  merges_into hierarchy x y →
  (linkage_rank hierarchy x < linkage_rank hierarchy y ≤ length hierarchy)%nat.
Proof.
  intros Hxy. pose proof (merges_into_lt _ _ Hxy) as Hlt.
  destruct Hxy as (i & m & Hm & -> & _).
  unfold linkage_rank.
  repeat case_decide; lia.
Qed.

Lemma NoDup_bind_lookup {A B} (f : A → list B) (l : list A) i j a b y :
  NoDup (l ≫= f) → l !! i = Some a → l !! j = Some b →
  y ∈ f a → y ∈ f b → i = j.
Proof.
  revert i j. induction l as [|c l IH]; intros i j Hnd Hi Hj Ha Hb; [done|].
  rewrite bind_cons in Hnd. apply NoDup_app in Hnd as (_ & Hdis & Hnd).
  destruct i as [|i], j as [|j]; simplify_eq/=; [done| | |f_equal; eauto].
  - exfalso. eapply Hdis; [done|]. apply list_elem_of_bind.
    exists b. split; [done|]. by eapply list_elem_of_lookup_2.
  - exfalso. eapply Hdis; [done|]. apply list_elem_of_bind.
    exists a. split; [done|]. by eapply list_elem_of_lookup_2.
Qed.

Lemma NoDup_bind_elem {A B} (f : A → list B) (l : list A) a :
  NoDup (l ≫= f) → a ∈ l → NoDup (f a).
Proof.
  induction l as [|c l IH]; intros Hnd Ha; [by apply not_elem_of_nil in Ha|].
  rewrite bind_cons in Hnd. apply NoDup_app in Hnd as (? & _ & ?).
  apply elem_of_cons in Ha as [->|?]; auto.
Qed.

Lemma merges_into_one_pred x x' y :
  merges_into hierarchy x y → merges_into hierarchy x' y → x = x'.
Proof.
  intros (i & m & Hm & -> & Hy) (i' & m' & Hm' & -> & Hy'). destruct wf as [_ Hnd].
  assert (i = i') as ->; [|done].
  eapply (NoDup_bind_lookup _ _ _ _ _ _ y Hnd Hm Hm'); by apply elem_of_pair.
Qed.

Lemma merged_of_NoDup tp : NoDup tp → NoDup (merged_of hierarchy num_points tp).
Proof.
  intros Hnd. unfold merged_of. destruct wf as [_ Hwf]. apply NoDup_bind.
  - intros x1 x2 y [Hx1 _]%list_elem_of_filter [Hx2 _]%list_elem_of_filter Hy1 Hy2.
    destruct (hierarchy !! Z.to_nat (x1 - num_points)) as [m1|] eqn:Hm1;
      [|by apply not_elem_of_nil in Hy1].
    destruct (hierarchy !! Z.to_nat (x2 - num_points)) as [m2|] eqn:Hm2;
      [|by apply not_elem_of_nil in Hy2].
    pose proof (NoDup_bind_lookup _ _ _ _ _ _ y Hwf Hm1 Hm2 Hy1 Hy2). lia.
  - intros x _. destruct (hierarchy !! Z.to_nat (x - num_points)) as [m|] eqn:Hm;
      [|constructor].
    eapply (NoDup_bind_elem _ _ m Hwf). by eapply list_elem_of_lookup_2.
  - by apply NoDup_filter.
Qed.

Lemma bfs_linkage_loop_sweep n fuel acc tp :
  Forall (λ x, x < num_points + dim) tp →
  frontier (merged_of hierarchy num_points) n tp = [] → (n ≤ fuel)%nat →
  bfs_linkage_loop fuel hierarchy num_points acc tp =
    Ret (acc ++ sweep (merged_of hierarchy num_points) n tp).
Proof.
  revert fuel acc tp. induction n as [|n IH]; intros fuel acc tp Htp Hn Hfuel.
  - simpl in Hn. subst tp. destruct fuel; simpl; by rewrite app_nil_r.
  - destruct tp as [|x tp].
    { rewrite (sweep_nil _ _ merged_of_spec). destruct fuel; simpl; by rewrite app_nil_r. }
    destruct fuel as [|fuel]; [lia|].
    cbn [bfs_linkage_loop].
    assert ((if decide ((λ x, x - num_points) <$> filter (λ x, num_points ≤ x) (x :: tp) = [])
             then Ret []
             else merged_children hierarchy
                    ((λ x, x - num_points) <$> filter (λ x, num_points ≤ x) (x :: tp)))
            = Ret (merged_of hierarchy num_points (x :: tp))) as ->.
    { case_decide as Hnil.
      - apply fmap_nil_inv in Hnil. unfold merged_of. by rewrite Hnil.
      - apply merged_children_in_range. apply Forall_forall.
        intros z [? Hz]%list_elem_of_filter.
        rewrite Forall_forall in Htp. specialize (Htp z Hz). simpl in Htp. lia. }
    simpl. rewrite (IH fuel); [|  |done|lia].
    + by rewrite <-(assoc_L (++)).
    + apply Forall_forall. intros y (w & _ & Hwy)%merged_of_spec.
      apply merges_into_lt in Hwy. lia.
Qed.

Lemma bfs_linkage_returns s fuel :
  s ≤ 2 * dim → (length hierarchy < fuel)%nat →
  _bfs_from_linkage_tree fuel hierarchy s =
    Ret (sweep (merged_of hierarchy num_points) (S (length hierarchy)) [s]).
Proof.
  intros Hs Hfuel. unfold _bfs_from_linkage_tree.
  replace (2 * Z.of_nat (length hierarchy) - Z.of_nat (length hierarchy) + 1)
    with num_points by (lia).
  rewrite (bfs_linkage_loop_sweep (S (length hierarchy))); [done| | |lia].
  - apply Forall_singleton. lia.
  - eapply frontier_empty; [apply merged_of_spec|]. apply merges_into_rank.
Qed.

Lemma bfs_linkage_reach s y :
  y ∈ sweep (merged_of hierarchy num_points) (S (length hierarchy)) [s]
  ↔ rtc (merges_into hierarchy) s y.
Proof. eapply sweep_reach; [apply merged_of_spec|apply merges_into_rank]. Qed.

Lemma bfs_linkage_NoDup s n :
  NoDup (sweep (merged_of hierarchy num_points) n [s]).
Proof.
  eapply (sweep_NoDup _ _ merged_of_spec (linkage_rank hierarchy)).
  - apply merges_into_rank.
  - apply merges_into_one_pred.
  - apply merged_of_NoDup.
Qed.

(** Every node but the last one is merged by exactly one row. *)
Lemma merged_nodes_Permutation :
  hierarchy ≫= merged_pair ≡ₚ seqZ 0 (2 * dim).
Proof.
  destruct wf as [Hlt Hnd]. apply submseteq_length_Permutation.
  - apply NoDup_submseteq; [done|]. intros y (m & Hy & Hm)%list_elem_of_bind.
    apply list_elem_of_lookup in Hm as [i Hm].
    pose proof (lookup_lt_Some _ _ _ Hm). specialize (Hlt i m Hm).
    apply elem_of_seqZ. apply elem_of_pair in Hy as [->| ->]; lia.
  - rewrite length_seqZ.
    assert (length (hierarchy ≫= merged_pair) = (2 * length hierarchy)%nat) as ->.
    { clear. induction hierarchy as [|m l IH]; [done|].
      rewrite bind_cons, length_app, IH. simpl. lia. }
    lia.
Qed.

Lemma linkage_all_reachable y :
  rtc (merges_into hierarchy) (2 * dim) y ↔ 0 ≤ y ≤ 2 * dim.
Proof.
  split.
  - intros [<-|(w & _ & Hwy)]%rtc_inv_r; [lia|].
    apply merges_into_lt in Hwy. lia.
  - assert (∀ k y, (Z.to_nat (2 * dim - y) < k)%nat → 0 ≤ y ≤ 2 * dim →
              rtc (merges_into hierarchy) (2 * dim) y) as Hind.
    { clear y. induction k as [|k IH]; intros y Hk Hy; [lia|].
      destruct (decide (y = 2 * dim)) as [->|Hne]; [done|].
      assert (y ∈ hierarchy ≫= merged_pair) as (m & Hym & Hm)%list_elem_of_bind.
      { rewrite merged_nodes_Permutation. apply elem_of_seqZ. lia. }
      apply list_elem_of_lookup in Hm as [i Hm].
      assert (merges_into hierarchy (dim + 1 + Z.of_nat i) y) as Hstep.
      { exists i, m. split_and!; [done..|]. by apply elem_of_pair in Hym. }
      pose proof (merges_into_lt _ _ Hstep).
      eapply rtc_r; [|exact Hstep]. apply IH; lia. }
    intros Hy. apply (Hind (S (Z.to_nat (2 * dim - y)))); [lia|done].
Qed.
End linkage.

(** * Traversals in the error monad *)

Lemma mapM_outcome_Forall2 {A B} (f : A → outcome B) (P : A → B → Prop) (l : list A) :
  (∀ x, x ∈ l → ∃ y, f x = Ret y ∧ P x y) →
  ∃ k, mapM f l = Ret k ∧ Forall2 P l k.
Proof.
  induction l as [|x l IH]; intros Hf.
  - exists []. by split; [|constructor].
  - destruct (Hf x) as (y & Hy & HP); [by left|].
    destruct IH as (k & Hk & HF); [intros; apply Hf; by right|].
    exists (y :: k). split; [|by constructor].
    simpl. rewrite Hy. simpl. by rewrite Hk.
Qed.

Lemma mapM_outcome_inv {A B} (f : A → outcome B) (l : list A) k :
  mapM f l = Ret k → Forall2 (λ x y, f x = Ret y) l k.
Proof.
  revert k. induction l as [|x l IH]; intros k Hk; simpl in Hk.
  - injection Hk as <-. constructor.
  - destruct (f x) as [y| |] eqn:Hy; simpl in Hk; [|done..].
    destruct (mapM f l) as [k'| |]; simpl in Hk; [|done..].
    injection Hk as <-. constructor; auto.
Qed.

Lemma mapM_outcome_ext {A B} (f g : A → outcome B) (l : list A) k :
  mapM f l = Ret k → (∀ x y, x ∈ l → f x = Ret y → g x = Ret y) →
  mapM g l = Ret k.
Proof.
  intros Hk%mapM_outcome_inv Hfg.
  induction Hk as [|x y l k Hx Hk IH]; [done|].
  simpl. rewrite (Hfg x y); [|by left|done]. simpl.
  rewrite IH; [done|]. intros; apply Hfg; [by right|done].
Qed.

(** * Depth-first enumeration of the leaves *)

Lemma children_of_spec ct x y : y ∈ children_of ct x ↔ link ct x y.
Proof.
  unfold children_of, link. rewrite list_elem_of_fmap. split.
  - intros (r & -> & [Hp Hr]%list_elem_of_filter). eauto.
  - intros (r & Hr & <- & <-). exists r. split; [done|]. by apply list_elem_of_filter.
Qed.

Lemma children_of_NoDup ct x : one_parent ct → NoDup (children_of ct x).
Proof.
  unfold one_parent, children_of. intros Hnd.
  eapply sublist_NoDup; [exact Hnd|]. apply fmap_sublist, sublist_filter.
Qed.

Lemma dfs_fuel_mono ct fuel fuel' x l :
  _recurse_leaf_dfs fuel ct x = Ret l → (fuel ≤ fuel')%nat →
  _recurse_leaf_dfs fuel' ct x = Ret l.
Proof.
  revert fuel' x l. induction fuel as [|fuel IH]; intros fuel' x l Hl Hle; [done|].
  destruct fuel' as [|fuel']; [lia|]. simpl in *.
  case_decide; [done|].
  destruct (mapM (_recurse_leaf_dfs fuel ct) (children_of ct x)) as [k| |] eqn:Hk;
    simpl in Hl; [|done..].
  rewrite (mapM_outcome_ext _ (_recurse_leaf_dfs fuel' ct) _ _ Hk); [done|].
  intros c lc _ Hc. apply IH; [done|lia].
Qed.

Section forest.
Context (rank : Z → nat) (ct : list edge).
Hypothesis Hrank : ranked rank ct.

Lemma reachable_rank x y : reachable ct x y → (rank x ≤ rank y)%nat.
Proof.
  induction 1 as [|x w y Hxw _ IH]; [done|].
  pose proof (link_rank _ _ _ _ Hrank Hxw). lia.
Qed.

Lemma link_irreflexive_tc x y : link ct x y → reachable ct y x → False.
Proof.
  intros Hxy Hyx. pose proof (link_rank _ _ _ _ Hrank Hxy).
  pose proof (reachable_rank _ _ Hyx). lia.
Qed.

Hypothesis Hone : one_parent ct.

(** The ancestors of a node form a chain. *)
Lemma ancestors_chain a b y :
  reachable ct a y → reachable ct b y → reachable ct a b ∨ reachable ct b a.
Proof.
  unfold reachable. intros Hay. revert b. pattern y.
  eapply (rtc_ind_r _ a); [| |exact Hay].
  - intros b Hb. by right.
  - clear y Hay. intros y z Hay Hyz IH b Hby.
    apply rtc_inv_r in Hby as [->|(w & Hbw & Hwz)].
    + left. by eapply rtc_r.
    + assert (w = y) as -> by exact (link_one_parent ct w y z Hone Hwz Hyz). by apply IH.
Qed.

Lemma siblings_disjoint x c c' y :
  link ct x c → link ct x c' → c ≠ c' →
  reachable ct c y → reachable ct c' y → False.
Proof.
  intros Hc Hc' Hne Hy Hy'.
  assert (∀ a b, link ct x a → link ct x b → a ≠ b → reachable ct a b → False) as Hcyc.
  { intros a b Ha Hb Hab [->|(w & Haw & Hwb)]%rtc_inv_r; [done|].
    assert (w = x) as -> by exact (link_one_parent ct w x b Hone Hwb Hb).
    exact (link_irreflexive_tc x a Ha Haw). }
  destruct (ancestors_chain _ _ _ Hy Hy'); eauto.
Qed.

Lemma dfs_children x cs ls :
  NoDup cs → (∀ c, c ∈ cs → link ct x c) →
  Forall2 (λ c l, NoDup l ∧ ∀ y, y ∈ l ↔ leaf_below ct c y) cs ls →
  NoDup (concat ls) ∧ ∀ y, y ∈ concat ls ↔ ∃ c, c ∈ cs ∧ leaf_below ct c y.
Proof.
  intros Hnd Hcs HF. induction HF as [|c l cs ls [Hl Hc] HF IH]; simpl.
  - split; [constructor|]. intros y. split; [by intros ?%not_elem_of_nil|].
    by intros (_ & ?%not_elem_of_nil & _).
  - apply NoDup_cons in Hnd as [Hnotin Hnd].
    destruct IH as [IHnd IHin]; [done|intros; apply Hcs; by right|].
    split.
    + apply NoDup_app. split_and!; [done| |done].
      intros y [Hy _]%Hc (c' & Hc' & [Hy' _])%IHin.
      eapply (siblings_disjoint x c c' y); [apply Hcs; by left|apply Hcs; by right| |done..].
      by intros ->.
    + intros y. rewrite elem_of_app, Hc, IHin. split.
      * intros [?|(c' & ? & ?)]; [exists c; split; [by left|done]|].
        exists c'. split; [by right|done].
      * intros (c' & [->|?]%elem_of_cons & ?); [by left|right; eauto].
Qed.

Lemma dfs_correct fuel x :
  (rank_bound rank ct - rank x < fuel)%nat →
  ∃ l, _recurse_leaf_dfs fuel ct x = Ret l ∧ NoDup l ∧ ∀ y, y ∈ l ↔ leaf_below ct x y.
Proof.
  revert x. induction fuel as [|fuel IH]; intros x Hfuel; [lia|].
  simpl. case_decide as Hlen.
  - apply nil_length_inv in Hlen. exists [x]. split_and!; [done|apply NoDup_singleton|].
    intros y. rewrite list_elem_of_singleton. split.
    + intros ->. by split.
    + intros [[->|(w & Hxw & _)]%rtc_inv _]; [done|].
      apply children_of_spec in Hxw. rewrite Hlen in Hxw. by apply not_elem_of_nil in Hxw.
  - destruct (mapM_outcome_Forall2 (_recurse_leaf_dfs fuel ct)
                (λ c l, NoDup l ∧ ∀ y, y ∈ l ↔ leaf_below ct c y) (children_of ct x))
      as (ls & -> & HF).
    { intros c Hc%children_of_spec.
      pose proof (link_rank _ _ _ _ Hrank Hc).
      destruct (IH c) as (l & ? & ? & ?); [lia|eauto]. }
    destruct (dfs_children x _ _ (children_of_NoDup ct x Hone)
                (λ c, proj1 (children_of_spec ct x c)) HF) as [Hnd Hin].
    exists (concat ls). split_and!; [done..|].
    intros y. rewrite Hin. split.
    + intros (c & Hc%children_of_spec & Hcy & Hleaf). split; [|done]. by eapply rtc_l.
    + intros [[->|(c & Hxc & Hcy)]%rtc_inv Hleaf].
      * by rewrite Hleaf in Hlen.
      * exists c. split; [by apply children_of_spec|done].
Qed.
End forest.

Lemma np_min_spec l m :
  np_min l = Ret m ↔ m ∈ l ∧ ∀ x, x ∈ l → m ≤ x.
Proof.
  destruct l as [|a l]; simpl.
  { split; [done|]. by intros [?%not_elem_of_nil _]. }
  assert (∀ l a, foldl Z.min a l ∈ a :: l ∧ ∀ x, x ∈ a :: l → foldl Z.min a l ≤ x) as H.
  { clear. induction l as [|b l IH]; intros a; simpl.
    - split; [by left|]. intros x ->%list_elem_of_singleton. lia.
    - destruct (IH (a `min` b)) as [Hin Hle]. split.
      + apply elem_of_cons in Hin as [->|?]; [|by do 2 right].
        destruct (Z.min_spec a b) as [[_ ->]|[_ ->]]; [by left|right; by left].
      + intros x Hx. assert (a `min` b ≤ x ∨ x ∈ l) as [?|?].
        { apply elem_of_cons in Hx as [->|[->|?]%elem_of_cons]; [left; lia|left; lia|by right]. }
        * etrans; [|done]. apply Hle. by left.
        * apply Hle. by right. }
  destruct (H l a) as [Hin Hle]. split.
  - by intros [= <-].
  - intros [Hm Hmle]. f_equal. specialize (Hle m Hm). specialize (Hmle _ Hin). lia.
Qed.

(** * Loops *)

Lemma for_each_invariant {S A} (body : S → A → outcome S)
    (I : list A → S → Prop) (xs : list A) (st : S) :
  I [] st →
  (∀ done x st, done ++ [x] `prefix_of` xs → I done st →
     ∃ st', body st x = Ret st' ∧ I (done ++ [x]) st') →
  ∃ st', for_each body st xs = Ret st' ∧ I xs st'.
Proof.
  intros Hinit Hstep.
  assert (∀ todo done st, done ++ todo = xs → I done st →
            ∃ st', for_each body st todo = Ret st' ∧ I xs st') as Hgen.
  { induction todo as [|x todo IH]; intros done st' Hxs Hdone; simpl.
    - rewrite app_nil_r in Hxs. subst. eauto.
    - destruct (Hstep done x st') as (st'' & -> & Hnext); [|done|].
      { exists todo. by rewrite <-(assoc_L (++)). }
      simpl. apply (IH (done ++ [x])); [|done]. by rewrite <-(assoc_L (++)). }
  by apply (Hgen xs []).
Qed.

(** * Cluster selection *)

Lemma getitem_Some {V} (d : gmap Z V) k v : d !! k = Some v → getitem d k = Ret v.
Proof. unfold getitem. by intros ->. Qed.

Lemma getitem_None {V} (d : gmap Z V) k : d !! k = None → getitem d k = Raise KeyError.
Proof. unfold getitem. by intros ->. Qed.

Lemma py_dict_snoc {V} (pairs : list (Z * V)) k v :
  py_dict (pairs ++ [(k, v)]) = <[k := v]> (py_dict pairs).
Proof. unfold py_dict. by rewrite foldl_snoc. Qed.

Lemma all_selected_lookup node_list k :
  all_selected node_list !! k = if decide (k ∈ node_list) then Some true else None.
Proof.
  unfold all_selected. induction node_list as [|n l IH] using rev_ind.
  - by rewrite decide_False by apply not_elem_of_nil.
  - rewrite fmap_app. simpl. rewrite py_dict_snoc. simpl.
    destruct (decide (n = k)) as [->|Hne].
    + rewrite lookup_insert_eq. rewrite decide_True; [done|].
      apply elem_of_app. right. by left.
    + rewrite lookup_insert_ne by done. rewrite IH.
      apply decide_ext. rewrite elem_of_app, list_elem_of_singleton. intuition congruence.
Qed.

Lemma selected_spec node_list is_cluster k :
  k ∈ selected node_list is_cluster ↔ k ∈ node_list ∧ is_cluster !! k = Some true.
Proof. unfold selected. rewrite list_elem_of_filter. tauto. Qed.

Lemma selected_NoDup node_list is_cluster :
  NoDup node_list → NoDup (selected node_list is_cluster).
Proof. apply NoDup_filter. Qed.

Lemma unmark_descendants_lookup node is_cluster sub_nodes k :
  unmark_descendants node is_cluster sub_nodes !! k =
    if decide (k ∈ sub_nodes ∧ k ≠ node) then Some false else is_cluster !! k.
Proof.
  unfold unmark_descendants. induction sub_nodes as [|n l IH] using rev_ind.
  - case_decide as Hk; [|done]. destruct Hk as [Hk _]. by apply not_elem_of_nil in Hk.
  - rewrite foldl_snoc. destruct (decide (n ≠ node)) as [Hn|Hn].
    + destruct (decide (n = k)) as [->|Hne].
      * rewrite lookup_insert_eq. rewrite decide_True; [done|].
        split; [|done]. apply elem_of_app. right. by left.
      * rewrite lookup_insert_ne by done. rewrite IH. apply decide_ext.
        rewrite elem_of_app, list_elem_of_singleton. intuition congruence.
    + apply dec_stable in Hn. subst n. rewrite IH. apply decide_ext.
      rewrite elem_of_app, list_elem_of_singleton. intuition congruence.
Qed.

Section node_list.
Context (stability : gmap Z R).

Lemma sorted_keys_Permutation :
  merge_sort Z.ge (map_to_list stability).*1 ≡ₚ (map_to_list stability).*1.
Proof. apply merge_sort_Permutation. Qed.

Lemma elem_of_keys k : k ∈ (map_to_list stability).*1 ↔ is_Some (stability !! k).
Proof.
  rewrite list_elem_of_fmap. split.
  - intros ([k' v] & -> & Hin%elem_of_map_to_list). by exists v.
  - intros [v Hv]. exists (k, v). split; [done|]. by apply elem_of_map_to_list.
Qed.

Lemma Z_ge_total : Total Z.ge.
Proof. intros x y. lia. Qed.

Lemma Z_ge_trans : Transitive Z.ge.
Proof. intros x y z. lia. Qed.

Lemma sorted_keys_sorted :
  StronglySorted Z.ge (merge_sort Z.ge (map_to_list stability).*1).
Proof. apply StronglySorted_merge_sort; [apply Z_ge_trans|apply Z_ge_total]. Qed.

Lemma sorted_keys_NoDup : NoDup (merge_sort Z.ge (map_to_list stability).*1).
Proof. rewrite sorted_keys_Permutation. apply NoDup_fst_map_to_list. Qed.

(** The node list is the sorted key list without its last, least, entry. *)
Lemma node_list_snoc :
  merge_sort Z.ge (map_to_list stability).*1 = [] ∧ node_list_of stability = [] ∨
  ∃ least, merge_sort Z.ge (map_to_list stability).*1 = node_list_of stability ++ [least].
Proof.
  unfold node_list_of.
  destruct (merge_sort Z.ge (map_to_list stability).*1) as [|x l] eqn:Hl using rev_ind.
  - by left.
  - right. exists x. by rewrite removelast_last.
Qed.

Lemma node_list_spec n :
  n ∈ node_list_of stability ↔
    is_Some (stability !! n) ∧ ∃ m, is_Some (stability !! m) ∧ m < n.
Proof.
  pose proof sorted_keys_sorted as Hsorted. pose proof sorted_keys_NoDup as Hnd.
  destruct node_list_snoc as [[Hnil ->]|[least Hl]].
  - split; [by intros ?%not_elem_of_nil|]. intros [Hn _].
    apply elem_of_keys in Hn. rewrite <-sorted_keys_Permutation, Hnil in Hn.
    by apply not_elem_of_nil in Hn.
  - rewrite Hl in Hsorted, Hnd.
    apply NoDup_app in Hnd as (_ & Hdis & _).
    assert (∀ k, is_Some (stability !! k) ↔ k ∈ node_list_of stability ∨ k = least) as Hkeys.
    { intros k. rewrite <-elem_of_keys, <-sorted_keys_Permutation, Hl.
      by rewrite elem_of_app, list_elem_of_singleton. }
    assert (∀ k, k ∈ node_list_of stability → least < k) as Hlt.
    { intros k Hk.
      assert (k >= least) as Hge.
      { eapply (StronglySorted_app_1_elem_of Z.ge); [exact Hsorted|exact Hk|by left]. }
      assert (k ≠ least); [|lia]. intros ->. apply (Hdis least Hk). by left. }
    split.
    + intros Hn. split; [apply Hkeys; by left|]. exists least.
      split; [apply Hkeys; by right|by apply Hlt].
    + intros [[Hn| ->]%Hkeys (m & [Hm| ->]%Hkeys & Hlt')]; [done..| |lia].
      specialize (Hlt m Hm). lia.
Qed.

Lemma node_list_sorted : StronglySorted Z.gt (node_list_of stability).
Proof.
  pose proof sorted_keys_sorted as Hsorted. pose proof sorted_keys_NoDup as Hnd.
  assert (∀ l, StronglySorted Z.ge l → NoDup l → StronglySorted Z.gt l) as Hstrict.
  { induction 1 as [|x l Hl IH Hx]; [constructor|].
    intros [Hnotin Hnd']%NoDup_cons; constructor; auto.
    apply Forall_forall. intros y Hy. rewrite Forall_forall in Hx.
    specialize (Hx y Hy). assert (x ≠ y) by (by intros ->). lia. }
  destruct node_list_snoc as [[_ ->]|[least Hl]]; [constructor|].
  rewrite Hl in Hsorted, Hnd. apply Hstrict.
  - by apply StronglySorted_app_1_l in Hsorted.
  - by apply NoDup_app in Hnd as (? & _ & _).
Qed.
End node_list.

Lemma node_list_NoDup (stability : gmap Z R) : NoDup (node_list_of stability).
Proof.
  pose proof (sorted_keys_NoDup stability) as Hnd.
  destruct (node_list_snoc stability) as [[_ ->]|[least Hl]]; [constructor|].
  rewrite Hl in Hnd. by apply NoDup_app in Hnd as (? & _ & _).
Qed.

(** ** One node of the selection loop *)

Lemma strict_descendant_reachable rank ct n d :
  ranked rank ct → strict_descendant ct n d ↔ reachable ct n d ∧ d ≠ n.
Proof.
  intros Hrk. unfold strict_descendant, reachable. split.
  - intros Htc. split; [by apply tc_rtc|]. intros ->.
    apply tc_nsteps in Htc as (k & Hk & Hn).
    pose proof (nsteps_rank (link ct) rank (rank_bound rank ct)
                  (λ x y, link_rank rank ct x y Hrk) _ _ _ Hn). lia.
  - intros [[->|?]%rtc_tc Hne]; done.
Qed.

Section select_node.
Context (float_sum : list R → R).

Lemma subtree_stability_defined ct (stability : gmap Z R) node :
(∀ c, c ∈ child <$> ct → is_Some (stability !! c)) →
∃ vs, Forall2 (λ c v, stability !! c = Some v) (children_of ct node) vs ∧
      subtree_stability_of float_sum ct stability node = Ret (float_sum vs).
Proof.
intros Hkeys.
destruct (mapM_outcome_Forall2 (getitem stability)
            (λ c v, stability !! c = Some v) (children_of ct node)) as (vs & Hvs & HF).
{ intros c (r & -> & [_ Hr]%list_elem_of_filter)%list_elem_of_fmap.
  destruct (Hkeys (child r)) as [v Hv]; [apply list_elem_of_fmap; eauto|].
  exists v. split; [by apply getitem_Some|done]. }
exists vs. split; [done|]. unfold subtree_stability_of. by rewrite Hvs.
Qed.

Lemma subtree_stability_values ct (stability : gmap Z R) node vs :
Forall2 (λ c v, stability !! c = Some v) (children_of ct node) vs →
subtree_stability_of float_sum ct stability node = Ret (float_sum vs).
Proof.
intros HF. unfold subtree_stability_of.
assert (mapM (getitem stability) (children_of ct node) = Ret vs) as ->; [|done].
induction HF as [|c v cs vs Hc _ IH]; [done|].
simpl. rewrite (getitem_Some _ _ _ Hc). simpl. by rewrite IH.
Qed.

Lemma select_node_unselect fuel ct stability is_cluster node vs own :
Forall2 (λ c v, stability !! c = Some v) (children_of ct node) vs →
stability !! node = Some own → (float_sum vs > own)%R →
select_node float_sum fuel ct (stability, is_cluster) node =
  Ret (<[node := float_sum vs]> stability, <[node := false]> is_cluster).
Proof.
intros Hvs Hown Hgt. unfold select_node.
rewrite (subtree_stability_values _ _ _ _ Hvs). simpl.
rewrite (getitem_Some _ _ _ Hown). simpl. by rewrite decide_True.
Qed.

Lemma select_node_keep fuel ct stability is_cluster node vs own sub_nodes :
Forall2 (λ c v, stability !! c = Some v) (children_of ct node) vs →
stability !! node = Some own → ¬ (float_sum vs > own)%R →
_bfs_from_cluster_tree fuel ct node = Ret sub_nodes →
select_node float_sum fuel ct (stability, is_cluster) node =
  Ret (stability, unmark_descendants node is_cluster sub_nodes).
Proof.
intros Hvs Hown Hgt Hbfs. unfold select_node.
rewrite (subtree_stability_values _ _ _ _ Hvs). simpl.
rewrite (getitem_Some _ _ _ Hown). simpl. rewrite decide_False by done.
by rewrite Hbfs.
Qed.

End select_node.

(** What a kept node does to the marks. *)
Lemma unmark_bfs_lookup rank ct fuel node is_cluster :
  ranked rank ct → (rank_bound rank ct < fuel)%nat →
  ∃ sub_nodes, _bfs_from_cluster_tree fuel ct node = Ret sub_nodes ∧
    (∀ k, strict_descendant ct node k →
          unmark_descendants node is_cluster sub_nodes !! k = Some false) ∧
    (∀ k, ¬ strict_descendant ct node k →
          unmark_descendants node is_cluster sub_nodes !! k = is_cluster !! k).
Proof.
  intros Hrk Hfuel. eexists. split; [by apply (bfs_cluster_returns rank)|].
  split; intros k Hk; rewrite unmark_descendants_lookup.
  - rewrite decide_True; [done|].
    apply (strict_descendant_reachable rank) in Hk; [|done].
    by rewrite (bfs_cluster_reach rank).
  - rewrite decide_False; [done|]. intros Hin. apply Hk.
    apply (strict_descendant_reachable rank); [done|].
    by rewrite <-(bfs_cluster_reach rank).
Qed.

(** ** The selection loop *)

Lemma unmark_descendants_mono node is_cluster sub_nodes k :
  unmark_descendants node is_cluster sub_nodes !! k = Some true →
  is_cluster !! k = Some true.
Proof. rewrite unmark_descendants_lookup. by case_decide. Qed.

Section select_loop.
Context (float_sum : list R → R).

Lemma select_loop rank ct (stability : gmap Z R) fuel :
ranked rank ct → (rank_bound rank ct < fuel)%nat →
(∀ c, c ∈ child <$> ct → is_Some (stability !! c)) →
∃ st, for_each (select_node float_sum fuel ct)
        (stability, all_selected (node_list_of stability)) (node_list_of stability)
      = Ret st ∧
  (∀ k, st.2 !! k = Some true → k ∈ node_list_of stability) ∧
  (∀ a, a ∈ node_list_of stability → st.2 !! a = Some true →
        ∀ d, strict_descendant ct a d → st.2 !! d ≠ Some true).
Proof.
intros Hrk Hfuel Hkeys.
destruct (for_each_invariant (select_node float_sum fuel ct)
  (λ done st,
     (∀ k, is_Some (st.1 !! k) ↔ is_Some (stability !! k)) ∧
     (∀ k, st.2 !! k = Some true → k ∈ node_list_of stability) ∧
     (∀ a, a ∈ done → st.2 !! a = Some true →
           ∀ d, strict_descendant ct a d → st.2 !! d ≠ Some true))
  (node_list_of stability) (stability, all_selected (node_list_of stability)))
  as (st & Hst & _ & Hsel & Hanti).
- split_and!; simpl.
  + done.
  + intros k. rewrite all_selected_lookup. by case_decide.
  + by intros a ?%not_elem_of_nil.
- intros done node [st ic] Hpre (Hdom & Hsel & Hanti). simpl in *.
  assert (node ∈ node_list_of stability) as Hnode.
  { eapply elem_of_prefix; [|exact Hpre]. apply elem_of_app. right. by left. }
  destruct (proj2 (Hdom node)) as [own Hown].
  { by apply node_list_spec in Hnode as [? _]. }
  destruct (subtree_stability_defined float_sum ct st node) as (vs & Hvs & _).
  { intros c Hc. apply Hdom. by apply Hkeys. }
  destruct (decide (float_sum vs > own)%R) as [Hgt|Hle].
  + eexists. split; [by eapply select_node_unselect|]. simpl. split_and!.
    * intros k. rewrite <-Hdom. destruct (decide (node = k)) as [->|Hne].
      -- rewrite lookup_insert_eq. split; [by eauto|by eauto].
      -- by rewrite lookup_insert_ne.
    * intros k. destruct (decide (node = k)) as [->|Hne].
      -- by rewrite lookup_insert_eq.
      -- rewrite lookup_insert_ne by done. apply Hsel.
    * intros a Ha. destruct (decide (node = a)) as [->|Hne].
      { by rewrite lookup_insert_eq. }
      rewrite lookup_insert_ne by done. intros Ha' d Hd.
      apply elem_of_app in Ha as [Ha|Ha%list_elem_of_singleton]; [|done].
      destruct (decide (node = d)) as [->|Hne'].
      { by rewrite lookup_insert_eq. }
      rewrite lookup_insert_ne by done. by eapply Hanti.
  + destruct (unmark_bfs_lookup rank ct fuel node ic Hrk Hfuel)
      as (sub_nodes & Hbfs & Hdesc & _).
    eexists. split; [by eapply select_node_keep|]. simpl. split_and!.
    * done.
    * intros k Hk%unmark_descendants_mono. by apply Hsel.
    * intros a Ha Ha' d Hd Hd'.
      apply elem_of_app in Ha as [Ha|Ha%list_elem_of_singleton].
      -- apply unmark_descendants_mono in Ha', Hd'. by eapply Hanti.
      -- subst a. by rewrite (Hdesc d Hd) in Hd'.
- exists st. by split_and!.
Qed.

Lemma select_clusters_unfold fuel _raw_tree stability :
_select_clusters float_sum fuel _raw_tree stability =
  st ← for_each (select_node float_sum fuel (cluster_tree_of _raw_tree))
         (stability, all_selected (node_list_of stability)) (node_list_of stability);
  Ret (selected (node_list_of stability) st.2).
Proof.
unfold _select_clusters.
by destruct (for_each _ _ _) as [[??]| |].
Qed.

End select_loop.

(** ** The example of the specification *)

Lemma select_node_leaf float_sum fuel ct stability is_cluster node own :
  float_sum [] = 0%R →
  children_of ct node = [] → stability !! node = Some own → (0 <= own)%R →
  select_node float_sum (S fuel) ct (stability, is_cluster) node =
    Ret (stability, is_cluster).
Proof.
  intros Hnil Hleaf Hown Hpos.
  assert (children_in ct [node] = []) as Hin.
  { apply elem_of_nil_inv. intros y (x & ->%list_elem_of_singleton & Hl)%children_in_spec.
    apply children_of_spec in Hl. rewrite Hleaf in Hl. by apply not_elem_of_nil in Hl. }
  rewrite (select_node_keep float_sum (S fuel) ct stability is_cluster node [] own [node]).
  - unfold unmark_descendants. simpl. by rewrite decide_False by (by intros ?).
  - rewrite Hleaf. constructor.
  - done.
  - rewrite Hnil. lra.
  - unfold _bfs_from_cluster_tree. simpl. rewrite Hin. by destruct fuel.
Qed.

Lemma two_leaves_selected float_sum root_stability fuel :
  float_sum [] = 0%R →
  _select_clusters float_sum (S fuel) two_leaves (two_leaves_stability root_stability)
    = Ret [7; 6].
Proof.
  intros Hnil. rewrite select_clusters_unfold.
  assert (node_list_of (two_leaves_stability root_stability) = [7; 6]) as -> by by vm_compute.
  assert (cluster_tree_of two_leaves = two_leaves) as ->.
  { unfold cluster_tree_of, two_leaves. rewrite !filter_cons_True by (simpl; lia). done. }
  cbn [for_each].
  rewrite (select_node_leaf float_sum fuel two_leaves _ _ 7 0.5%R);
    [|done|by vm_compute|by vm_compute|lra].
  cbn [mbind outcome_bind].
  rewrite (select_node_leaf float_sum fuel two_leaves _ _ 6 1.2%R);
    [|done|by vm_compute|by vm_compute|lra].
  cbn [mbind outcome_bind]. by vm_compute.
Qed.

(** * Example trees *)

Lemma three_levels_cluster_tree :
  cluster_tree_of three_levels =
    [Edge 7 8 1 4; Edge 7 9 1 3; Edge 8 10 2 2; Edge 8 11 2 2].
Proof. by vm_compute. Qed.

Lemma three_levels_ranked : ranked id_rank (cluster_tree_of three_levels).
Proof.
  rewrite three_levels_cluster_tree. intros r Hr.
  repeat (apply elem_of_cons in Hr as [->|Hr]); [unfold id_rank; simpl; lia..|].
  by apply not_elem_of_nil in Hr.
Qed.

Lemma three_levels_one_parent : one_parent (cluster_tree_of three_levels).
Proof.
  rewrite three_levels_cluster_tree. apply (bool_decide_unpack _). by vm_compute.
Qed.

Lemma three_levels_rooted : rooted_at 7 (cluster_tree_of three_levels).
Proof.
  rewrite three_levels_cluster_tree. intros r Hr.
  repeat (apply elem_of_cons in Hr as [->|Hr]);
    [by left|by left|right; apply (bool_decide_unpack _); by vm_compute..|].
  by apply not_elem_of_nil in Hr.
Qed.

Lemma three_levels_rank_bound : rank_bound id_rank (cluster_tree_of three_levels) = 11%nat.
Proof. rewrite three_levels_cluster_tree. by vm_compute. Qed.

(** * C5 *)

(** C5 (BFS completeness).  On a condensed-tree array that is a forest
    (ranked, hence acyclic, and with one parent per node)
    [_bfs_from_cluster_tree] returns, from any start node and with enough
    fuel, the nodes reachable from the start node, each exactly once; when the
    start node is the single root its length is the number of nodes of the
    tree.  On a well-formed linkage matrix [_bfs_from_linkage_tree], started
    from the final merge node [2 * dim], returns every node [0 .. 2 * dim],
    each exactly once. *)
Theorem bfs_completeness :
  (∀ (rank : Z → nat) (tree : list edge) (bfs_root : Z) (fuel : nat),
     ranked rank tree → one_parent tree → (rank_bound rank tree < fuel)%nat →
     ∃ result,
       _bfs_from_cluster_tree fuel tree bfs_root = Ret result ∧
       NoDup result ∧
       (∀ y, y ∈ result ↔ reachable tree bfs_root y) ∧
       (rooted_at bfs_root tree → bfs_root ∈ parent <$> tree →
        length result = length (nodes_of tree))) ∧
  (∀ (hierarchy : list merge) (fuel : nat),
     linkage_wf hierarchy → (length hierarchy < fuel)%nat →
     ∃ result,
       _bfs_from_linkage_tree fuel hierarchy (2 * Z.of_nat (length hierarchy)) = Ret result ∧
       NoDup result ∧
       (∀ y, y ∈ result ↔
             rtc (merges_into hierarchy) (2 * Z.of_nat (length hierarchy)) y) ∧
       (∀ y, y ∈ result ↔ 0 ≤ y ≤ 2 * Z.of_nat (length hierarchy)) ∧
       length result = (2 * length hierarchy + 1)%nat).
Proof.
  split.
  - intros rank tree s fuel Hrk Hop Hfuel.
    exists (sweep (children_in tree) (S (rank_bound rank tree)) [s]).
    split_and!.
    + by apply bfs_cluster_returns.
    + by apply (bfs_cluster_NoDup rank).
    + intros y. by apply bfs_cluster_reach.
    + intros Hroot Hin. apply Permutation_length, NoDup_Permutation.
      * by apply (bfs_cluster_NoDup rank).
      * apply NoDup_remove_dups.
      * intros y. rewrite (bfs_cluster_reach rank) by done.
        by rewrite (rooted_reachable rank).
  - intros hierarchy fuel Hwf Hfuel.
    exists (sweep (merged_of hierarchy (Z.of_nat (length hierarchy) + 1))
                  (S (length hierarchy)) [2 * Z.of_nat (length hierarchy)]).
    assert (∀ y, y ∈ sweep (merged_of hierarchy (Z.of_nat (length hierarchy) + 1))
                       (S (length hierarchy)) [2 * Z.of_nat (length hierarchy)]
                 ↔ 0 ≤ y ≤ 2 * Z.of_nat (length hierarchy)) as Hall.
    { intros y. rewrite bfs_linkage_reach by done. by apply linkage_all_reachable. }
    split_and!.
    + apply bfs_linkage_returns; [done|lia|done].
    + by apply bfs_linkage_NoDup.
    + intros y. by apply bfs_linkage_reach.
    + done.
    + transitivity (length (seqZ 0 (2 * Z.of_nat (length hierarchy) + 1))).
      * apply Permutation_length, NoDup_Permutation.
        -- by apply bfs_linkage_NoDup.
        -- apply NoDup_seqZ.
        -- intros y. rewrite Hall, elem_of_seqZ. lia.
      * rewrite length_seqZ. lia.
Qed.

Lemma two_merges_wf : linkage_wf two_merges.
Proof.
  split.
  - intros [|[|i]] m Hm; simplify_eq/=; lia.
  - apply (bool_decide_unpack _). by vm_compute.
Qed.

Lemma bfs_completeness_witness :
  (∃ result,
     _bfs_from_cluster_tree 12 (cluster_tree_of three_levels) 7 = Ret result ∧
     NoDup result ∧
     (∀ y, y ∈ result ↔ reachable (cluster_tree_of three_levels) 7 y) ∧
     length result = length (nodes_of (cluster_tree_of three_levels))) ∧
  (∃ result,
     _bfs_from_linkage_tree 3 two_merges 4 = Ret result ∧
     NoDup result ∧
     (∀ y, y ∈ result ↔ rtc (merges_into two_merges) 4 y) ∧
     (∀ y, y ∈ result ↔ 0 ≤ y ≤ 4) ∧
     length result = 5%nat).
Proof.
  destruct bfs_completeness as [Hcluster Hlinkage]. split.
  - destruct (Hcluster id_rank (cluster_tree_of three_levels) 7 12%nat)
      as (result & Hret & Hnodup & Hreach & Hlen).
    + exact three_levels_ranked.
    + exact three_levels_one_parent.
    + rewrite three_levels_rank_bound. lia.
    + exists result. split_and!; [done..|]. apply Hlen.
      * exact three_levels_rooted.
      * rewrite three_levels_cluster_tree. apply (bool_decide_unpack _). by vm_compute.
  - apply (Hlinkage two_merges 3%nat).
    + exact two_merges_wf.
    + simpl. lia.
Defined.

(** * The specification vocabulary and the model *)

Lemma cluster_tree_edges raw : cluster_tree_of raw = cluster_edges raw.
Proof. done. Qed.

Lemma cluster_link_spec raw x y : cluster_link raw x y ↔ link (cluster_tree_of raw) x y.
Proof.
  unfold cluster_link, link, cluster_tree_of. split.
  - intros (r & Hr & Hsize & Hp & Hc). exists r. split; [|done].
    by apply list_elem_of_filter.
  - intros (r & [Hsize Hr]%list_elem_of_filter & Hp & Hc). by exists r.
Qed.

Lemma cluster_reachable_spec raw x y :
  rtc (cluster_link raw) x y ↔ reachable (cluster_tree_of raw) x y.
Proof.
  unfold reachable. split; apply rtc_subrel; intros ? ?; apply cluster_link_spec.
Qed.

Lemma cluster_below_spec raw x y :
  tc (cluster_link raw) x y ↔ strict_descendant (cluster_tree_of raw) x y.
Proof.
  unfold strict_descendant.
  split; (induction 1 as [x y Hxy|x w y Hxw _ IH];
    [apply tc_once|eapply tc_l; [|exact IH]]); by apply cluster_link_spec.
Qed.

Lemma cluster_rows_tree raw c :
  filter (λ r, parent r = c) (cluster_tree_of raw) = cluster_rows raw c.
Proof.
  unfold cluster_tree_of, cluster_rows. induction raw as [|r l IH]; [done|].
  rewrite !filter_cons. repeat case_decide; try rewrite filter_cons;
    repeat case_decide; try (f_equal; exact IH); try exact IH; tauto.
Qed.

Lemma cluster_children_spec raw n :
  children_of (cluster_tree_of raw) n = cluster_children raw n.
Proof. unfold children_of, cluster_children. by rewrite cluster_rows_tree. Qed.

Lemma cluster_children_link raw n c : c ∈ cluster_children raw n ↔ cluster_link raw n c.
Proof. by rewrite <-cluster_children_spec, children_of_spec, cluster_link_spec. Qed.

Lemma cluster_node_spec raw y :
  cluster_node raw y ↔ y ∈ nodes_of (cluster_tree_of raw).
Proof.
  unfold cluster_node, nodes_of. rewrite elem_of_remove_dups, elem_of_app.
  rewrite !list_elem_of_fmap. split.
  - intros (x & [(r & Hr & Hc)%cluster_link_spec|(r & Hr & Hp)%cluster_link_spec]).
    + right. exists r. by destruct Hc.
    + left. exists r. by destruct Hp.
  - intros [(r & -> & Hr)|(r & -> & Hr)].
    + exists (child r). right. apply cluster_link_spec. by exists r.
    + exists (parent r). left. apply cluster_link_spec. by exists r.
Qed.

(** * C6 *)

Lemma get_leaves_unfold recursion_limit condensed_tree root :
  np_min (parent <$> cluster_tree_of condensed_tree) = Ret root →
  _get_leaves recursion_limit condensed_tree =
    _recurse_leaf_dfs recursion_limit (cluster_tree_of condensed_tree) root.
Proof. unfold _get_leaves. by intros ->. Qed.

Lemma mapM_outcome {A B : Type} (f : A → outcome B) (e : exn) (l : list A) :
  (∀ a, (∃ b, f a = Ret b) ∨ f a = Raise e) →
  (∃ bs, mapM f l = Ret bs) ∨ mapM f l = Raise e.
Proof.
  intros Hf. induction l as [|a l IH]; [left; by eexists|].
  simpl. destruct (Hf a) as [[b ->]| ->]; [|by right]. simpl.
  destruct IH as [[bs ->]| ->]; [left; by eexists|by right].
Qed.

(** The leaf search returns, or it exceeds the recursion limit. *)
Lemma dfs_outcome recursion_limit ct x :
  (∃ l, _recurse_leaf_dfs recursion_limit ct x = Ret l) ∨
  _recurse_leaf_dfs recursion_limit ct x = Raise RecursionError.
Proof.
  revert x. induction recursion_limit as [|limit IH]; intros x; [by right|].
  simpl. case_decide; [left; by eexists|].
  destruct (mapM_outcome (_recurse_leaf_dfs limit ct) RecursionError (children_of ct x) IH)
    as [[ls ->]| ->]; [left; by eexists|by right].
Qed.


Lemma three_levels_links x y :
  cluster_link three_levels x y ↔
  (x, y) ∈ [(7, 8); (7, 9); (8, 10); (8, 11)].
Proof.
  rewrite cluster_link_spec, three_levels_cluster_tree. unfold link.
  rewrite !elem_of_cons, elem_of_nil. split.
  - intros (r & Hr & <- & <-).
    repeat (apply elem_of_cons in Hr as [->|Hr]); [by auto..|].
    by apply not_elem_of_nil in Hr.
  - intros [[= -> ->]|[[= -> ->]|[[= -> ->]|[[= -> ->]|[]]]]].
    + exists (Edge 7 8 1 4). split; [|done]. apply list_elem_of_here.
    + exists (Edge 7 9 1 3). split; [|done].
      do 1 apply list_elem_of_further. apply list_elem_of_here.
    + exists (Edge 8 10 2 2). split; [|done].
      do 2 apply list_elem_of_further. apply list_elem_of_here.
    + exists (Edge 8 11 2 2). split; [|done].
      do 3 apply list_elem_of_further. apply list_elem_of_here.
Qed.



(** * C9 *)

Lemma cluster_tree_empty condensed_tree :
  Forall (λ r, child_size r ≤ 1) condensed_tree → cluster_tree_of condensed_tree = [].
Proof.
  unfold cluster_tree_of. induction 1 as [|r l Hr _ IH]; [done|].
  rewrite filter_cons_False by lia. done.
Qed.

(** C9.  When no row of the condensed tree has [child_size > 1] the pruned
    cluster tree is empty, the minimum of its parent column does not exist,
    and [_get_leaves], hence [get_plot_data], which calls it first, raises
    [ValueError] instead of returning an empty list of leaves. *)
Theorem get_leaves_needs_cluster_edge (log_shrink : running_size → Z → running_size)
    (recursion_limit : nat) (_raw_tree : list edge)
    (leaf_separation : R) (log_size : bool) :
  Forall (λ r, child_size r ≤ 1) _raw_tree →
  cluster_tree_of _raw_tree = [] ∧
  np_min (parent <$> cluster_tree_of _raw_tree) = Raise ValueError ∧
  _get_leaves recursion_limit _raw_tree = Raise ValueError ∧
  get_plot_data log_shrink recursion_limit _raw_tree leaf_separation log_size
    = Raise ValueError.
Proof.
  intros Hempty%cluster_tree_empty.
  assert (_get_leaves recursion_limit _raw_tree = Raise ValueError) as Hleaves.
  { unfold _get_leaves. by rewrite Hempty. }
  split_and!; [done|by rewrite Hempty|done|].
  unfold get_plot_data, cluster_coords. by rewrite Hleaves.
Qed.

Lemma get_leaves_needs_cluster_edge_witness :
  cluster_tree_of single_cluster = [] ∧
  np_min (parent <$> cluster_tree_of single_cluster) = Raise ValueError ∧
  _get_leaves 10 single_cluster = Raise ValueError ∧
  get_plot_data exact_log_shrink 10 single_cluster 1 false = Raise ValueError.
Proof.
  apply (get_leaves_needs_cluster_edge exact_log_shrink 10 single_cluster 1 false).
  repeat constructor; simpl; lia.
Defined.

(** * C1 *)

Lemma for_each_visits {S} (body : S → Z → outcome S) (step : Z → S → S → Prop)
    (I : list Z → S → Prop) (xs : list Z) (st : S) :
  I [] st →
  (∀ done x st, done ++ [x] `prefix_of` xs → I done st →
     ∃ st', body st x = Ret st' ∧ step x st st' ∧ I (done ++ [x]) st') →
  ∃ st', for_each body st xs = Ret st' ∧ visits step xs st st' ∧ I xs st'.
Proof.
  intros Hinit Hstep.
  assert (∀ todo done st, done ++ todo = xs → I done st →
            ∃ st', for_each body st todo = Ret st' ∧ visits step todo st st' ∧ I xs st')
    as Hgen.
  { induction todo as [|x todo IH]; intros done st' Hxs Hdone; simpl.
    - rewrite app_nil_r in Hxs. subst. eexists. split_and!; [done|constructor|done].
    - destruct (Hstep done x st') as (st'' & -> & Hx & Hnext); [|done|].
      { exists todo. by rewrite <-(assoc_L (++)). }
      simpl. destruct (IH (done ++ [x]) st'') as (st3 & Hloop & Hvisits & Hend);
        [by rewrite <-(assoc_L (++))|done|].
      exists st3. split_and!; [done| |done]. by econstructor. }
  by apply (Hgen xs []).
Qed.

Lemma rank_bound_lt rank ct (n : nat) :
  (0 < n)%nat → (∀ r, r ∈ ct → (rank (child r) < n)%nat) → (rank_bound rank ct < n)%nat.
Proof.
  intros Hpos Hall. unfold rank_bound.
  induction ct as [|r ct IH]; simpl; [done|].
  apply Nat.max_lub_lt.
  - apply Hall. by left.
  - apply IH. intros r' Hr'. apply Hall. by right.
Qed.

Lemma sorted_after (done : list Z) n rest k :
  StronglySorted Z.gt ((done ++ [n]) ++ rest) → k ∈ rest → k < n.
Proof.
  rewrite <-(assoc_L (++)). intros Hsorted Hk.
  induction done as [|x done IH]; simpl in Hsorted.
  - apply StronglySorted_inv in Hsorted as [_ Hall].
    rewrite Forall_forall in Hall. specialize (Hall k Hk). lia.
  - apply StronglySorted_inv in Hsorted as [Hsorted _]. by apply IH.
Qed.

Lemma cluster_below_ordered raw n k :
  (∀ x y, cluster_link raw x y → x < y) → tc (cluster_link raw) n k → n < k.
Proof.
  intros Hord. induction 1 as [x y Hxy|x y z Hxy _ IH].
  - by apply Hord.
  - apply Hord in Hxy. lia.
Qed.

(** One node of the loop of [_select_clusters] follows the rule. *)
Lemma select_node_rule float_sum rank raw fuel st n :
  ranked rank (cluster_tree_of raw) →
  (rank_bound rank (cluster_tree_of raw) < fuel)%nat →
  (∀ c, c ∈ child <$> cluster_tree_of raw → is_Some (st.1 !! c)) →
  is_Some (st.1 !! n) →
  ∃ st', select_node float_sum fuel (cluster_tree_of raw) st n = Ret st' ∧
         rule_step float_sum raw n st st' ∧
         (∀ k, is_Some (st'.1 !! k) ↔ is_Some (st.1 !! k)).
Proof.
  intros Hrk Hfuel Hkeys [own Hown]. destruct st as [stability is_cluster]. simpl in *.
  destruct (subtree_stability_defined float_sum (cluster_tree_of raw) stability n Hkeys)
    as (vs & Hvs & _).
  destruct (decide (float_sum vs > own)%R) as [Hgt|Hle].
  - eexists. split; [by eapply select_node_unselect|]. split.
    + exists vs, own. simpl. rewrite <-cluster_children_spec. by split_and!.
    + simpl. intros k. destruct (decide (n = k)) as [->|Hne].
      * rewrite lookup_insert_eq. split; by eauto.
      * by rewrite lookup_insert_ne.
  - destruct (unmark_bfs_lookup rank (cluster_tree_of raw) fuel n is_cluster Hrk Hfuel)
      as (sub_nodes & Hbfs & Hdesc & Hother).
    eexists. split; [by eapply select_node_keep|]. split; [|done].
    exists vs, own. simpl. rewrite <-cluster_children_spec. split_and!; [done..|].
    intros _. split_and!; [done| |].
    + intros d Hd%cluster_below_spec. by apply Hdesc.
    + intros k Hk. apply Hother. by rewrite <-cluster_below_spec.
Qed.

(** * C2 *)

(** C2 (antichain).  Let the pruned cluster tree be ranked (acyclic), let
    [stability] have an entry for every cluster child, and let no entry of
    it lie below the root, the least parent id of the condensed tree.  Then
    [_select_clusters] returns, with enough fuel, a list without repetition
    in which no node is a strict descendant of another, and which does not
    contain the root. *)
Theorem select_clusters_antichain (float_sum : list R → R) (rank : Z → nat)
    (_raw_tree : list edge)
    (stability : gmap Z R) (root : Z) (fuel : nat) :
  ranked rank (cluster_tree_of _raw_tree) →
  (∀ c, c ∈ child <$> cluster_tree_of _raw_tree → is_Some (stability !! c)) →
  np_min (parent <$> _raw_tree) = Ret root →
  (∀ k, is_Some (stability !! k) → root ≤ k) →
  (rank_bound rank (cluster_tree_of _raw_tree) < fuel)%nat →
  ∃ chosen,
    _select_clusters float_sum fuel _raw_tree stability = Ret chosen ∧
    NoDup chosen ∧
    (∀ a b, a ∈ chosen → b ∈ chosen →
            ¬ strict_descendant (cluster_tree_of _raw_tree) a b) ∧
    root ∉ chosen.
Proof.
  intros Hrk Hkeys _ Hleast Hfuel.
  destruct (select_loop float_sum rank _ stability fuel Hrk Hfuel Hkeys)
    as ([st is_cluster] & Hloop & Hsel & Hanti). simpl in *.
  exists (selected (node_list_of stability) is_cluster). split_and!.
  - rewrite select_clusters_unfold, Hloop. done.
  - apply selected_NoDup, node_list_NoDup.
  - intros a b [_ Ha]%selected_spec [_ Hb]%selected_spec Hab.
    by eapply (Hanti a (Hsel a Ha) Ha b).
  - intros [Hin%node_list_spec _]%selected_spec.
    destruct Hin as [_ (m & Hm%Hleast & Hlt)]. lia.
Qed.

Lemma three_levels_stability_keys k :
  is_Some (three_levels_stability !! k) ↔ k ∈ nodes_of (cluster_tree_of three_levels).
Proof.
  rewrite <-elem_of_keys.
  assert (nodes_of (cluster_tree_of three_levels) ≡ₚ (map_to_list three_levels_stability).*1)
    as ->; [|done].
  rewrite three_levels_cluster_tree.
  apply (bool_decide_unpack _). by vm_compute.
Qed.

Lemma three_levels_least k : k ∈ nodes_of (cluster_tree_of three_levels) → 7 ≤ k.
Proof.
  revert k. apply Forall_forall. rewrite three_levels_cluster_tree.
  apply (bool_decide_unpack _). by vm_compute.
Qed.

Lemma three_levels_children_8 : children_of (cluster_tree_of three_levels) 8 = [10; 11].
Proof. by vm_compute. Qed.

(** On [three_levels] the clusters 10 and 11 together outweigh their parent
    8, which 9 does not have to compete with. *)
Lemma three_levels_selected float_sum :
  float_sum [] = 0%R → float_sum [1.5; 0.5]%R = 2%R →
  _select_clusters float_sum 12 three_levels three_levels_stability = Ret [11; 10; 9].
Proof.
  intros Hnil Hsum. rewrite select_clusters_unfold.
  assert (node_list_of three_levels_stability = [11; 10; 9; 8]) as -> by by vm_compute.
  cbn [for_each].
  rewrite (select_node_leaf float_sum 11 _ _ _ 11 0.5%R);
    [|done|by vm_compute|by vm_compute|lra].
  cbn [mbind outcome_bind].
  rewrite (select_node_leaf float_sum 11 _ _ _ 10 1.5%R);
    [|done|by vm_compute|by vm_compute|lra].
  cbn [mbind outcome_bind].
  rewrite (select_node_leaf float_sum 11 _ _ _ 9 3%R);
    [|done|by vm_compute|by vm_compute|lra].
  cbn [mbind outcome_bind].
  rewrite (select_node_unselect float_sum 12 _ _ _ 8 [1.5; 0.5]%R 1%R).
  - cbn [mbind outcome_bind]. by vm_compute.
  - rewrite three_levels_children_8. repeat constructor; by vm_compute.
  - by vm_compute.
  - rewrite Hsum. lra.
Qed.

(** With a stability of 5 the cluster 8 outweighs 10 and 11 and absorbs them. *)
Lemma three_levels_absorbed float_sum :
  float_sum [] = 0%R → float_sum [1.5; 0.5]%R = 2%R →
  _select_clusters float_sum 12 three_levels (<[8 := 5%R]> three_levels_stability)
    = Ret [9; 8].
Proof.
  intros Hnil Hsum. rewrite select_clusters_unfold.
  assert (node_list_of (<[8 := 5%R]> three_levels_stability) = [11; 10; 9; 8]) as ->
    by by vm_compute.
  cbn [for_each].
  rewrite (select_node_leaf float_sum 11 _ _ _ 11 0.5%R);
    [|done|by vm_compute|by vm_compute|lra].
  cbn [mbind outcome_bind].
  rewrite (select_node_leaf float_sum 11 _ _ _ 10 1.5%R);
    [|done|by vm_compute|by vm_compute|lra].
  cbn [mbind outcome_bind].
  rewrite (select_node_leaf float_sum 11 _ _ _ 9 3%R);
    [|done|by vm_compute|by vm_compute|lra].
  cbn [mbind outcome_bind].
  rewrite (select_node_keep float_sum 12 _ _ _ 8 [1.5; 0.5]%R 5%R [8; 10; 11]).
  - cbn [mbind outcome_bind]. by vm_compute.
  - rewrite three_levels_children_8. repeat constructor; by vm_compute.
  - by vm_compute.
  - rewrite Hsum. lra.
  - by vm_compute.
Qed.

(** C1 (the excess-of-mass rule).  Let [stability] be the dictionary of
    [compute_stability]: one entry per cluster, the root, which is the least
    of them, included; let the cluster edges be acyclic.
    [_select_clusters] then returns, given enough fuel for its searches.
    It visits the clusters other than the root in descending order, all of
    them marked selected at the start.  At a cluster [n] whose direct
    cluster children have the stabilities [vs]: if their sum, as numpy
    computes it, exceeds [stability[n]], [n] is marked not selected and
    [stability[n]] becomes that sum; otherwise the mark of [n] is left as it
    is and every cluster strictly below [n] is marked not selected.  When
    ids grow from parent to child, a cluster is still marked selected when
    its turn comes.  The result holds the visited clusters whose mark is
    still set at the end.  On the tree with root 5 and leaves 6 and 7, with
    stability 1.2 for 6 and 0.5 for 7, these are 7 and 6; on [three_levels]
    they are 11, 10 and 9 when the cluster 8 has stability 1, less than the
    sum 2 of its children's, and 9 and 8 when it has stability 5. *)
Theorem select_clusters_rule (float_sum : list R → R) (rank : Z → nat)
    (_raw_tree : list edge) (stability : gmap Z R) (root : Z) (fuel : nat) :
  (∀ k, is_Some (stability !! k) ↔ cluster_node _raw_tree k) →
  cluster_node _raw_tree root →
  (∀ k, cluster_node _raw_tree k → root ≤ k) →
  (∀ x y, cluster_link _raw_tree x y → (rank x < rank y < fuel)%nat) →
  (∃ nodes marks final,
     StronglySorted Z.gt nodes ∧
     (∀ n, n ∈ nodes ↔ cluster_node _raw_tree n ∧ n ≠ root) ∧
     (∀ n, marks !! n = if decide (n ∈ nodes) then Some true else None) ∧
     visits (λ n st st',
               rule_step float_sum _raw_tree n st st' ∧
               ((∀ x y, cluster_link _raw_tree x y → x < y) → st.2 !! n = Some true))
            nodes (stability, marks) final ∧
     _select_clusters float_sum fuel _raw_tree stability =
       Ret (filter (λ n, final.2 !! n = Some true) nodes)) ∧
  (float_sum [] = 0%R →
   ∀ (root_stability : R) (fuel' : nat),
     _select_clusters float_sum (S fuel') two_leaves (two_leaves_stability root_stability)
       = Ret [7; 6]) ∧
  (float_sum [] = 0%R → float_sum [1.5; 0.5]%R = 2%R →
   _select_clusters float_sum 12 three_levels three_levels_stability = Ret [11; 10; 9] ∧
   _select_clusters float_sum 12 three_levels (<[8 := 5%R]> three_levels_stability)
     = Ret [9; 8]).
Proof.
  intros Hkeys Hroot Hleast Hrank. set (ct := cluster_tree_of _raw_tree).
  assert (ranked rank ct) as Hrk.
  { intros r Hr. apply (Hrank (parent r) (child r)), cluster_link_spec. by exists r. }
  assert (rank_bound rank ct < fuel)%nat as Hfuel.
  { apply rank_bound_lt.
    - destruct Hroot as [x [Hx|Hx]]; apply Hrank in Hx; lia.
    - intros r Hr. apply (Hrank (parent r) (child r)), cluster_link_spec. by exists r. }
  split_and!; [|intros; by apply two_leaves_selected|
               intros; split; [by apply three_levels_selected|by apply three_levels_absorbed]].
  set (nodes := node_list_of stability).
  assert (∀ n, n ∈ nodes ↔ cluster_node _raw_tree n ∧ n ≠ root) as Hnodes.
  { intros n. unfold nodes. rewrite node_list_spec. split.
    - intros [Hn (m & Hm & Hlt)]. split; [by apply Hkeys|].
      apply Hkeys, Hleast in Hm. lia.
    - intros [Hn Hne]. split; [by apply Hkeys|]. exists root.
      split; [by apply Hkeys|]. specialize (Hleast n Hn). lia. }
  destruct (for_each_visits (select_node float_sum fuel ct)
    (λ n st st',
       rule_step float_sum _raw_tree n st st' ∧
       ((∀ x y, cluster_link _raw_tree x y → x < y) → st.2 !! n = Some true))
    (λ done st,
       (∀ k, is_Some (st.1 !! k) ↔ is_Some (stability !! k)) ∧
       ((∀ x y, cluster_link _raw_tree x y → x < y) →
        ∀ k, k ∈ nodes → k ∉ done → st.2 !! k = Some true))
    nodes (stability, all_selected nodes)) as (final & Hloop & Hvisits & _).
  - split; [done|]. simpl. intros _ k Hk _. rewrite all_selected_lookup.
    by rewrite decide_True.
  - intros done n st [rest Hrest] [Hdom Hmarks].
    assert (n ∈ nodes) as Hn.
    { rewrite Hrest, !elem_of_app, list_elem_of_singleton. auto. }
    assert (n ∉ done) as Hfresh.
    { pose proof (node_list_NoDup stability) as Hnd. fold nodes in Hnd.
      rewrite Hrest in Hnd. apply NoDup_app in Hnd as [Hnd _].
      apply NoDup_app in Hnd as (_ & Hnd & _). intros Hin. apply (Hnd n Hin). by left. }
    destruct (select_node_rule float_sum rank _raw_tree fuel st n Hrk Hfuel)
      as (st' & Hsel & Hstep & Hdom').
    { intros c (r & -> & Hr)%list_elem_of_fmap. apply Hdom, Hkeys.
      exists (parent r). left. apply cluster_link_spec. by exists r. }
    { apply Hdom, Hkeys. by apply Hnodes in Hn as [? _]. }
    exists st'. split_and!; [done|done|by auto| |].
    { intros k. by rewrite Hdom'. }
    intros Hord k Hk Hk'. rewrite elem_of_app, list_elem_of_singleton in Hk'.
    assert (k < n) as Hlt.
    { apply (sorted_after done n rest).
      - rewrite <-Hrest. apply node_list_sorted.
      - rewrite Hrest, !elem_of_app, list_elem_of_singleton in Hk. tauto. }
    destruct Hstep as (vs & own & _ & _ & Hgt & Hle).
    destruct (decide (float_sum vs > own)%R) as [Hcase|Hcase].
    + rewrite (Hgt Hcase). simpl. rewrite lookup_insert_ne by lia.
      apply Hmarks; [done..|tauto].
    + destruct (Hle Hcase) as (_ & _ & Hother). rewrite Hother.
      * apply Hmarks; [done..|tauto].
      * intros Hbelow%(cluster_below_ordered _ _ _ Hord). lia.
  - exists nodes, (all_selected nodes), final. split_and!.
    + apply node_list_sorted.
    + done.
    + apply all_selected_lookup.
    + done.
    + rewrite select_clusters_unfold. fold ct nodes. by rewrite Hloop.
Qed.

Lemma three_levels_cluster_nodes k :
  cluster_node three_levels k ↔ k ∈ [7; 8; 9; 10; 11].
Proof.
  rewrite cluster_node_spec.
  assert (nodes_of (cluster_tree_of three_levels) ≡ₚ [7; 8; 9; 10; 11]) as ->; [|done].
  apply (bool_decide_unpack _). by vm_compute.
Qed.

Lemma select_clusters_rule_witness :
  _select_clusters np_sum 12 three_levels three_levels_stability = Ret [11; 10; 9] ∧
  ∃ nodes marks final,
    StronglySorted Z.gt nodes ∧
    (∀ n, n ∈ nodes ↔ cluster_node three_levels n ∧ n ≠ 7) ∧
    (∀ n, marks !! n = if decide (n ∈ nodes) then Some true else None) ∧
    visits (λ n st st',
              rule_step np_sum three_levels n st st' ∧
              ((∀ x y, cluster_link three_levels x y → x < y) → st.2 !! n = Some true))
           nodes (three_levels_stability, marks) final ∧
    _select_clusters np_sum 12 three_levels three_levels_stability =
      Ret (filter (λ n, final.2 !! n = Some true) nodes).
Proof.
  destruct (select_clusters_rule np_sum id_rank three_levels three_levels_stability 7 12)
    as (Hrule & _ & Hexample).
  - intros k. rewrite three_levels_stability_keys. symmetry. apply cluster_node_spec.
  - apply three_levels_cluster_nodes. set_solver.
  - intros k Hk%cluster_node_spec. by apply three_levels_least.
  - intros x y Hxy%three_levels_links.
    repeat (apply elem_of_cons in Hxy as [[= -> ->]|Hxy]);
      [by vm_compute; lia..|by apply not_elem_of_nil in Hxy].
  - split; [|exact Hrule]. apply Hexample; [done|]. unfold np_sum. simpl. lra.
Defined.

Lemma select_clusters_antichain_witness :
  ∃ chosen,
    _select_clusters np_sum 12 three_levels three_levels_stability = Ret chosen ∧
    NoDup chosen ∧
    (∀ a b, a ∈ chosen → b ∈ chosen →
            ¬ strict_descendant (cluster_tree_of three_levels) a b) ∧
    7 ∉ chosen.
Proof.
  apply (select_clusters_antichain np_sum id_rank).
  - exact three_levels_ranked.
  - apply Forall_forall. rewrite three_levels_cluster_tree.
    apply (bool_decide_unpack _). by vm_compute.
  - by vm_compute.
  - intros k Hk. by apply three_levels_least, three_levels_stability_keys.
  - rewrite three_levels_rank_bound. lia.
Defined.

(** * C7 *)

Lemma for_each_unit_cases {A} (body : () → A → outcome ()) (xs : list A) :
  (∀ x, body () x = Ret () ∨ ∃ e, body () x = Raise e) →
  for_each body () xs = Ret () ∨ ∃ e, for_each body () xs = Raise e.
Proof.
  intros Hbody. induction xs as [|x xs IH]; simpl; [by left|].
  destruct (Hbody x) as [->|[e ->]]; simpl; eauto.
Qed.

Lemma line_coords_cases projection mst :
  MinimumSpanningTree.line_coords projection mst = Ret () ∨
  ∃ e, MinimumSpanningTree.line_coords projection mst = Raise e.
Proof.
  apply for_each_unit_cases. intros x. case_decide; eauto.
Qed.

Lemma effect_bind_ret {A B} (a : A) (f : A → effect B) : mret a ≫= f = f a.
Proof. unfold mbind, effect_bind. simpl. by destruct (f a) as [t []]. Qed.

Ltac no_warn :=
  let Hw := fresh "Hw" in
  intros Hw;
  repeat (first [apply elem_of_app in Hw as [Hw|Hw]
                |apply elem_of_cons in Hw as [Hw|Hw]]);
  first [done|by apply elem_of_nil in Hw].

Lemma trace_bind {A B} (m : effect A) (f : A → effect B) e :
  e ∈ trace (m ≫= f) → e ∈ trace m ∨ ∃ a, value m = Ret a ∧ e ∈ trace (f a).
Proof.
  unfold mbind, effect_bind. destruct (value m) as [a| |] eqn:Hm; simpl; [|by left..].
  intros [?|?]%elem_of_app; [by left|right; by exists a].
Qed.

Lemma value_bind {A B} (m : effect A) (f : A → effect B) b :
  value (m ≫= f) = Ret b → ∃ a, value m = Ret a ∧ value (f a) = Ret b.
Proof.
  unfold mbind, effect_bind. destruct (value m) as [a| |] eqn:Hm; simpl; [|done..].
  intros Hb. by exists a.
Qed.

Lemma axis_or_gca_trace axis e : e ∈ trace (axis_or_gca axis) → e = Call "plt.gca".
Proof. destruct axis; cbn; [by intros ?%elem_of_nil|]. by intros ->%list_elem_of_singleton. Qed.

(** The projection warns of nothing. *)
Lemma project_trace sklearn data e :
  e ∈ trace (MinimumSpanningTree.project sklearn data) → ∃ callee, e = Call callee.
Proof.
  unfold MinimumSpanningTree.project. intros He.
  repeat case_decide;
    repeat (apply trace_bind in He as [He|(? & _ & He)]);
    cbn in He;
    first [by apply elem_of_nil in He
          |apply list_elem_of_singleton in He; by eexists].
Qed.

(** C7 (the size guard of the MST plot).  With matplotlib importable,
    [MinimumSpanningTree.plot] on more than 32767 points issues the warning,
    calls no collaborator (in particular no projection) and returns [None]
    without raising; on 32767 points or fewer the warning is not issued and
    the method does not return [None]. *)
Theorem mst_plot_size_guard (env : environment) (sklearn : projector)
    (self : MinimumSpanningTree.t) (axis : option axes)
    (vary_linewidth colorbar : bool) :
  has_pyplot env = true → has_collections env = true →
  (32767 < shape0 (MinimumSpanningTree._data self) →
   MinimumSpanningTree.plot env sklearn self axis vary_linewidth colorbar =
     Effect [Warn MinimumSpanningTree.too_many_points] (Ret None)) ∧
  (shape0 (MinimumSpanningTree._data self) ≤ 32767 →
   (Warn MinimumSpanningTree.too_many_points ∉
      trace (MinimumSpanningTree.plot env sklearn self axis vary_linewidth colorbar)) ∧
   (value (MinimumSpanningTree.plot env sklearn self axis vary_linewidth colorbar)
      ≠ Ret None)).
Proof.
  intros Hplt Hcoll. unfold MinimumSpanningTree.plot. rewrite Hplt, Hcoll.
  cbn [andb import_or_raise]. rewrite effect_bind_ret.
  split; intros Hn.
  - by rewrite decide_True by done.
  - rewrite decide_False by lia. split.
    + intros Hw.
      apply trace_bind in Hw as [Hw%axis_or_gca_trace|(? & _ & Hw)]; [done|].
      apply trace_bind in Hw as [[? Hw]%project_trace|(? & _ & Hw)]; [done|].
      repeat (apply trace_bind in Hw as [Hw|(? & _ & Hw)]);
        try destruct colorbar; cbn in Hw;
        first [by apply elem_of_nil in Hw|by apply list_elem_of_singleton in Hw].
    + intros Hv. repeat (apply value_bind in Hv as (? & _ & Hv)). done.
Qed.

Lemma mst_plot_size_guard_witness :
  MinimumSpanningTree.plot with_matplotlib no_projection large_mst None true true =
    Effect [Warn MinimumSpanningTree.too_many_points] (Ret None).
Proof.
  apply (mst_plot_size_guard with_matplotlib no_projection large_mst None true true);
    [reflexivity|reflexivity|simpl; lia].
Defined.

(** Without matplotlib the import fails before the size guard is reached. *)
Lemma mst_plot_needs_matplotlib env sklearn self axis vary_linewidth colorbar :
  has_pyplot env && has_collections env = false →
  MinimumSpanningTree.plot env sklearn self axis vary_linewidth colorbar =
    Effect [] (Raise ImportError).
Proof. intros H. unfold MinimumSpanningTree.plot. by rewrite H. Qed.

(** * The layout loop *)

Lemma bind_Ret_inv {A B} (m : outcome A) (f : A → outcome B) b :
  m ≫= f = Ret b → ∃ a, m = Ret a ∧ f a = Ret b.
Proof. destruct m as [a| |]; [|done..]. eauto. Qed.

Lemma bind_not_timeout {A B} (m : outcome A) (f : A → outcome B) :
  m ≠ OutOfFuel → (∀ a, f a ≠ OutOfFuel) → m ≫= f ≠ OutOfFuel.
Proof. destruct m as [a| |]; [|done..]. intros _ Hf. apply Hf. Qed.

Lemma for_each_not_timeout {S A} (body : S → A → outcome S) st xs :
  (∀ st x, body st x ≠ OutOfFuel) → for_each body st xs ≠ OutOfFuel.
Proof.
  intros Hbody. revert st. induction xs as [|x xs IH]; intros st; [done|].
  simpl. by apply bind_not_timeout.
Qed.

Lemma for_each_fails {S A} (body : S → A → outcome S) x xs :
  x ∈ xs → (∀ st st', body st x ≠ Ret st') →
  ∀ st st', for_each body st xs ≠ Ret st'.
Proof.
  intros Hx Hbody. induction xs as [|y xs IH]; intros st st'.
  { by apply not_elem_of_nil in Hx. }
  simpl. intros (st'' & Hy & Hrest)%bind_Ret_inv.
  apply elem_of_cons in Hx as [->|Hx]; [by eapply Hbody|by eapply IH].
Qed.

Lemma getitem_not_timeout {V} (d : gmap Z V) k : getitem d k ≠ OutOfFuel.
Proof. unfold getitem. by destruct (d !! k). Qed.

Lemma np_max_spec l m :
  np_max l = Ret m ↔ m ∈ l ∧ ∀ x, x ∈ l → x ≤ m.
Proof.
  destruct l as [|a l]; simpl.
  { split; [done|]. by intros [?%not_elem_of_nil _]. }
  assert (∀ l a, foldl Z.max a l ∈ a :: l ∧ ∀ x, x ∈ a :: l → x ≤ foldl Z.max a l) as H.
  { clear. induction l as [|b l IH]; intros a; simpl.
    - split; [by left|]. intros x ->%list_elem_of_singleton. lia.
    - destruct (IH (a `max` b)) as [Hin Hle]. split.
      + apply elem_of_cons in Hin as [->|?]; [|by do 2 right].
        destruct (Z.max_spec a b) as [[_ ->]|[_ ->]]; [right; by left|by left].
      + intros x Hx. assert (x ≤ a `max` b ∨ x ∈ l) as [?|?].
        { apply elem_of_cons in Hx as [->|[->|?]%elem_of_cons]; [left; lia|left; lia|by right]. }
        * etrans; [done|]. apply Hle. by left.
        * apply Hle. by right. }
  destruct (H l a) as [Hin Hle]. split.
  - by intros [= <-].
  - intros [Hm Hmle]. f_equal. specialize (Hle m Hm). specialize (Hmle _ Hin). lia.
Qed.

(** Every parent id lies in the range the two loops of [get_plot_data] walk. *)
Lemma parent_in_range _raw_tree last_leaf root c :
  np_max (parent <$> _raw_tree) = Ret last_leaf →
  np_min (parent <$> _raw_tree) = Ret root →
  c ∈ parent <$> _raw_tree → c ∈ range_down last_leaf (root - 1).
Proof.
  intros [_ Hmax]%np_max_spec [_ Hmin]%np_min_spec Hc.
  unfold range_down. rewrite elem_of_reverse, elem_of_seqZ.
  specialize (Hmax c Hc). specialize (Hmin c Hc). lia.
Qed.

Lemma split_of_parent _raw_tree c :
  split_of _raw_tree c ≠ [] → c ∈ parent <$> _raw_tree.
Proof.
  intros Hne. destruct (split_of _raw_tree c) as [|r l] eqn:Hsplit; [done|].
  assert (r ∈ split_of _raw_tree c) as [[<- _] Hr]%list_elem_of_filter
    by (rewrite Hsplit; by left).
  apply list_elem_of_fmap. eauto.
Qed.

Lemma split_of_cluster_tree _raw_tree c :
  filter (λ r, parent r = c) (cluster_tree_of _raw_tree) = split_of _raw_tree c.
Proof.
  unfold cluster_tree_of, split_of. induction _raw_tree as [|r l IH]; [done|].
  rewrite !filter_cons. repeat case_decide; try rewrite filter_cons;
    repeat case_decide; try (f_equal; exact IH); try exact IH; tauto.
Qed.

Lemma np_mean_pair a b : np_mean [a; b] = ((a + b) / 2)%R.
Proof. unfold np_mean, np_sum. simpl. lra. Qed.

Lemma place_cluster_two _raw_tree cluster_x_coords cluster_y_coords cluster
    left_row right_row x_left x_right :
  split_of _raw_tree cluster = [left_row; right_row] →
  cluster_x_coords !! child left_row = Some x_left →
  cluster_x_coords !! child right_row = Some x_right →
  place_cluster _raw_tree (cluster_x_coords, cluster_y_coords) cluster =
    Ret (<[cluster := ((x_left + x_right) / 2)%R]> cluster_x_coords,
         <[child right_row := lambda_val right_row]>
           (<[child left_row := lambda_val left_row]> cluster_y_coords)).
Proof.
  intros Hsplit Hl Hr. unfold place_cluster. rewrite Hsplit. simpl.
  rewrite (getitem_Some _ _ _ Hl), (getitem_Some _ _ _ Hr). simpl.
  by rewrite np_mean_pair.
Qed.

Lemma place_cluster_few _raw_tree coords cluster :
  (length (split_of _raw_tree cluster) < 2)%nat →
  place_cluster _raw_tree coords cluster = Ret coords.
Proof.
  intros Hlen. unfold place_cluster. destruct coords as [x y].
  by rewrite decide_False by lia.
Qed.

Lemma place_cluster_many _raw_tree coords cluster :
  (2 < length (split_of _raw_tree cluster))%nat →
  place_cluster _raw_tree coords cluster = Raise ValueError.
Proof.
  intros Hlen. unfold place_cluster. destruct coords as [x y].
  rewrite decide_True by lia.
  destruct (split_of _raw_tree cluster) as [|r1 [|r2 [|r3 l]]]; simpl in *; (done || lia).
Qed.

Lemma place_cluster_not_timeout _raw_tree coords cluster :
  place_cluster _raw_tree coords cluster ≠ OutOfFuel.
Proof.
  unfold place_cluster. destruct coords as [x y]. case_decide; [|done].
  destruct (split_of _raw_tree cluster) as [|r1 [|r2 [|r3 l]]]; [done..| |done].
  unfold getitem. by repeat (destruct (_ !! _); simpl).
Qed.

(** [place_cluster] gives an x coordinate to binary splits only. *)
Lemma place_cluster_x_keys _raw_tree x y cluster x' y' k :
  place_cluster _raw_tree (x, y) cluster = Ret (x', y') →
  is_Some (x' !! k) →
  is_Some (x !! k) ∨ length (split_of _raw_tree k) = 2%nat.
Proof.
  unfold place_cluster. case_decide as Hlen; [|intros [= <- <-]; by left].
  destruct (split_of _raw_tree cluster) as [|r1 [|r2 [|r3 l]]] eqn:Hsplit; [done..| |done].
  intros (xl & _ & (xr & _ & [= <- <-])%bind_Ret_inv)%bind_Ret_inv.
  destruct (decide (cluster = k)) as [->|Hne]; [right; by rewrite Hsplit|].
  rewrite lookup_insert_ne by done. by left.
Qed.

Lemma layout_x_keys _raw_tree clusters x y x' y' k :
  for_each (place_cluster _raw_tree) (x, y) clusters = Ret (x', y') →
  is_Some (x' !! k) →
  is_Some (x !! k) ∨ length (split_of _raw_tree k) = 2%nat.
Proof.
  revert x y. induction clusters as [|c l IH]; intros x y; simpl.
  { intros [= <- <-]. by left. }
  intros ([x1 y1] & Hc & Hl)%bind_Ret_inv Hk.
  destruct (IH _ _ Hl Hk) as [Hk1|?]; [|by right].
  by eapply place_cluster_x_keys.
Qed.

Lemma py_dict_lookup {V} (pairs : list (Z * V)) k :
  is_Some (py_dict pairs !! k) → k ∈ pairs.*1.
Proof.
  induction pairs as [|[k' v] l IH] using rev_ind.
  { unfold py_dict. simpl. rewrite lookup_empty. by intros [? ?]. }
  rewrite py_dict_snoc, fmap_app, elem_of_app. simpl.
  destruct (decide (k' = k)) as [->|Hne].
  - intros _. right. by left.
  - rewrite lookup_insert_ne by done. auto.
Qed.

Lemma elem_of_concat {A} (x : A) (ls : list (list A)) :
  x ∈ concat ls ↔ ∃ l, x ∈ l ∧ l ∈ ls.
Proof.
  induction ls as [|l ls IH]; simpl.
  - split; [by intros ?%not_elem_of_nil|]. by intros (? & _ & ?%not_elem_of_nil).
  - rewrite elem_of_app, IH. split.
    + intros [?|(l' & ? & ?)]; [exists l; split; [done|by left]|].
      exists l'. split; [done|by right].
    + intros (l' & ? & [->|?]%elem_of_cons); [by left|right; eauto].
Qed.

Lemma dfs_leaves_childless ct fuel x leaves y :
  _recurse_leaf_dfs fuel ct x = Ret leaves → y ∈ leaves → children_of ct y = [].
Proof.
  revert x leaves. induction fuel as [|fuel IH]; intros x leaves; [done|].
  simpl. case_decide as Hlen.
  - intros [= <-] ->%list_elem_of_singleton. by apply nil_length_inv.
  - intros (ls & Hls%mapM_outcome_inv & [= <-])%bind_Ret_inv Hy.
    apply elem_of_concat in Hy as (l & Hy & Hl).
    apply list_elem_of_lookup in Hl as [i Hi].
    destruct (Forall2_lookup_r _ _ _ _ _ Hls Hi) as (c & _ & Hc). by eapply IH.
Qed.

(** * The parts of [get_plot_data] *)

Lemma cluster_coords_inv recursion_limit _raw_tree leaf_separation x y :
  cluster_coords recursion_limit _raw_tree leaf_separation = Ret (x, y) →
  ∃ leaves last_leaf root,
    _get_leaves recursion_limit _raw_tree = Ret leaves ∧
    np_max (parent <$> _raw_tree) = Ret last_leaf ∧
    np_min (parent <$> _raw_tree) = Ret root ∧
    for_each (place_cluster _raw_tree)
      (py_dict (zip leaves ((λ i, leaf_separation * IZR i)%R
                              <$> seqZ 0 (Z.of_nat (length leaves)))),
       {[ root := 0%R ]})
      (range_down last_leaf (root - 1)) = Ret (x, y).
Proof.
  unfold cluster_coords.
  intros (leaves & Hleaves & (last_leaf & Hmax & (root & Hmin & Hloop)%bind_Ret_inv)
            %bind_Ret_inv)%bind_Ret_inv.
  eauto 10.
Qed.

Lemma get_plot_data_inv {log_shrink} recursion_limit _raw_tree leaf_separation log_size pd :
  get_plot_data log_shrink recursion_limit _raw_tree leaf_separation log_size = Ret pd →
  ∃ x y last_leaf root scaling st,
    cluster_coords recursion_limit _raw_tree leaf_separation = Ret (x, y) ∧
    np_max (parent <$> _raw_tree) = Ret last_leaf ∧
    np_min (parent <$> _raw_tree) = Ret root ∧
    for_each (cluster_bars log_shrink _raw_tree log_size scaling x y) (Bars [] [] [] [], ∅)
      (range_down last_leaf (root - 1)) = Ret st.
Proof.
  unfold get_plot_data.
  intros ([x y] & Hcoords & (last_leaf & Hmax & (root & Hmin & Hrest)%bind_Ret_inv)
            %bind_Ret_inv)%bind_Ret_inv.
  apply bind_Ret_inv in Hrest as (st & Hbars & _).
  eauto 12.
Qed.

Lemma np_min_not_timeout l : np_min l ≠ OutOfFuel.
Proof. by destruct l. Qed.

Lemma np_max_not_timeout l : np_max l ≠ OutOfFuel.
Proof. by destruct l. Qed.

Lemma np_max_float_not_timeout l : np_max_float l ≠ OutOfFuel.
Proof. by destruct l. Qed.

Lemma cluster_bars_not_timeout {log_shrink} _raw_tree log_size scaling x y st c :
  cluster_bars log_shrink _raw_tree log_size scaling x y st c ≠ OutOfFuel.
Proof.
  unfold cluster_bars. destruct st as [b bounds].
  apply bind_not_timeout; [apply getitem_not_timeout|intros current_lambda].
  apply bind_not_timeout; [apply getitem_not_timeout|intros xc].
  apply bind_not_timeout; [apply np_max_float_not_timeout|intros top].
  apply bind_not_timeout; [|by intros [[??]?]].
  apply for_each_not_timeout. intros st i. by destruct (_ !! i).
Qed.

Lemma split_line_not_timeout log_size scaling x y st row :
  split_line log_size scaling x y st row ≠ OutOfFuel.
Proof.
  unfold split_line. destruct st as [xs ys].
  repeat (apply bind_not_timeout; [apply getitem_not_timeout|intros ?]). done.
Qed.

Lemma get_plot_data_not_timeout {log_shrink} recursion_limit _raw_tree leaf_separation log_size leaves :
  _get_leaves recursion_limit _raw_tree = Ret leaves →
  get_plot_data log_shrink recursion_limit _raw_tree leaf_separation log_size ≠ OutOfFuel.
Proof.
  intros Hleaves. unfold get_plot_data, cluster_coords. rewrite Hleaves. simpl.
  apply bind_not_timeout.
  { apply bind_not_timeout; [apply np_max_not_timeout|intros ?].
    apply bind_not_timeout; [apply np_min_not_timeout|intros ?].
    apply for_each_not_timeout. intros. apply place_cluster_not_timeout. }
  intros [x y].
  apply bind_not_timeout; [apply np_max_not_timeout|intros ?].
  apply bind_not_timeout; [apply np_min_not_timeout|intros ?].
  apply bind_not_timeout.
  { apply for_each_not_timeout. intros. apply cluster_bars_not_timeout. }
  intros [b bounds]. apply bind_not_timeout; [|by intros [??]].
  apply for_each_not_timeout. intros. apply split_line_not_timeout.
Qed.

(** * C10 *)

(** C10.  A cluster node with three or more cluster children cannot be
    placed: [place_cluster] raises [ValueError] at it (the two-element
    unpacking of its split rows), so [get_plot_data] never returns a layout
    for such a tree, and raises as soon as the leaves can be enumerated.  On
    [three_way] the exception is that [ValueError]. *)
Theorem get_plot_data_needs_binary_splits (log_shrink : running_size → Z → running_size)
    (recursion_limit : nat) (_raw_tree : list edge)
    (leaf_separation : R) (log_size : bool) (c : Z) :
  (2 < length (split_of _raw_tree c))%nat →
  (∀ coords, place_cluster _raw_tree coords c = Raise ValueError) ∧
  (∀ plot_data,
     get_plot_data log_shrink recursion_limit _raw_tree leaf_separation log_size ≠ Ret plot_data) ∧
  (∀ leaves, _get_leaves recursion_limit _raw_tree = Ret leaves →
     ∃ e, get_plot_data log_shrink recursion_limit _raw_tree leaf_separation log_size = Raise e) ∧
  get_plot_data exact_log_shrink 10 three_way 1 false = Raise ValueError.
Proof.
  intros Hlen.
  assert (∀ pd, get_plot_data log_shrink recursion_limit _raw_tree leaf_separation log_size ≠ Ret pd) as Hno.
  { intros pd (x & y & _ & _ & _ & _ & Hcoords & _)%get_plot_data_inv.
    apply cluster_coords_inv in Hcoords as (leaves & last_leaf & root & _ & Hmax & Hmin & Hloop).
    eapply (for_each_fails (place_cluster _raw_tree) c); [| |exact Hloop].
    - eapply parent_in_range; [done..|]. apply split_of_parent.
      intros Hnil. rewrite Hnil in Hlen. simpl in Hlen. lia.
    - intros st st'. by rewrite place_cluster_many. }
  split_and!.
  - intros coords. by apply place_cluster_many.
  - done.
  - intros leaves Hleaves.
    pose proof (get_plot_data_not_timeout (log_shrink:=log_shrink) recursion_limit _raw_tree leaf_separation log_size
                  leaves Hleaves) as Hfuel.
    destruct (get_plot_data log_shrink recursion_limit _raw_tree leaf_separation log_size) as [pd|e|] eqn:Hpd.
    + by destruct (Hno pd).
    + by exists e.
    + done.
  - by vm_compute.
Qed.

Lemma get_plot_data_needs_binary_splits_witness :
  (2 < length (split_of three_way 6))%nat ∧
  (∀ coords, place_cluster three_way coords 6 = Raise ValueError) ∧
  (∀ plot_data, get_plot_data exact_log_shrink 10 three_way 1 true ≠ Ret plot_data).
Proof.
  assert (2 < length (split_of three_way 6))%nat as Hlen by (vm_compute; lia).
  destruct (get_plot_data_needs_binary_splits exact_log_shrink 10 three_way 1 true 6 Hlen)
    as (Hplace & Hno & _).
  by split_and!.
Defined.

(** * The bars of one cluster *)

Lemma int64_id z : - 2 ^ 63 ≤ z < 2 ^ 63 → int64 z = z.
Proof. intros Hz. unfold int64. rewrite Z.mod_small; lia. Qed.

Lemma mass_cons r rows : mass (r :: rows) = child_size r + mass rows.
Proof. done. Qed.

Lemma mass_app rows1 rows2 : mass (rows1 ++ rows2) = mass rows1 + mass rows2.
Proof.
  induction rows1 as [|r l IH]; [done|].
  rewrite <-app_comm_cons, !mass_cons, IH. lia.
Qed.

Lemma mass_nonneg rows : Forall (λ r, 1 ≤ child_size r) rows → 0 ≤ mass rows.
Proof. induction 1 as [|r l Hr _ IH]; [done|]. rewrite mass_cons. lia. Qed.

#[export] Instance mass_Permutation : Proper ((≡ₚ) ==> (=)) mass.
Proof.
  induction 1 as [|r l1 l2 _ IH|r1 r2 l|l1 l2 l3 _ IH1 _ IH2];
    rewrite ?mass_cons; lia.
Qed.

Lemma initial_size_points c_children :
  Forall (λ r, 1 ≤ child_size r) c_children → mass c_children < 2 ^ 63 →
  initial_size false c_children = Int (mass c_children) ∧
  initial_size true c_children = Float (ln (IZR (mass c_children))).
Proof.
  intros Hpos%mass_nonneg Hbound. unfold initial_size, np_sum_int.
  fold (mass c_children). by rewrite int64_id by lia.
Qed.

Lemma add_bars_nil center b : add_bars center b [] = b.
Proof. destruct b. unfold add_bars. simpl. by rewrite !app_nil_r. Qed.

Lemma add_bars_app center b new1 new2 :
  add_bars center (add_bars center b new1) new2 = add_bars center b (new1 ++ new2).
Proof. unfold add_bars. simpl. by rewrite !fmap_app, !(assoc_L (++)). Qed.

(** A row at the lambda value of the previous one takes its points away
    without adding a bar. *)
Lemma bar_row_tie {log_shrink} log_size center b current_size current_lambda row :
  lambda_val row = current_lambda →
  bar_row log_shrink log_size center (b, current_size, current_lambda) row =
    (b, shrink log_shrink log_size current_size (child_size row), current_lambda).
Proof. intros Hrow. unfold bar_row. rewrite decide_False by (by intros ?). by rewrite Hrow. Qed.

Lemma bar_row_expected {log_shrink} center b remaining previous row :
  1 ≤ child_size row ≤ remaining → remaining < 2 ^ 63 →
  bar_row log_shrink false center (b, Size (Int remaining), previous) row =
    (add_bars center b
       (if decide (lambda_val row ≠ previous)
        then [(previous, (lambda_val row - previous)%R, remaining)]
        else []),
     Size (Int (remaining - child_size row)), lambda_val row).
Proof.
  intros Hrow Hbound. unfold bar_row. cbn [shrink]. rewrite int64_id by lia.
  case_decide; [done|]. by rewrite add_bars_nil.
Qed.

(** Counting points, the loop over the rows of a cluster draws the bars of
    the specification and leaves the points that the rows do not take
    away. *)
Lemma fold_bar_rows {log_shrink} center rows b remaining previous :
  Forall (λ r, 1 ≤ child_size r) rows → mass rows ≤ remaining → remaining < 2 ^ 63 →
  foldl (bar_row log_shrink false center) (b, Size (Int remaining), previous) rows =
    (add_bars center b (expected_bars remaining previous rows),
     Size (Int (remaining - mass rows)),
     default previous (last (lambda_val <$> rows))).
Proof.
  intros Hpos. revert b remaining previous.
  induction Hpos as [|r rows Hr Hrows IH]; intros b remaining previous Hmass Hbound.
  - simpl. rewrite add_bars_nil. do 2 f_equal. rewrite Z.sub_0_r. done.
  - rewrite mass_cons in Hmass. pose proof (mass_nonneg _ Hrows).
    cbn [foldl]. rewrite bar_row_expected by lia.
    rewrite IH by lia. rewrite add_bars_app. cbn [expected_bars].
    rewrite mass_cons.
    replace (remaining - child_size r - mass rows)
      with (remaining - (child_size r + mass rows)) by lia.
    f_equal. destruct rows as [|r' rows']; [done|].
    rewrite !fmap_cons, last_cons_cons, last_cons. by destruct (last (lambda_val <$> rows')).
Qed.

(** With either scale the bars stand where the specification expects them,
    whatever their widths, and the running size is shrunk row by row. *)
Lemma fold_bar_rows_places {log_shrink} log_size center rows b current_size remaining
    previous :
  ∃ b',
    foldl (bar_row log_shrink log_size center) (b, current_size, previous) rows =
      (b', foldl (shrink log_shrink log_size) current_size (child_size <$> rows),
       default previous (last (lambda_val <$> rows))) ∧
    centers b' = centers b ++ ((λ _, center) <$> expected_bars remaining previous rows) ∧
    bottoms b' =
      bottoms b ++ ((λ bar, bar.1.1) <$> expected_bars remaining previous rows) ∧
    tops b' = tops b ++ ((λ bar, bar.1.2) <$> expected_bars remaining previous rows) ∧
    length (widths b') =
      (length (widths b) + length (expected_bars remaining previous rows))%nat.
Proof.
  revert b current_size remaining previous.
  induction rows as [|r rows IH]; intros b current_size remaining previous.
  - exists b. simpl. rewrite !app_nil_r. split_and!; [done..|lia].
  - cbn [foldl fmap list_fmap expected_bars].
    set (b1 := if decide (lambda_val r ≠ previous)
               then Bars (centers b ++ [center])
                         (tops b ++ [(lambda_val r - previous)%R])
                         (bottoms b ++ [previous])
                         (widths b ++ [current_size])
               else b).
    change (bar_row log_shrink log_size center (b, current_size, previous) r)
      with (b1, shrink log_shrink log_size current_size (child_size r), lambda_val r).
    destruct (IH b1 (shrink log_shrink log_size current_size (child_size r))
                (remaining - child_size r) (lambda_val r))
      as (b' & Hfold & Hc & Hb & Ht & Hw).
    exists b'. split_and!.
    + rewrite Hfold. f_equal. destruct rows as [|r' rows']; [done|].
      rewrite !fmap_cons, last_cons_cons, last_cons.
      by destruct (last (lambda_val <$> rows')).
    + rewrite Hc. subst b1. case_decide; simpl; [|done].
      by rewrite <-(assoc_L (++)).
    + rewrite Hb. subst b1. case_decide; simpl; [|done].
      by rewrite <-(assoc_L (++)).
    + rewrite Ht. subst b1. case_decide; simpl; [|done].
      by rewrite <-(assoc_L (++)).
    + rewrite Hw. subst b1. case_decide; simpl; rewrite ?length_app; simpl; lia.
Qed.

Lemma bar_rows_fold {log_shrink} log_size center c_children order st :
  Forall (λ i, i < length c_children)%nat order →
  bar_rows log_shrink log_size center c_children order st =
    Ret (foldl (bar_row log_shrink log_size center) st ((λ i, c_children !!! i) <$> order)).
Proof.
  unfold bar_rows. intros Horder. revert st.
  induction Horder as [|i order Hi _ IH]; intros st; [done|].
  cbn [for_each]. rewrite (list_lookup_lookup_total_lt c_children i) by done.
  cbn. by rewrite IH.
Qed.

(** ** What [np.argsort] returns *)

Section argsort.
Context (c_children : list edge).
Local Abbreviation lambdas := (lambda_val <$> c_children).

Lemma np_argsort_Permutation : np_argsort lambdas ≡ₚ seq 0 (length c_children).
Proof. unfold np_argsort. rewrite merge_sort_Permutation. by rewrite length_fmap. Qed.

Lemma np_argsort_in_range :
  Forall (λ i, i < length c_children)%nat (np_argsort lambdas).
Proof.
  apply Forall_forall. intros i Hi. rewrite np_argsort_Permutation in Hi.
  apply elem_of_seq in Hi. lia.
Qed.

Lemma in_argsort_order_Permutation : in_argsort_order c_children ≡ₚ c_children.
Proof.
  unfold in_argsort_order. rewrite np_argsort_Permutation.
  assert ((λ i, c_children !!! i) <$> seq 0 (length c_children) = c_children) as ->; [|done].
  apply list_eq. intros i. rewrite list_lookup_fmap.
  destruct (decide (i < length c_children)%nat) as [Hi|Hi].
  - rewrite lookup_seq_lt by done. simpl.
    by rewrite <-list_lookup_lookup_total_lt.
  - rewrite lookup_seq_ge by lia. simpl. symmetry. apply lookup_ge_None. lia.
Qed.

Lemma in_argsort_order_sorted :
  StronglySorted (λ r r', (lambda_val r <= lambda_val r')%R) (in_argsort_order c_children).
Proof.
  unfold in_argsort_order.
  pose proof np_argsort_in_range as Hrange. unfold np_argsort in *.
  assert (StronglySorted (λ i j, (lambdas !!! i <= lambdas !!! j)%R)
            (merge_sort (λ i j, (lambdas !!! i <= lambdas !!! j)%R)
               (seq 0 (length lambdas)))) as Hsorted.
  { apply StronglySorted_merge_sort.
    - intros i j k. apply Rle_trans.
    - intros i j. destruct (Rle_dec (lambdas !!! i) (lambdas !!! j)); [by left|right; lra]. }
  revert Hrange Hsorted.
  generalize (merge_sort (λ i j, (lambdas !!! i <= lambdas !!! j)%R)
                (seq 0 (length lambdas))).
  intros order Hrange Hsorted.
  induction Hsorted as [|i order Hsorted IH Hi]; [constructor|].
  apply Forall_cons in Hrange as [Hilt Hrange].
  rewrite fmap_cons. constructor; [by apply IH|].
  apply Forall_fmap, Forall_forall. intros j Hj. simpl.
  rewrite Forall_forall in Hi, Hrange. specialize (Hi j Hj). specialize (Hrange j Hj).
  simpl in Hrange.
  by rewrite (list_lookup_total_fmap lambda_val c_children i Hilt),
    (list_lookup_total_fmap lambda_val c_children j Hrange) in Hi.
Qed.
End argsort.

(** ** The bars the specification expects *)

Lemma np_max_float_spec x l :
  ∃ top, np_max_float (x :: l) = Ret top ∧ top ∈ x :: l ∧
         Forall (λ y, (y <= top)%R) (x :: l).
Proof.
  exists (foldl Rmax x l). split; [done|].
  revert x. induction l as [|y l IH]; intros x.
  - simpl. split; [apply elem_of_cons; by left|]. apply Forall_singleton. lra.
  - cbn [foldl]. destruct (IH (Rmax x y)) as [Hin Hle]. split.
    + apply elem_of_cons in Hin as [Hin|Hin]; [|by do 2 right].
      rewrite Hin. unfold Rmax. destruct (Rle_dec x y); rewrite !elem_of_cons; auto.
    + apply Forall_cons in Hle as [Hxy Hle].
      pose proof (Rmax_l x y). pose proof (Rmax_r x y).
      apply Forall_cons. split; [lra|]. apply Forall_cons. split; [lra|done].
Qed.

Lemma filter_Forall {A} (P : A → Prop) `{!∀ x, Decision (P x)} (l : list A) :
  Forall P l → filter P l = l.
Proof.
  induction 1 as [|x l Hx _ IH]; [done|]. by rewrite filter_cons_True, IH.
Qed.

Lemma expected_bars_all_tied remaining previous rows :
  expected_bars remaining previous rows = [] ↔
  Forall (λ r, lambda_val r = previous) rows.
Proof.
  revert remaining previous. induction rows as [|r rows IH]; intros remaining previous.
  - done.
  - cbn [expected_bars]. rewrite Forall_cons. case_decide as Hr.
    + split; [done|]. by intros [? _].
    + rewrite app_nil_l, IH, Hr. split; [done|by intros [_ ?]].
Qed.

(** Every expected bar has a height other than zero and is as wide as a
    positive number of points. *)
Lemma expected_bars_Forall remaining previous rows :
  Forall (λ r, 1 ≤ child_size r) rows → mass rows ≤ remaining →
  Forall (λ bar : R * R * Z, bar.1.2 ≠ 0%R ∧ 1 ≤ bar.2 ≤ remaining)
         (expected_bars remaining previous rows).
Proof.
  intros Hpos. revert remaining previous.
  induction Hpos as [|r rows Hr Hrows IH]; intros remaining previous Hmass; [constructor|].
  rewrite mass_cons in Hmass. pose proof (mass_nonneg _ Hrows).
  cbn [expected_bars]. apply Forall_app. split.
  - case_decide as Hne; [|constructor]. apply Forall_singleton. simpl. split.
    + intros Hz. apply Hne. lra.
    + lia.
  - eapply Forall_impl; [apply IH; lia|]. simpl.
    intros bar [Hh Hm]. split; [done|lia].
Qed.

(** The last expected bar is as wide as the rows that leave at the highest
    lambda value. *)
Lemma expected_bars_last previous rows top bar :
  StronglySorted (λ r r', (lambda_val r <= lambda_val r')%R) rows →
  Forall (λ r, (lambda_val r <= top)%R) rows →
  (∃ r, r ∈ rows ∧ lambda_val r = top) →
  last (expected_bars (mass rows) previous rows) = Some bar →
  bar.2 = mass (filter (λ r, lambda_val r = top) rows).
Proof.
  intros Hsorted. revert previous.
  induction Hsorted as [|r rows Hsorted IH Hr]; intros previous Htop Hmax Hlast; [done|].
  apply Forall_cons in Htop as [Hrtop Htop].
  cbn [expected_bars] in Hlast. rewrite mass_cons in Hlast.
  replace (child_size r + mass rows - child_size r) with (mass rows) in Hlast by lia.
  destruct (decide (Forall (λ r', lambda_val r' = lambda_val r) rows)) as [Htied|Hstep].
  - assert (lambda_val r = top) as Hr_top.
    { destruct Hmax as (r' & [->|Hr']%elem_of_cons & Hr'top); [done|].
      rewrite Forall_forall in Htied. by rewrite <-(Htied r' Hr'). }
    rewrite (proj2 (expected_bars_all_tied _ _ _) Htied), app_nil_r in Hlast.
    case_decide; [|done]. simpl in Hlast. injection Hlast as <-. simpl.
    rewrite filter_cons_True by done.
    rewrite mass_cons. f_equal. f_equal.
    symmetry. apply filter_Forall. eapply Forall_impl; [exact Htied|].
    intros r' Hr'. simpl in Hr'. by rewrite Hr'.
  - assert (∃ r', r' ∈ rows ∧ (lambda_val r < lambda_val r')%R) as (r' & Hr' & Hlt).
    { apply not_Forall_Exists in Hstep; [|apply _].
      apply Exists_exists in Hstep as (r' & Hr' & Hne). exists r'. split; [done|].
      rewrite Forall_forall in Hr. specialize (Hr r' Hr'). simpl in Hne. lra. }
    assert (lambda_val r ≠ top) as Hr_top.
    { rewrite Forall_forall in Htop. specialize (Htop r' Hr'). simpl in Htop. lra. }
    rewrite filter_cons_False by done.
    apply (IH (lambda_val r)); [done| |].
    + destruct Hmax as (r0 & [->|Hr0]%elem_of_cons & Hr0top); [done|]. by exists r0.
    + rewrite last_app in Hlast.
      destruct (last (expected_bars (mass rows) (lambda_val r) rows)) eqn:Hl; [done|].
      apply last_None in Hl. apply expected_bars_all_tied in Hl. done.
Qed.

(** * C4 *)



(** ** The running size on the logarithmic scale *)

Lemma exact_log_shrink_two :
  foldl exact_log_shrink (Size (Float (ln 2))) [1; 1] = NegInf.
Proof.
  cbn [foldl exact_log_shrink as_float].
  rewrite exp_ln by lra.
  assert (2 - 1 = 1)%R as -> by lra.
  unfold np_log at 1. rewrite decide_True by lra. cbn [exact_log_shrink as_float].
  rewrite ln_1, exp_0.
  unfold np_log. rewrite decide_False by lra. by rewrite decide_True by lra.
Qed.


(** * More on the traversals *)

Lemma sweep_add next a b tp :
  sweep next (a + b) tp = sweep next a tp ++ sweep next b (frontier next a tp).
Proof.
  revert tp. induction a as [|a IH]; intros tp; [done|].
  cbn [Nat.add sweep frontier]. by rewrite IH, (assoc_L (++)).
Qed.

Lemma NoDup_app_lookup {A} (l1 l2 : list A) i j x y :
  NoDup (l1 ++ l2) → x ∈ l1 → y ∈ l2 →
  (l1 ++ l2) !! i = Some x → (l1 ++ l2) !! j = Some y → (i < j)%nat.
Proof.
  intros (_ & Hdisj & _)%NoDup_app Hx Hy Hi Hj.
  destruct (decide (i < length l1)%nat) as [Hil|Hil].
  - destruct (decide (j < length l1)%nat) as [Hjl|Hjl]; [|lia].
    rewrite lookup_app_l in Hj by done.
    apply list_elem_of_lookup_2 in Hj. by destruct (Hdisj y).
  - rewrite lookup_app_r in Hi by lia.
    apply list_elem_of_lookup_2 in Hi. by destruct (Hdisj x).
Qed.



(** ** Trees with a cycle *)

Lemma nsteps_prefix {A} (R : relation A) n k x z :
  nsteps R n x z → (k ≤ n)%nat → ∃ w, nsteps R k x w.
Proof.
  intros Hn Hk. replace n with (k + (n - k))%nat in Hn by lia.
  apply nsteps_add_inv in Hn as (w & Hw & _). by exists w.
Qed.

Lemma nsteps_cycle {A} (R : relation A) c y k :
  nsteps R c y y → nsteps R (k * c) y y.
Proof.
  intros Hc. induction k as [|k IH]; [constructor|].
  simpl. by eapply nsteps_trans.
Qed.

Lemma walks_of_every_length tree s y k :
  reachable tree s y → strict_descendant tree y y → ∃ z, nsteps (link tree) k s z.
Proof.
  intros [n Hn]%rtc_nsteps_1 (c & Hc & Hcycle)%tc_nsteps.
  apply (nsteps_prefix _ (n + k * c) k s y).
  - eapply nsteps_trans; [exact Hn|]. by apply nsteps_cycle.
  - nia.
Qed.

Lemma bfs_cluster_loop_diverges fuel tree acc tp :
  (∀ k, frontier (children_in tree) k tp ≠ []) →
  bfs_cluster_loop fuel tree acc tp = OutOfFuel.
Proof.
  revert acc tp. induction fuel as [|fuel IH]; intros acc tp Hk.
  - destruct tp; [by destruct (Hk 0%nat)|done].
  - destruct tp as [|x tp]; [by destruct (Hk 0%nat)|].
    simpl. apply IH. intros k. apply (Hk (S k)).
Qed.

(** X2 (a cycle is not detected).  [_bfs_from_cluster_tree] keeps no set of
    visited nodes: when a node that lies on a cycle can be reached from the
    start node, the [while] loop never runs out of nodes to process, whatever
    the fuel. *)
Theorem bfs_cluster_cycle_diverges (tree : list edge) (bfs_root y : Z) (fuel : nat) :
  reachable tree bfs_root y → strict_descendant tree y y →
  _bfs_from_cluster_tree fuel tree bfs_root = OutOfFuel.
Proof.
  intros Hy Hcycle. apply bfs_cluster_loop_diverges. intros k Hnil.
  destruct (walks_of_every_length tree bfs_root y k Hy Hcycle) as [z Hz].
  assert (z ∈ frontier (children_in tree) k [bfs_root]) as Hin.
  { apply (frontier_spec _ _ (children_in_spec tree)). exists bfs_root.
    split; [by apply list_elem_of_singleton|done]. }
  rewrite Hnil in Hin. by apply not_elem_of_nil in Hin.
Qed.

Lemma bfs_cluster_cycle_diverges_witness :
  _bfs_from_cluster_tree 1000 two_cycle 1 = OutOfFuel.
Proof.
  apply (bfs_cluster_cycle_diverges two_cycle 1 1 1000).
  - apply rtc_refl.
  - apply (tc_l _ 1 2 1).
    + exists (Edge 1 2 1 2). split; [apply list_elem_of_here|done].
    + apply tc_once. exists (Edge 2 1 1 2).
      split; [apply list_elem_of_further, list_elem_of_here|done].
Defined.

(** ** The linkage search from any node *)

Lemma bfs_linkage_loop_acc fuel hierarchy num_points acc result to_process :
  bfs_linkage_loop fuel hierarchy num_points (acc ++ result) to_process =
    (acc ++.) <$> bfs_linkage_loop fuel hierarchy num_points result to_process.
Proof.
  revert result to_process. induction fuel as [|fuel IH]; intros result to_process.
  - by destruct to_process.
  - destruct to_process as [|x to_process]; [done|].
    cbn [bfs_linkage_loop]. rewrite <-(assoc_L (++)).
    destruct (if decide (_ = []) then _ else _) as [tp| |]; [|done..].
    cbn [mbind outcome_bind]. apply IH.
Qed.

Lemma np_take_wrapped {A} (a : list A) (i : Z) :
  Z.of_nat (length a) < 2 ^ 63 → 2 ^ 63 ≤ i < 2 ^ 64 →
  np_take a i = np_index a (i - 2 ^ 64).
Proof.
  intros Hlen Hi. unfold np_take. rewrite decide_False by lia.
  by rewrite decide_True by done.
Qed.

Lemma np_take_too_large {A} (a : list A) (i : Z) :
  Z.of_nat (length a) < 2 ^ 63 → 2 ^ 64 ≤ i → np_take a i = Raise IndexError.
Proof.
  intros Hlen Hi. unfold np_take. rewrite decide_False by lia.
  by rewrite decide_False by lia.
Qed.

Lemma np_index_from_end {A} (a : list A) (i : Z) :
  0 ≤ i < Z.of_nat (length a) →
  np_index a (i - Z.of_nat (length a)) = np_index a i.
Proof.
  intros Hi. unfold np_index. cbv zeta.
  rewrite (decide_False (P := 0 ≤ i - Z.of_nat (length a))) by lia.
  rewrite (decide_True (P := 0 ≤ i)) by lia.
  replace (Z.of_nat (length a) + (i - Z.of_nat (length a))) with i by lia. done.
Qed.

Lemma np_index_below {A} (a : list A) (i : Z) :
  i < - Z.of_nat (length a) → np_index a i = Raise IndexError.
Proof.
  intros Hi. unfold np_index. cbv zeta.
  rewrite (decide_False (P := 0 ≤ i)) by lia. by rewrite decide_False by lia.
Qed.



(** X4 (the linkage search below any node).  On a well-formed linkage matrix
    [_bfs_from_linkage_tree] returns, from every id up to the last merge
    node, the start node and everything merged into it, each node once. *)
Theorem bfs_linkage_subtree (hierarchy : list merge) (bfs_root : Z) (fuel : nat) :
  linkage_wf hierarchy →
  bfs_root ≤ 2 * Z.of_nat (length hierarchy) →
  (length hierarchy < fuel)%nat →
  ∃ result,
    _bfs_from_linkage_tree fuel hierarchy bfs_root = Ret result ∧
    NoDup result ∧
    (∀ y, y ∈ result ↔ rtc (merges_into hierarchy) bfs_root y) ∧
    (∀ y, y ∈ result → y ≤ bfs_root).
Proof.
  intros Hwf Hroot Hfuel. eexists. split_and!.
  - by apply bfs_linkage_returns.
  - by apply bfs_linkage_NoDup.
  - intros y. by apply bfs_linkage_reach.
  - intros y Hy%bfs_linkage_reach; [|done].
    induction Hy as [|x w y Hxw _ IH]; [lia|].
    apply merges_into_lt in Hxw; [|done]. lia.
Qed.

Lemma bfs_linkage_subtree_witness :
  ∃ result,
    _bfs_from_linkage_tree 3 two_merges 3 = Ret result ∧
    NoDup result ∧
    (∀ y, y ∈ result → y ≤ 3).
Proof.
  destruct (bfs_linkage_subtree two_merges 3 3) as (result & Hret & Hnodup & _ & Hle).
  - exact two_merges_wf.
  - simpl. lia.
  - simpl. lia.
  - by exists result.
Defined.

(** * The shape of the plot data *)

Lemma for_each_Ret_ind {S A} (body : S → A → outcome S)
    (I : list A → S → Prop) (xs : list A) (st st' : S) :
  I [] st →
  (∀ done x st st', done ++ [x] `prefix_of` xs → I done st →
     body st x = Ret st' → I (done ++ [x]) st') →
  for_each body st xs = Ret st' → I xs st'.
Proof.
  intros Hinit Hstep.
  assert (∀ todo done st, done ++ todo = xs → I done st →
            for_each body st todo = Ret st' → I xs st') as Hgen.
  { induction todo as [|x todo IH]; intros done st0 Hxs Hdone; simpl.
    - rewrite app_nil_r in Hxs. subst. by intros [= <-].
    - intros (st1 & Hx & Hrest)%bind_Ret_inv.
      apply (IH (done ++ [x]) st1); [by rewrite <-(assoc_L (++))| |done].
      apply (Hstep done x st0); [|done..].
      exists todo. by rewrite <-(assoc_L (++)). }
  by apply (Hgen xs []).
Qed.

Lemma getitem_Ret_inv {V} (d : gmap Z V) k v : getitem d k = Ret v → d !! k = Some v.
Proof. unfold getitem. by destruct (d !! k); intros [= ->]. Qed.

Lemma range_down_spec start stop c : c ∈ range_down start stop ↔ stop < c ≤ start.
Proof. unfold range_down. rewrite elem_of_reverse, elem_of_seqZ. lia. Qed.

Lemma range_down_NoDup start stop : NoDup (range_down start stop).
Proof. unfold range_down. rewrite reverse_Permutation. apply NoDup_seqZ. Qed.

(** What [get_plot_data] has computed when it returns. *)
Lemma get_plot_data_Ret {log_shrink} recursion_limit _raw_tree leaf_separation log_size pd :
  get_plot_data log_shrink recursion_limit _raw_tree leaf_separation log_size = Ret pd →
  ∃ x y last_leaf root scaling b bounds lxs lys,
    cluster_coords recursion_limit _raw_tree leaf_separation = Ret (x, y) ∧
    np_max (parent <$> _raw_tree) = Ret last_leaf ∧
    np_min (parent <$> _raw_tree) = Ret root ∧
    for_each (cluster_bars log_shrink _raw_tree log_size scaling x y) (Bars [] [] [] [], ∅)
      (range_down last_leaf (root - 1)) = Ret (b, bounds) ∧
    for_each (split_line log_size scaling x y) ([], []) (cluster_tree_of _raw_tree)
      = Ret (lxs, lys) ∧
    pd = PlotData (centers b) (tops b) (bottoms b) (widths b) lxs lys bounds.
Proof.
  unfold get_plot_data.
  intros ([x y] & Hcoords & (last_leaf & Hmax & (root & Hmin & Hrest)%bind_Ret_inv)
            %bind_Ret_inv)%bind_Ret_inv.
  apply bind_Ret_inv in Hrest as ([b bounds] & Hbars & Hrest).
  apply bind_Ret_inv in Hrest as ([lxs lys] & Hlines & [= <-]).
  eauto 15.
Qed.

(** What the loop body for one cluster has computed when it returns. *)
Lemma cluster_bars_Ret {log_shrink} _raw_tree log_size scaling x y b bounds c b' bounds' :
  cluster_bars log_shrink _raw_tree log_size scaling x y (b, bounds) c = Ret (b', bounds') →
  ∃ current_lambda xc top current_size last_lambda,
    y !! c = Some current_lambda ∧ x !! c = Some xc ∧
    np_max_float (lambda_val <$> filter (λ r, parent r = c) _raw_tree) = Ret top ∧
    bar_rows log_shrink log_size (xc * scaling) (filter (λ r, parent r = c) _raw_tree)
      (np_argsort (lambda_val <$> filter (λ r, parent r = c) _raw_tree))
      (b, Size (initial_size log_size (filter (λ r, parent r = c) _raw_tree)),
       current_lambda)
      = Ret (b', current_size, last_lambda) ∧
    bounds' =
      <[c := [(xc * scaling
                - as_float (initial_size log_size
                              (filter (λ r, parent r = c) _raw_tree)) / 2)%R;
              (xc * scaling
                + as_float (initial_size log_size
                              (filter (λ r, parent r = c) _raw_tree)) / 2)%R;
              current_lambda; top]]> bounds.
Proof.
  unfold cluster_bars.
  intros (current_lambda & Hy%getitem_Ret_inv & (xc & Hx%getitem_Ret_inv & Hrest)
            %bind_Ret_inv)%bind_Ret_inv.
  apply bind_Ret_inv in Hrest as (top & Htop & Hrest).
  apply bind_Ret_inv in Hrest as ([[b0 current_size] last_lambda] & Hrows & [= <- <-]).
  eauto 12.
Qed.

Lemma bar_row_aligned {log_shrink} log_size center b current_size current_lambda row :
  bars_aligned b →
  bars_aligned (bar_row log_shrink log_size center (b, current_size, current_lambda) row).1.1.
Proof.
  intros (Hc & Hb & Hw & Hh). unfold bar_row. case_decide as Hne; [|done].
  unfold bars_aligned. simpl. rewrite !length_app. simpl. split_and!; [lia..|].
  apply Forall_app. split; [done|]. apply Forall_singleton. lra.
Qed.

Lemma bar_rows_aligned {log_shrink} log_size center c_children order st st' :
  bar_rows log_shrink log_size center c_children order st = Ret st' →
  bars_aligned st.1.1 → bars_aligned st'.1.1.
Proof.
  unfold bar_rows. intros Hrows Hst.
  apply (for_each_Ret_ind _ (λ _ st, bars_aligned st.1.1) _ _ _ Hst) in Hrows; [done|].
  intros _ i [[b current_size] current_lambda] st1 _ Hb Hi.
  destruct (c_children !! i) as [row|]; [|done]. injection Hi as <-.
  by apply bar_row_aligned.
Qed.

Lemma split_line_Ret log_size scaling x y lxs lys row lxs' lys' :
  split_line log_size scaling x y (lxs, lys) row = Ret (lxs', lys') →
  ∃ a b v, lxs' = lxs ++ [[a; b]] ∧ lys' = lys ++ [[v; v]] ∧
           y !! child row = Some v.
Proof.
  unfold split_line.
  intros (x_child & _ & (x_parent & _ & (y_child & Hy%getitem_Ret_inv & [= <- <-])
            %bind_Ret_inv)%bind_Ret_inv)%bind_Ret_inv.
  eauto 10.
Qed.

Lemma plot_data_shape (log_shrink : running_size → Z → running_size)
    (recursion_limit : nat) (_raw_tree : list edge)
    (leaf_separation : R) (log_size : bool) (pd : plot_data) :
  get_plot_data log_shrink recursion_limit _raw_tree leaf_separation log_size = Ret pd →
  length (bar_centers pd) = length (bar_tops pd) ∧
  length (bar_bottoms pd) = length (bar_tops pd) ∧
  length (bar_widths pd) = length (bar_tops pd) ∧
  Forall (λ h, h ≠ 0%R) (bar_tops pd) ∧
  length (line_xs pd) = length (cluster_tree_of _raw_tree) ∧
  length (line_ys pd) = length (cluster_tree_of _raw_tree) ∧
  Forall (λ xs, length xs = 2%nat) (line_xs pd) ∧
  Forall (λ ys, ∃ v, ys = [v; v]) (line_ys pd).
Proof.
  intros (x & y & last_leaf & root & scaling & b & bounds & lxs & lys &
          _ & _ & _ & Hbars & Hlines & ->)%get_plot_data_Ret. simpl.
  assert (bars_aligned b) as (Hc & Hb & Hw & Hh).
  { apply (for_each_Ret_ind _ (λ _ st, bars_aligned st.1)) in Hbars; [done| |].
    - split_and!; [done..|constructor].
    - intros _ c [b0 bounds0] [b1 bounds1] _ Hb0 Hstep. simpl in *.
      apply cluster_bars_Ret in Hstep
        as (current_lambda & xc & top & current_size & last_lambda &
            _ & _ & _ & Hrows & _).
      by apply bar_rows_aligned in Hrows. }
  apply (for_each_Ret_ind _
           (λ done st, length st.1 = length done ∧ length st.2 = length done ∧
                       Forall (λ xs, length xs = 2%nat) st.1 ∧
                       Forall (λ ys : list R, ∃ v, ys = [v; v]) st.2)) in Hlines.
  - destruct Hlines as (? & ? & ? & ?). by split_and!.
  - by split_and!.
  - intros done row [lxs0 lys0] [lxs1 lys1] _ (Hlx & Hly & Hxs & Hys) Hstep.
    apply split_line_Ret in Hstep as (a & b' & v & -> & -> & _). simpl in *.
    rewrite !length_app. simpl. split_and!; [lia..| |].
    + apply Forall_app. split; [done|]. by apply Forall_singleton.
    + apply Forall_app. split; [done|]. apply Forall_singleton. by exists v.
Qed.

(** X5 (the plot data are well shaped).  Whenever [get_plot_data] returns,
    its four bar lists have the same length, no bar has height zero, there
    is one connector per row of the cluster tree, every connector has two x
    coordinates and is horizontal (its two y coordinates are equal). *)
Theorem get_plot_data_shape (log_shrink : running_size → Z → running_size)
    (recursion_limit : nat) (_raw_tree : list edge)
    (leaf_separation : R) (log_size : bool) (pd : plot_data) :
  get_plot_data log_shrink recursion_limit _raw_tree leaf_separation log_size = Ret pd →
  length (bar_centers pd) = length (bar_tops pd) ∧
  length (bar_bottoms pd) = length (bar_tops pd) ∧
  length (bar_widths pd) = length (bar_tops pd) ∧
  Forall (λ h, h ≠ 0%R) (bar_tops pd) ∧
  length (line_xs pd) = length (cluster_tree_of _raw_tree) ∧
  length (line_ys pd) = length (cluster_tree_of _raw_tree) ∧
  Forall (λ xs, length xs = 2%nat) (line_xs pd) ∧
  Forall (λ ys, ∃ v, ys = [v; v]) (line_ys pd).
Proof. apply plot_data_shape. Qed.

Lemma plot_data_bounds (log_shrink : running_size → Z → running_size)
    (recursion_limit : nat) (_raw_tree : list edge)
    (leaf_separation : R) (log_size : bool) (pd : plot_data) :
  get_plot_data log_shrink recursion_limit _raw_tree leaf_separation log_size = Ret pd →
  ∃ last_leaf root x y,
    np_max (parent <$> _raw_tree) = Ret last_leaf ∧
    np_min (parent <$> _raw_tree) = Ret root ∧
    cluster_coords recursion_limit _raw_tree leaf_separation = Ret (x, y) ∧
    (∀ c, is_Some (cluster_bounds pd !! c) ↔ root ≤ c ≤ last_leaf) ∧
    (∀ c bds, cluster_bounds pd !! c = Some bds →
       ∃ left right bottom top,
         bds = [left; right; bottom; top] ∧
         (right - left)%R =
           as_float (initial_size log_size (filter (λ r, parent r = c) _raw_tree)) ∧
         y !! c = Some bottom ∧
         np_max_float (lambda_val <$> filter (λ r, parent r = c) _raw_tree) = Ret top).
Proof.
  intros (x & y & last_leaf & root & scaling & b & bounds & lxs & lys &
          Hcoords & Hmax & Hmin & Hbars & _ & ->)%get_plot_data_Ret. simpl.
  exists last_leaf, root, x, y. split_and!; [done..| |].
  - assert (∀ c, is_Some (bounds !! c) ↔ c ∈ range_down last_leaf (root - 1)) as Hkeys.
    2:{ intros c. rewrite (Hkeys c), range_down_spec. lia. }
    refine (for_each_Ret_ind _
              (λ done st, ∀ c, is_Some (st.2 !! c) ↔ c ∈ done) _ _ (b, bounds) _ _ Hbars).
    + intros c. simpl. rewrite lookup_empty. split; [by intros [? ?]|].
      by intros ?%not_elem_of_nil.
    + intros done c [b0 bounds0] [b1 bounds1] _ Hdone Hstep. simpl in *.
      apply cluster_bars_Ret in Hstep
        as (current_lambda & xc & top & current_size & last_lambda &
            _ & _ & _ & _ & ->).
      intros k. rewrite elem_of_app, list_elem_of_singleton, <-Hdone.
      destruct (decide (k = c)) as [->|Hne].
      * rewrite lookup_insert_eq. split; [by right|by eexists].
      * rewrite lookup_insert_ne by done. split; [by left|]. by intros [?|?].
  - refine (for_each_Ret_ind _
             (λ _ st, ∀ c bds, st.2 !! c = Some bds →
                ∃ left right bottom top,
                  bds = [left; right; bottom; top] ∧
                  (right - left)%R =
                    as_float (initial_size log_size
                                (filter (λ r, parent r = c) _raw_tree)) ∧
                  y !! c = Some bottom ∧
                  np_max_float (lambda_val <$> filter (λ r, parent r = c) _raw_tree)
                    = Ret top) _ _ (b, bounds) _ _ Hbars).
    + intros c bds. simpl. by rewrite lookup_empty.
    + intros done c [b0 bounds0] [b1 bounds1] _ Hdone Hstep. simpl in *.
      apply cluster_bars_Ret in Hstep
        as (current_lambda & xc & top & current_size & last_lambda &
            Hy & _ & Htop & _ & ->).
      intros k bds. destruct (decide (k = c)) as [->|Hne].
      * rewrite lookup_insert_eq. intros [= <-]. do 4 eexists.
        split_and!; [done| |done..]. lra.
      * rewrite lookup_insert_ne by done. apply Hdone.
Qed.

(** X6 (the bounds of the clusters).  Whenever [get_plot_data] returns,
    [cluster_bounds] has an entry for exactly the ids from the least to the
    greatest parent id; the entry of [c] is a list [left, right, bottom, top]
    whose width [right - left] is the number of points of the rows of [c]
    (its logarithm with [log_size]), whose bottom is the y coordinate of [c]
    and whose top is the greatest lambda value of the rows of [c]. *)
Theorem get_plot_data_cluster_bounds (log_shrink : running_size → Z → running_size)
    (recursion_limit : nat) (_raw_tree : list edge)
    (leaf_separation : R) (log_size : bool) (pd : plot_data) :
  get_plot_data log_shrink recursion_limit _raw_tree leaf_separation log_size = Ret pd →
  ∃ last_leaf root x y,
    np_max (parent <$> _raw_tree) = Ret last_leaf ∧
    np_min (parent <$> _raw_tree) = Ret root ∧
    cluster_coords recursion_limit _raw_tree leaf_separation = Ret (x, y) ∧
    (∀ c, is_Some (cluster_bounds pd !! c) ↔ root ≤ c ≤ last_leaf) ∧
    (∀ c bds, cluster_bounds pd !! c = Some bds →
       ∃ left right bottom top,
         bds = [left; right; bottom; top] ∧
         (right - left)%R =
           as_float (initial_size log_size (filter (λ r, parent r = c) _raw_tree)) ∧
         y !! c = Some bottom ∧
         np_max_float (lambda_val <$> filter (λ r, parent r = c) _raw_tree) = Ret top).
Proof. apply plot_data_bounds. Qed.

(** X7 (cluster ids must be contiguous).  [get_plot_data] visits every id
    between the least and the greatest parent id.  When one of them is not
    the parent of any row, no layout is returned: once the leaves are
    found, an exception is raised. *)
Theorem get_plot_data_needs_contiguous_ids (log_shrink : running_size → Z → running_size)
    (recursion_limit : nat) (_raw_tree : list edge)
    (leaf_separation : R) (log_size : bool) (last_leaf root c : Z) :
  np_max (parent <$> _raw_tree) = Ret last_leaf →
  np_min (parent <$> _raw_tree) = Ret root →
  root ≤ c ≤ last_leaf →
  c ∉ parent <$> _raw_tree →
  (∀ pd, get_plot_data log_shrink recursion_limit _raw_tree leaf_separation log_size ≠ Ret pd) ∧
  (∀ leaves, _get_leaves recursion_limit _raw_tree = Ret leaves →
     ∃ e, get_plot_data log_shrink recursion_limit _raw_tree leaf_separation log_size = Raise e).
Proof.
  intros Hmax Hmin Hc Hnot.
  assert (∀ pd, get_plot_data log_shrink recursion_limit _raw_tree leaf_separation log_size ≠ Ret pd) as Hno.
  { intros pd (x & y & last_leaf' & root' & scaling & b & bounds & lxs & lys &
               _ & Hmax' & Hmin' & Hbars & _)%get_plot_data_Ret.
    rewrite Hmax in Hmax'. rewrite Hmin in Hmin'.
    injection Hmax' as <-. injection Hmin' as <-.
    revert Hbars. apply (for_each_fails _ c).
    - apply range_down_spec. lia.
    - intros [b0 bounds0] [b1 bounds1]
        (current_lambda & xc & top & current_size & last_lambda &
         _ & _ & Htop & _)%cluster_bars_Ret.
      assert (filter (λ r, parent r = c) _raw_tree = []) as Hnil.
      { apply elem_of_nil_inv. intros r [Hr Hin]%list_elem_of_filter.
        apply Hnot, list_elem_of_fmap. by exists r. }
      by rewrite Hnil in Htop. }
  split; [done|]. intros leaves Hleaves.
  pose proof (get_plot_data_not_timeout (log_shrink:=log_shrink) recursion_limit _raw_tree leaf_separation log_size
                leaves Hleaves) as Hfuel.
  destruct (get_plot_data log_shrink recursion_limit _raw_tree leaf_separation log_size) as [pd|e|] eqn:Hpd;
    [by destruct (Hno pd)|by exists e|done].
Qed.

(** ** Inputs on which a layout is returned *)

Lemma for_each_returns {S A} (body : S → A → outcome S) (xs : list A) (st : S) :
  (∀ st x, x ∈ xs → ∃ st', body st x = Ret st') →
  ∃ st', for_each body st xs = Ret st'.
Proof.
  revert st. induction xs as [|x xs IH]; intros st Hbody; simpl; [by eexists|].
  destruct (Hbody st x) as [st1 ->]; [by left|]. simpl.
  apply IH. intros st2 x' Hx'. apply Hbody. by right.
Qed.

Lemma bar_rows_returns {log_shrink} log_size center c_children st :
  ∃ st', bar_rows log_shrink log_size center c_children
           (np_argsort (lambda_val <$> c_children)) st = Ret st'.
Proof. eexists. apply bar_rows_fold, np_argsort_in_range. Qed.

Lemma cluster_bars_returns {log_shrink} _raw_tree log_size scaling x y st c :
  is_Some (x !! c) → is_Some (y !! c) → c ∈ parent <$> _raw_tree →
  ∃ st', cluster_bars log_shrink _raw_tree log_size scaling x y st c = Ret st'.
Proof.
  intros [xc Hx] [yc Hy] (r & -> & Hr)%list_elem_of_fmap.
  destruct st as [b bounds]. unfold cluster_bars, getitem. rewrite Hy, Hx. cbn.
  assert (∃ top, np_max_float
                   (lambda_val <$> filter (λ r0, parent r0 = parent r) _raw_tree)
                 = Ret top) as [top ->].
  { destruct (lambda_val <$> filter (λ r0, parent r0 = parent r) _raw_tree)
      as [|l ls] eqn:Hl.
    - apply fmap_nil_inv in Hl.
      assert (r ∈ filter (λ r0, parent r0 = parent r) _raw_tree) as Hin
        by by apply list_elem_of_filter.
      rewrite Hl in Hin. by apply not_elem_of_nil in Hin.
    - destruct (np_max_float_spec l ls) as (top & -> & _). by exists top. }
  cbn.
  destruct (bar_rows_returns (log_shrink:=log_shrink) log_size (xc * scaling)
              (filter (λ r0, parent r0 = parent r) _raw_tree)
              (b, Size (initial_size log_size
                          (filter (λ r0, parent r0 = parent r) _raw_tree)), yc))
    as ([[b' s'] l'] & ->).
  cbn. eauto.
Qed.

Lemma split_line_returns log_size scaling x y st row :
  is_Some (x !! child row) → is_Some (x !! parent row) → is_Some (y !! child row) →
  ∃ st', split_line log_size scaling x y st row = Ret st'.
Proof.
  intros [xc Hxc] [xp Hxp] [yc Hyc]. destruct st as [lxs lys].
  unfold split_line, getitem. rewrite Hxc, Hxp, Hyc. cbn. by eexists.
Qed.

(** Once the coordinates are there for every cluster, the bars and the
    connectors are computed without an exception. *)
Lemma get_plot_data_returns {log_shrink} recursion_limit _raw_tree leaf_separation log_size x y last_leaf root :
  cluster_coords recursion_limit _raw_tree leaf_separation = Ret (x, y) →
  np_max (parent <$> _raw_tree) = Ret last_leaf →
  np_min (parent <$> _raw_tree) = Ret root →
  (∀ c, root ≤ c ≤ last_leaf →
        is_Some (x !! c) ∧ is_Some (y !! c) ∧ c ∈ parent <$> _raw_tree) →
  (∀ r, r ∈ cluster_tree_of _raw_tree →
        is_Some (x !! child r) ∧ is_Some (y !! child r)) →
  ∃ pd, get_plot_data log_shrink recursion_limit _raw_tree leaf_separation log_size = Ret pd.
Proof.
  intros Hcoords Hmax Hmin Hclusters Hrows.
  unfold get_plot_data. rewrite Hcoords, Hmax, Hmin. cbn.
  match goal with
  | |- context [for_each (cluster_bars ?ls ?t ?l ?s ?a ?b) ?st ?xs] =>
      destruct (for_each_returns (cluster_bars ls t l s a b) xs st) as [[b1 bounds] ->]
  end.
  { intros st c Hc%range_down_spec.
    destruct (Hclusters c) as (? & ? & ?); [lia|]. by apply cluster_bars_returns. }
  cbn.
  match goal with
  | |- context [for_each (split_line ?l ?s ?a ?b) ?st ?xs] =>
      destruct (for_each_returns (split_line l s a b) xs st) as [[lxs lys] ->]
  end.
  { intros st r Hr. destruct (Hrows r Hr) as [? ?].
    apply split_line_returns; [done| |done].
    apply list_elem_of_filter in Hr as [_ Hr].
    destruct (Hclusters (parent r)) as (? & _); [|done].
    apply np_max_spec in Hmax as [_ Hmax]. apply np_min_spec in Hmin as [_ Hmin].
    assert (parent r ∈ parent <$> _raw_tree) as Hp
      by (apply list_elem_of_fmap; by exists r).
    specialize (Hmax _ Hp). specialize (Hmin _ Hp). lia. }
  cbn. by eexists.
Qed.

Lemma two_leaves_layout log_size : ∃ pd, get_plot_data exact_log_shrink 2 two_leaves 1 log_size = Ret pd.
Proof.
  destruct (cluster_coords 2 two_leaves 1) as [[x y]|e|] eqn:Hcoords.
  2,3: by vm_compute in Hcoords.
  assert (is_Some (x !! 5) ∧ is_Some (x !! 6) ∧ is_Some (x !! 7) ∧
          is_Some (y !! 5) ∧ is_Some (y !! 6) ∧ is_Some (y !! 7)) as Hkeys.
  { vm_compute in Hcoords. injection Hcoords as <- <-. split_and!; by eexists. }
  destruct Hkeys as (Hx5 & Hx6 & Hx7 & Hy5 & Hy6 & Hy7).
  apply (get_plot_data_returns 2 two_leaves 1 log_size x y 5 5); [done..| |].
  - intros c Hc. assert (c = 5) as -> by lia. split_and!; [done..|].
    apply list_elem_of_here.
  - intros r Hr. assert (r = Edge 5 6 1 3 ∨ r = Edge 5 7 1.5 2) as [-> | ->].
    { apply list_elem_of_filter in Hr as [_ Hr].
      apply elem_of_cons in Hr as [->|Hr]; [by left|].
      apply list_elem_of_singleton in Hr as ->. by right. }
    + by split.
    + by split.
Qed.

Lemma get_plot_data_shape_witness :
  ∃ pd, get_plot_data exact_log_shrink 2 two_leaves 1 false = Ret pd ∧
        length (bar_centers pd) = length (bar_tops pd) ∧
        Forall (λ h, h ≠ 0%R) (bar_tops pd) ∧
        length (line_xs pd) = length (cluster_tree_of two_leaves).
Proof.
  destruct (two_leaves_layout false) as [pd Hpd]. exists pd.
  destruct (get_plot_data_shape exact_log_shrink 2 two_leaves 1 false pd Hpd)
    as (Hc & _ & _ & Hh & Hl & _).
  by split_and!.
Defined.

Lemma get_plot_data_cluster_bounds_witness :
  ∃ pd, get_plot_data exact_log_shrink 2 two_leaves 1 true = Ret pd ∧
        ∀ c, is_Some (cluster_bounds pd !! c) ↔ 5 ≤ c ≤ 5.
Proof.
  destruct (two_leaves_layout true) as [pd Hpd]. exists pd. split; [done|].
  destruct (get_plot_data_cluster_bounds exact_log_shrink 2 two_leaves 1 true pd Hpd)
    as (last_leaf & root & x & y & Hmax & Hmin & _ & Hkeys & _).
  vm_compute in Hmax, Hmin. injection Hmax as <-. injection Hmin as <-.
  exact Hkeys.
Defined.

Lemma get_plot_data_needs_contiguous_ids_witness :
  (6 ∉ parent <$> gap_tree) ∧
  (∀ pd, get_plot_data exact_log_shrink 3 gap_tree 1 false ≠ Ret pd).
Proof.
  assert (6 ∉ (parent <$> gap_tree)) as Hgap.
  { apply (bool_decide_unpack _). by vm_compute. }
  split; [done|].
  apply (get_plot_data_needs_contiguous_ids exact_log_shrink 3 gap_tree 1 false 7 5 6).
  - by vm_compute.
  - by vm_compute.
  - lia.
  - done.
Defined.

(** * What [log_size] changes *)

Lemma same_outcome_refl {A} (m : outcome A) : same_outcome eq m m.
Proof. by destruct m. Qed.

Lemma same_outcome_bind {A B A' B'} (R : A → B → Prop) (Q : A' → B' → Prop)
    (m1 : outcome A) (m2 : outcome B) (f : A → outcome A') (g : B → outcome B') :
  same_outcome R m1 m2 → (∀ a b, R a b → same_outcome Q (f a) (g b)) →
  same_outcome Q (m1 ≫= f) (m2 ≫= g).
Proof. destruct m1, m2; simpl; try done. by intros ?; auto. Qed.

Lemma same_outcome_for_each {S1 S2 A} (R : S1 → S2 → Prop)
    (body1 : S1 → A → outcome S1) (body2 : S2 → A → outcome S2) (xs : list A) st1 st2 :
  R st1 st2 →
  (∀ st1 st2 x, R st1 st2 → same_outcome R (body1 st1 x) (body2 st2 x)) →
  same_outcome R (for_each body1 st1 xs) (for_each body2 st2 xs).
Proof.
  intros Hst Hbody. revert st1 st2 Hst.
  induction xs as [|x xs IH]; intros st1 st2 Hst; simpl; [done|].
  eapply same_outcome_bind; [by apply Hbody|]. intros a b Hab. by apply IH.
Qed.

Lemma bar_row_same {log_shrink} log1 log2 center1 center2 b1 b2 size1 size2 current_lambda row :
  same_bars b1 b2 →
  same_bars (bar_row log_shrink log1 center1 (b1, size1, current_lambda) row).1.1
            (bar_row log_shrink log2 center2 (b2, size2, current_lambda) row).1.1 ∧
  (bar_row log_shrink log1 center1 (b1, size1, current_lambda) row).2 =
  (bar_row log_shrink log2 center2 (b2, size2, current_lambda) row).2.
Proof.
  intros (Ht & Hb & Hc & Hw). unfold bar_row. case_decide; [|done].
  unfold same_bars. simpl. rewrite !length_app, Ht, Hb, Hc, Hw. done.
Qed.

Lemma bar_rows_same {log_shrink} log1 log2 center1 center2 c_children order b1 b2 size1 size2
    current_lambda :
  same_bars b1 b2 →
  same_outcome (λ st1 st2, same_bars st1.1.1 st2.1.1 ∧ st1.2 = st2.2)
    (bar_rows log_shrink log1 center1 c_children order (b1, size1, current_lambda))
    (bar_rows log_shrink log2 center2 c_children order (b2, size2, current_lambda)).
Proof.
  intros Hb. unfold bar_rows. apply same_outcome_for_each; [done|].
  intros [[b1' s1] l1] [[b2' s2] l2] i [Hb' Hl]. simpl in *. subst l2.
  destruct (c_children !! i) as [row|]; [|done].
  exact (bar_row_same (log_shrink:=log_shrink) log1 log2 center1 center2 b1' b2' s1 s2 l1 row Hb').
Qed.

Lemma cluster_bars_same {log_shrink} _raw_tree log1 log2 scaling1 scaling2 x y b1 bounds1 b2 bounds2 c :
  same_bars b1 b2 → drop 2 <$> bounds1 = drop 2 <$> bounds2 →
  same_outcome (λ st1 st2, same_bars st1.1 st2.1 ∧ drop 2 <$> st1.2 = drop 2 <$> st2.2)
    (cluster_bars log_shrink _raw_tree log1 scaling1 x y (b1, bounds1) c)
    (cluster_bars log_shrink _raw_tree log2 scaling2 x y (b2, bounds2) c).
Proof.
  intros Hb Hbounds. unfold cluster_bars.
  eapply same_outcome_bind; [apply same_outcome_refl|]. intros current_lambda ? <-.
  eapply same_outcome_bind; [apply same_outcome_refl|]. intros xc ? <-.
  eapply same_outcome_bind; [apply same_outcome_refl|]. intros top ? <-.
  eapply same_outcome_bind; [by apply bar_rows_same|].
  intros [[b1' s1] l1] [[b2' s2] l2] [Hb' _]. simpl in *. split; [done|].
  by rewrite !fmap_insert, Hbounds.
Qed.

Lemma split_line_same log1 log2 scaling1 scaling2 x y lxs1 lys1 lxs2 lys2 row :
  length lxs1 = length lxs2 → lys1 = lys2 →
  same_outcome (λ st1 st2, length st1.1 = length st2.1 ∧ st1.2 = st2.2)
    (split_line log1 scaling1 x y (lxs1, lys1) row)
    (split_line log2 scaling2 x y (lxs2, lys2) row).
Proof.
  intros Hlen ->. unfold split_line.
  eapply same_outcome_bind; [apply same_outcome_refl|]. intros x_child ? <-.
  eapply same_outcome_bind; [apply same_outcome_refl|]. intros x_parent ? <-.
  eapply same_outcome_bind; [apply same_outcome_refl|]. intros y_child ? <-.
  simpl. rewrite !length_app, Hlen. done.
Qed.

(** X8 ([log_size] only rescales).  With and without [log_size],
    [get_plot_data] ends the same way: it raises the same exception, or it
    returns plot data with the same bar heights and bar bottoms, the same
    connector heights, as many bars and connectors, and cluster bounds with
    the same keys, bottoms and tops. *)
Theorem get_plot_data_log_size (log_shrink : running_size → Z → running_size)
    (recursion_limit : nat) (_raw_tree : list edge)
    (leaf_separation : R) :
  same_outcome same_heights
    (get_plot_data log_shrink recursion_limit _raw_tree leaf_separation false)
    (get_plot_data log_shrink recursion_limit _raw_tree leaf_separation true).
Proof.
  unfold get_plot_data.
  eapply same_outcome_bind; [apply same_outcome_refl|]. intros [x y] ? <-.
  eapply same_outcome_bind; [apply same_outcome_refl|]. intros last_leaf ? <-.
  eapply same_outcome_bind; [apply same_outcome_refl|]. intros root ? <-.
  cbv zeta.
  eapply (same_outcome_bind
            (λ st1 st2, same_bars st1.1 st2.1 ∧ drop 2 <$> st1.2 = drop 2 <$> st2.2)).
  { apply same_outcome_for_each; [done|].
    intros [b1 bounds1] [b2 bounds2] c [Hb Hbounds]. by apply cluster_bars_same. }
  intros [b1 bounds1] [b2 bounds2] [(Ht & Hb & Hc & Hw) Hbounds]. simpl in *.
  eapply (same_outcome_bind
            (λ st1 st2, length st1.1 = length st2.1 ∧ st1.2 = st2.2)).
  { apply same_outcome_for_each; [done|].
    intros [lxs1 lys1] [lxs2 lys2] row [Hlen Hys]. by apply split_line_same. }
  intros [lxs1 lys1] [lxs2 lys2] [Hlen Hys]. simpl in *.
  by split_and!.
Qed.

(** * More on the selection of clusters *)

(** ** Too few entries *)

Lemma node_list_short (stability : gmap Z R) :
  (base.size stability ≤ 1)%nat → node_list_of stability = [].
Proof.
  intros Hsize. destruct (node_list_snoc stability) as [[_ ->]|[least Hl]]; [done|].
  assert (length (merge_sort Z.ge (map_to_list stability).*1) = base.size stability) as Hlen.
  { by rewrite sorted_keys_Permutation, length_fmap, length_map_to_list. }
  rewrite Hl, length_app in Hlen. simpl in Hlen.
  destruct (node_list_of stability); [done|simpl in Hlen; lia].
Qed.

(** X9 (the least key is never a candidate).  [_select_clusters] drops the
    least key of the stability dictionary before it starts: from a
    dictionary with at most one entry nothing is selected, whatever the
    tree. *)
Theorem select_clusters_needs_two_entries (float_sum : list R → R)
    (fuel : nat) (_raw_tree : list edge)
    (stability : gmap Z R) :
  (base.size stability ≤ 1)%nat →
  _select_clusters float_sum fuel _raw_tree stability = Ret [].
Proof.
  intros Hsize. rewrite select_clusters_unfold, node_list_short by done.
  done.
Qed.

Lemma select_clusters_needs_two_entries_witness :
  _select_clusters np_sum 0 two_leaves {[ 5 := 1%R ]} = Ret [].
Proof.
  apply select_clusters_needs_two_entries. rewrite map_size_singleton. lia.
Defined.

(** ** A missing stability *)

Lemma for_each_fails_inv {S A} (body : S → A → outcome S) (J : S → Prop) x xs :
  x ∈ xs →
  (∀ st y st', J st → body st y = Ret st' → J st') →
  (∀ st st', J st → body st x ≠ Ret st') →
  ∀ st st', J st → for_each body st xs ≠ Ret st'.
Proof.
  intros Hx Hkeep Hfail. induction xs as [|y xs IH]; intros st st' Hst.
  { by apply not_elem_of_nil in Hx. }
  simpl. intros (st1 & Hy & Hrest)%bind_Ret_inv.
  apply elem_of_cons in Hx as [->|Hx]; [by eapply Hfail|].
  eapply IH; [done| |exact Hrest]. by eapply Hkeep.
Qed.

Lemma for_each_Raise_inv {S A} (body : S → A → outcome S) xs st e :
  for_each body st xs = Raise e → ∃ st0 x, x ∈ xs ∧ body st0 x = Raise e.
Proof.
  revert st. induction xs as [|x xs IH]; intros st; simpl; [done|].
  destruct (body st x) as [st1|e'|] eqn:Hx; simpl; [|intros [= ->]|done].
  - intros (st0 & x' & Hx' & Hraise)%IH. exists st0, x'. split; [by right|done].
  - exists st, x. split; [by left|done].
Qed.

Lemma mapM_getitem_Raise {V} (d : gmap Z V) l e :
  mapM (getitem d) l = Raise e → e = KeyError.
Proof.
  induction l as [|k l IH]; simpl; [done|].
  destruct (getitem d k) as [v|e'|] eqn:Hk; simpl; [| |done].
  - destruct (mapM (getitem d) l); simpl; [done| |done]. intros [= <-]. by apply IH.
  - intros [= <-]. unfold getitem in Hk. destruct (d !! k); by simplify_eq.
Qed.

Lemma mapM_getitem_not_timeout {V} (d : gmap Z V) l :
  mapM (getitem d) l ≠ OutOfFuel.
Proof.
  induction l as [|k l IH]; [done|]. simpl.
  apply bind_not_timeout; [apply getitem_not_timeout|]. intros v.
  by apply bind_not_timeout.
Qed.

Lemma bfs_cluster_loop_no_exception fuel tree acc tp e :
  bfs_cluster_loop fuel tree acc tp ≠ Raise e.
Proof.
  revert acc tp. induction fuel as [|fuel IH]; intros acc [|x tp]; simpl; by auto.
Qed.

Lemma select_node_Raise {float_sum} fuel ct st node e :
  select_node float_sum fuel ct st node = Raise e → e = KeyError.
Proof.
  destruct st as [cur isc]. unfold select_node, subtree_stability_of.
  destruct (mapM (getitem cur) (children_of ct node)) as [vs|e'|] eqn:Hvs; simpl;
    [|intros [= <-]; by eapply mapM_getitem_Raise|done].
  unfold getitem. destruct (cur !! node); simpl; [|by intros [= <-]].
  case_decide; [done|].
  destruct (_bfs_from_cluster_tree fuel ct node) as [sub| |] eqn:Hbfs; simpl; [done| |done].
  by apply bfs_cluster_loop_no_exception in Hbfs.
Qed.

Lemma select_node_keys {float_sum} fuel ct cur isc node cur' isc' k :
  select_node float_sum fuel ct (cur, isc) node = Ret (cur', isc') →
  cur !! k = None → cur' !! k = None.
Proof.
  unfold select_node.
  intros (sub & _ & (own & Hown%getitem_Ret_inv & Hrest)%bind_Ret_inv)%bind_Ret_inv Hk.
  case_decide.
  - injection Hrest as <- <-. rewrite lookup_insert_ne; [done|]. by intros ->; simplify_eq.
  - apply bind_Ret_inv in Hrest as (sub_nodes & _ & [= <- <-]). done.
Qed.

Lemma select_node_missing {float_sum} fuel ct cur isc node c st' :
  c ∈ children_of ct node → cur !! c = None →
  select_node float_sum fuel ct (cur, isc) node ≠ Ret st'.
Proof.
  intros Hc Hnone. unfold select_node, subtree_stability_of.
  intros (sub & (vs & Hvs%mapM_outcome_inv & _)%bind_Ret_inv & _)%bind_Ret_inv.
  apply list_elem_of_lookup in Hc as [i Hi].
  destruct (Forall2_lookup_l _ _ _ _ _ Hvs Hi) as (v & _ & Hv%getitem_Ret_inv).
  by rewrite Hnone in Hv.
Qed.

(** X10 (a missing stability).  [_select_clusters] looks up the stability of
    every cluster child of every node it visits.  When one of them has no
    entry, no selection is returned; the only exception that
    [_select_clusters] can raise at all is [KeyError], and on an acyclic
    cluster tree with enough fuel that is what happens. *)
Theorem select_clusters_missing_stability (float_sum : list R → R)
    (fuel : nat) (_raw_tree : list edge)
    (stability : gmap Z R) (node c : Z) :
  node ∈ node_list_of stability →
  c ∈ children_of (cluster_tree_of _raw_tree) node →
  stability !! c = None →
  (∀ chosen, _select_clusters float_sum fuel _raw_tree stability ≠ Ret chosen) ∧
  (∀ e, _select_clusters float_sum fuel _raw_tree stability = Raise e → e = KeyError) ∧
  (∀ rank, ranked rank (cluster_tree_of _raw_tree) →
           (rank_bound rank (cluster_tree_of _raw_tree) < fuel)%nat →
           _select_clusters float_sum fuel _raw_tree stability = Raise KeyError).
Proof.
  intros Hnode Hc Hnone. set (ct := cluster_tree_of _raw_tree) in *.
  assert (∀ chosen, _select_clusters float_sum fuel _raw_tree stability ≠ Ret chosen) as Hno.
  { intros chosen. rewrite select_clusters_unfold.
    intros ([cur isc] & Hloop & _)%bind_Ret_inv. revert Hloop.
    apply (for_each_fails_inv _ (λ st, st.1 !! c = None) node); [done| | |done].
    - intros [cur0 isc0] y [cur1 isc1] Hst Hy. by eapply select_node_keys.
    - intros [cur0 isc0] st' Hst. by eapply select_node_missing. }
  assert (∀ e, _select_clusters float_sum fuel _raw_tree stability = Raise e → e = KeyError)
    as Hkey.
  { intros e. rewrite select_clusters_unfold.
    destruct (for_each _ _ _) as [st|e'|] eqn:Hloop; simpl; [done| |done].
    intros [= <-]. apply for_each_Raise_inv in Hloop as (st0 & x & _ & Hx).
    by eapply select_node_Raise. }
  split_and!; [done..|]. intros rank Hrk Hfuel.
  destruct (_select_clusters float_sum fuel _raw_tree stability) as [chosen|e|] eqn:Hsel.
  - by destruct (Hno chosen).
  - by rewrite (Hkey e).
  - exfalso. revert Hsel. rewrite select_clusters_unfold.
    apply bind_not_timeout; [|done]. apply for_each_not_timeout.
    intros [cur isc] x. unfold select_node.
    apply bind_not_timeout.
    { unfold subtree_stability_of. apply bind_not_timeout; [|done].
      apply mapM_getitem_not_timeout. }
    intros sub. apply bind_not_timeout; [apply getitem_not_timeout|]. intros own.
    case_decide; [done|]. apply bind_not_timeout; [|done].
    by rewrite (bfs_cluster_returns rank).
Qed.

Lemma select_clusters_missing_stability_witness :
  (11 ∈ children_of (cluster_tree_of three_levels) 8) ∧
  (∀ chosen,
     _select_clusters np_sum 12 three_levels
       (<[7 := 9%R]> (<[8 := 1%R]> (<[9 := 3%R]> (<[10 := 1.5%R]> ∅)))) ≠ Ret chosen).
Proof.
  assert (11 ∈ children_of (cluster_tree_of three_levels) 8) as Hchild.
  { apply (bool_decide_unpack _). by vm_compute. }
  split; [done|].
  apply (select_clusters_missing_stability np_sum 12 three_levels _ 8 11).
  - apply node_list_spec. split; [by eexists|]. exists 7. split; [by eexists|lia].
  - done.
  - done.
Defined.

(** * The selected clusters cover the leaves *)

Section ordered_ids.
Context (ct : list edge).
Hypothesis Hord : ∀ r, r ∈ ct → 0 ≤ parent r < child r.

Lemma ordered_ranked : ranked id_rank ct.
Proof. intros r Hr. specialize (Hord r Hr). unfold id_rank. lia. Qed.

Lemma link_lt x y : link ct x y → 0 ≤ x < y.
Proof. intros (r & Hr & <- & <-). by apply Hord. Qed.

Lemma reachable_le x y : reachable ct x y → x ≤ y.
Proof.
  induction 1 as [|x w y Hxw _ IH]; [lia|]. apply link_lt in Hxw. lia.
Qed.
End ordered_ids.

Lemma sorted_prefix_before (l done : list Z) x c :
  StronglySorted Z.gt l → done ++ [x] `prefix_of` l → c ∈ l → c > x → c ∈ done.
Proof.
  intros Hsorted [rest ->] Hc Hgt.
  apply elem_of_app in Hc as [[Hc|Hc%list_elem_of_singleton]%elem_of_app|Hc];
    [done|lia|].
  pose proof (StronglySorted_app_1_elem_of Z.gt _ _ x c Hsorted) as Hxc.
  rewrite elem_of_app, list_elem_of_singleton in Hxc.
  specialize (Hxc (or_intror eq_refl) Hc). lia.
Qed.

Lemma sorted_prefix_after (l done : list Z) x k :
  StronglySorted Z.gt l → done ++ [x] `prefix_of` l → k ∈ l → k ∉ done ++ [x] → k < x.
Proof.
  intros Hsorted [rest ->] Hk Hnot.
  apply elem_of_app in Hk as [Hk|Hk]; [done|].
  pose proof (StronglySorted_app_1_elem_of Z.gt _ _ x k Hsorted) as Hxk.
  rewrite elem_of_app, list_elem_of_singleton in Hxk.
  specialize (Hxk (or_intror eq_refl) Hk). lia.
Qed.

Lemma sorted_prefix_fresh (l done : list Z) x :
  StronglySorted Z.gt l → done ++ [x] `prefix_of` l → x ∉ done.
Proof.
  intros Hsorted [rest ->] Hx.
  apply StronglySorted_app_1_l in Hsorted.
  pose proof (StronglySorted_app_1_elem_of Z.gt _ _ x x Hsorted Hx) as Hxx.
  rewrite list_elem_of_singleton in Hxx. specialize (Hxx eq_refl). lia.
Qed.

Lemma covering_loop float_sum ct (stability : gmap Z R) fuel :
  float_sum [] = 0%R →
  (∀ r, r ∈ ct → 0 ≤ parent r < child r) →
  (∀ k, is_Some (stability !! k) ↔ k ∈ nodes_of ct) →
  (∀ k v, stability !! k = Some v → (0 <= v)%R) →
  (rank_bound id_rank ct < fuel)%nat →
  ∃ st, for_each (select_node float_sum fuel ct)
          (stability, all_selected (node_list_of stability)) (node_list_of stability)
        = Ret st ∧
        covering ct stability (node_list_of stability) st.
Proof.
  intros Hnil0 Hord Hkeys Hpos Hfuel.
  pose proof (ordered_ranked ct Hord) as Hrk.
  pose proof (node_list_sorted stability) as Hsorted.
  assert (∀ c, c ∈ child <$> ct → is_Some (stability !! c)) as Hchild_key.
  { intros c Hc. apply Hkeys. unfold nodes_of.
    apply elem_of_remove_dups, elem_of_app. by right. }
  assert (∀ x c, link ct x c → c ∈ node_list_of stability) as Hchild_nl.
  { intros x c Hl. pose proof (link_lt ct Hord x c Hl).
    destruct Hl as (r & Hr & <- & <-). apply node_list_spec. split.
    - apply Hchild_key, list_elem_of_fmap. by exists r.
    - exists (parent r). split; [|lia]. apply Hkeys. unfold nodes_of.
      apply elem_of_remove_dups, elem_of_app. left.
      apply list_elem_of_fmap. by exists r. }
  apply for_each_invariant.
  { split_and!; simpl.
    - done.
    - intros k Hk _. rewrite all_selected_lookup. by rewrite decide_True.
    - by intros n y ?%not_elem_of_nil. }
  intros done x [cur isc] Hpre (Hdom & Htodo & Hcover). simpl in *.
  assert (x ∈ node_list_of stability) as Hx.
  { eapply elem_of_prefix; [|exact Hpre]. apply elem_of_app. right. by left. }
  pose proof (sorted_prefix_fresh _ _ _ Hsorted Hpre) as Hfresh.
  destruct (Htodo x Hx Hfresh) as [Hx_marked Hx_cur].
  destruct (proj1 (node_list_spec stability x) Hx) as [[own Hown] _].
  rewrite Hown in Hx_cur.
  destruct (subtree_stability_defined float_sum ct cur x) as (vs & Hvs & _).
  { intros c Hc. by apply Hdom, Hchild_key. }
  destruct (decide (float_sum vs > own)%R) as [Hgt|Hle].
  - eexists. split; [by eapply select_node_unselect|]. split_and!; simpl.
    + intros k. rewrite <-Hdom. destruct (decide (x = k)) as [->|Hne].
      * rewrite lookup_insert_eq. split; [by eauto|by eauto].
      * by rewrite lookup_insert_ne.
    + intros k Hk Hnot.
      assert (x ≠ k) as Hne.
      { intros ->. apply Hnot, elem_of_app. right. by left. }
      rewrite !lookup_insert_ne by done. apply Htodo; [done|].
      intros Hin. apply Hnot, elem_of_app. by left.
    + assert (∀ n y, n ∈ done → leaf_below ct n y →
                ∃ a, a ∈ done ++ [x] ∧ <[x:=false]> isc !! a = Some true ∧
                     reachable ct a y) as Hold.
      { intros n y Hn Hy. destruct (Hcover n y Hn Hy) as (a & Ha & Hmarked & Hay).
        exists a. split_and!; [apply elem_of_app; by left| |done].
        rewrite lookup_insert_ne; [done|]. by intros ->. }
      intros n y [Hn|Hn%list_elem_of_singleton]%elem_of_app Hy; [by eapply Hold|].
      subst n.
      destruct Hy as [Hxy Hleaf].
      assert (children_of ct x ≠ []) as Hchildren.
      { intros Hnil. rewrite Hnil in Hvs. apply Forall2_nil_inv_l in Hvs as ->.
        specialize (Hpos x own Hown). rewrite Hnil0 in Hgt. lra. }
      apply rtc_inv in Hxy as [->|(c & Hxc & Hcy)]; [done|].
      apply (Hold c y); [|done].
      apply (sorted_prefix_before _ _ x c Hsorted Hpre); [by eapply Hchild_nl|].
      apply (link_lt ct Hord) in Hxc. lia.
  - pose proof (bfs_cluster_returns id_rank ct x fuel Hrk Hfuel) as Hbfs.
    set (sub_nodes := sweep (children_in ct) (S (rank_bound id_rank ct)) [x]) in *.
    assert (∀ k, k ∈ sub_nodes ↔ reachable ct x k) as Hsub
      by (intros k; by apply (bfs_cluster_reach id_rank)).
    clearbody sub_nodes.
    eexists. split; [by eapply select_node_keep|]. split_and!; cbn [fst snd].
    + done.
    + intros k Hk Hnot. rewrite unmark_descendants_lookup.
      pose proof (sorted_prefix_after _ _ x k Hsorted Hpre Hk Hnot) as Hlt.
      rewrite decide_False.
      * apply Htodo; [done|]. intros Hin. apply Hnot, elem_of_app. by left.
      * intros [Hin%Hsub%(reachable_le ct Hord) _]. lia.
    + intros n y Hn Hy. destruct (decide (y ∈ sub_nodes)) as [Hin|Hout].
      * exists x. split_and!.
        -- apply elem_of_app. right. by left.
        -- rewrite unmark_descendants_lookup. rewrite decide_False; [done|].
           by intros [_ ?].
        -- by apply Hsub.
      * apply elem_of_app in Hn as [Hn|Hn%list_elem_of_singleton].
        2:{ subst n. destruct Hy as [Hxy _]. by apply Hsub in Hxy. }
        destruct (Hcover n y Hn Hy) as (a & Ha & Hmarked & Hay).
        exists a. split_and!; [apply elem_of_app; by left| |done].
        rewrite unmark_descendants_lookup. rewrite decide_False; [done|].
        intros [Hxa%Hsub _]. apply Hout, Hsub. by etrans.
Qed.

(** X11 (the selection covers the leaves).  Let the cluster ids grow from
    parent to child, let the stability dictionary have one entry, not
    negative, for every node of the cluster tree, let the sum of no
    stabilities be zero, and let there be enough fuel.  Then [_select_clusters] returns a selection in which every leaf
    of the cluster tree lies in or below a selected cluster; on a forest it
    lies in or below exactly one. *)
Theorem select_clusters_covers_leaves (float_sum : list R → R) (fuel : nat)
    (_raw_tree : list edge) (stability : gmap Z R) :
  float_sum [] = 0%R →
  (∀ r, r ∈ cluster_tree_of _raw_tree → 0 ≤ parent r < child r) →
  (∀ k, is_Some (stability !! k) ↔ k ∈ nodes_of (cluster_tree_of _raw_tree)) →
  (∀ k v, stability !! k = Some v → (0 <= v)%R) →
  (rank_bound id_rank (cluster_tree_of _raw_tree) < fuel)%nat →
  ∃ chosen,
    _select_clusters float_sum fuel _raw_tree stability = Ret chosen ∧
    (∀ y, y ∈ child <$> cluster_tree_of _raw_tree →
          children_of (cluster_tree_of _raw_tree) y = [] →
          ∃ a, a ∈ chosen ∧ reachable (cluster_tree_of _raw_tree) a y) ∧
    (one_parent (cluster_tree_of _raw_tree) →
     ∀ a a' y, a ∈ chosen → a' ∈ chosen →
               reachable (cluster_tree_of _raw_tree) a y →
               reachable (cluster_tree_of _raw_tree) a' y → a = a').
Proof.
  intros Hnil0 Hord Hkeys Hpos Hfuel. set (ct := cluster_tree_of _raw_tree) in *.
  pose proof (ordered_ranked ct Hord) as Hrk.
  assert (∀ c, c ∈ child <$> ct → is_Some (stability !! c)) as Hchild_key.
  { intros c Hc. apply Hkeys. unfold nodes_of.
    apply elem_of_remove_dups, elem_of_app. by right. }
  destruct (covering_loop float_sum ct stability fuel Hnil0 Hord Hkeys Hpos Hfuel)
    as ([cur isc] & Hloop & _ & _ & Hcover).
  destruct (select_loop float_sum id_rank ct stability fuel Hrk Hfuel Hchild_key)
    as (st' & Hloop' & Hsel & Hanti).
  rewrite Hloop in Hloop'. injection Hloop' as <-. simpl in *.
  exists (selected (node_list_of stability) isc). split_and!.
  - rewrite select_clusters_unfold. fold ct. by rewrite Hloop.
  - intros y (r & -> & Hr)%list_elem_of_fmap Hleaf.
    destruct (Hcover (child r) (child r)) as (a & _ & Hmarked & Hay).
    + apply node_list_spec. split.
      * apply Hchild_key, list_elem_of_fmap. by exists r.
      * exists (parent r). split; [|specialize (Hord r Hr); lia].
        apply Hkeys. unfold nodes_of. apply elem_of_remove_dups, elem_of_app.
        left. apply list_elem_of_fmap. by exists r.
    + by split.
    + exists a. split; [|done]. apply selected_spec. split; [|done]. by apply Hsel.
  - intros Hone a a' y [_ Ha]%selected_spec [_ Ha']%selected_spec Hay Ha'y.
    destruct (decide (a = a')) as [|Hne]; [done|]. exfalso.
    destruct (ancestors_chain ct Hone a a' y Hay Ha'y) as [Haa'|Ha'a].
    + apply (Hanti a (Hsel a Ha) Ha a'); [|done].
      apply (strict_descendant_reachable id_rank); [done|]. by split.
    + apply (Hanti a' (Hsel a' Ha') Ha' a); [|done].
      apply (strict_descendant_reachable id_rank); [done|]. by split.
Qed.

Lemma three_levels_ordered :
  ∀ r, r ∈ cluster_tree_of three_levels → 0 ≤ parent r < child r.
Proof.
  apply Forall_forall. rewrite three_levels_cluster_tree.
  apply (bool_decide_unpack _). by vm_compute.
Qed.

Lemma three_levels_stability_nonneg k v :
  three_levels_stability !! k = Some v → (0 <= v)%R.
Proof.
  unfold three_levels_stability. intros Hkv.
  repeat (apply lookup_insert_Some in Hkv as [[_ <-]|[_ Hkv]]; [lra|]).
  by rewrite lookup_empty in Hkv.
Qed.

Lemma select_clusters_covers_leaves_witness :
  ∃ chosen,
    _select_clusters np_sum 12 three_levels three_levels_stability = Ret chosen ∧
    (∀ y, y ∈ child <$> cluster_tree_of three_levels →
          children_of (cluster_tree_of three_levels) y = [] →
          ∃ a, a ∈ chosen ∧ reachable (cluster_tree_of three_levels) a y).
Proof.
  destruct (select_clusters_covers_leaves np_sum 12 three_levels three_levels_stability)
    as (chosen & Hret & Hcover & _).
  - done.
  - exact three_levels_ordered.
  - exact three_levels_stability_keys.
  - exact three_levels_stability_nonneg.
  - rewrite three_levels_rank_bound. lia.
  - by exists chosen.
Defined.

(** * More on the plot methods *)

(** ** Computations with a trace *)

Lemma effect_bind_Ret {A B} (m : effect A) (f : A → effect B) a :
  value m = Ret a → m ≫= f = Effect (trace m ++ trace (f a)) (value (f a)).
Proof. intros Hm. unfold mbind, effect_bind. by rewrite Hm. Qed.

Lemma effect_bind_Raise {A B} (m : effect A) (f : A → effect B) e :
  value m = Raise e → m ≫= f = Effect (trace m) (Raise e).
Proof. intros Hm. unfold mbind, effect_bind. by rewrite Hm. Qed.

Lemma effect_Ret_inv {A B} (m : effect A) (f : A → effect B) b :
  value (m ≫= f) = Ret b → ∃ a, value m = Ret a ∧ value (f a) = Ret b.
Proof.
  unfold mbind, effect_bind. destruct (value m) as [a| |]; simpl; [|done..].
  intros Hb. by exists a.
Qed.

Lemma effect_trace_prefix {A B} (m : effect A) (f : A → effect B) :
  trace m `prefix_of` trace (m ≫= f).
Proof.
  unfold mbind, effect_bind. destruct (value m) as [a| |]; simpl; [|done..].
  by eexists.
Qed.

Lemma axis_or_gca_value axis :
  value (axis_or_gca axis) = Ret (default CurrentAxes axis).
Proof. by destruct axis. Qed.

Lemma for_each_effect_emit {A} (ev : A → event) (xs : list A) :
  for_each_effect (λ x, emit (ev x)) xs = Effect (ev <$> xs) (Ret ()).
Proof.
  induction xs as [|x xs IH]; [done|]. simpl. rewrite IH. done.
Qed.

(** ** The icicle plot *)

Section condensed_tree_plot.
Context (log_shrink : running_size → Z → running_size) (float_sum : list R → R)
        (env : environment) (recursion_limit fuel : nat) (_raw_tree : list edge)
        (stability : gmap Z R) (leaf_separation : R).

(** X12 (a colorbar needs a colormap).  [sm] is bound only when [cmap] is
    not ['none'], and [plt.colorbar(sm)] is reached whenever [colorbar] is
    true, which is the default.  So with [cmap='none'] and [colorbar=True]
    [CondensedTree.plot] never returns an axis; when matplotlib is there,
    the layout is computed and no clusters are to be selected, it raises
    [NameError] after the bars have been drawn. *)
Theorem plot_colorbar_needs_cmap (select_clusters label_clusters : bool)
    (axis : option axes) (log_size : bool) :
  (∀ a, value (CondensedTree.plot log_shrink float_sum env recursion_limit fuel _raw_tree stability leaf_separation
                 "none" select_clusters label_clusters axis true log_size) ≠ Ret a) ∧
  (has_pyplot env = true → select_clusters = false →
   ∀ pd, CondensedTree.get_plot_data log_shrink recursion_limit _raw_tree leaf_separation log_size = Ret pd →
     value (CondensedTree.plot log_shrink float_sum env recursion_limit fuel _raw_tree stability leaf_separation
              "none" select_clusters label_clusters axis true log_size)
       = Raise NameError ∧
     Call "axis.bar" ∈
       trace (CondensedTree.plot log_shrink float_sum env recursion_limit fuel _raw_tree stability leaf_separation
                "none" select_clusters label_clusters axis true log_size)).
Proof.
  split.
  - intros a. unfold CondensedTree.plot.
    intros (? & _ & (pd & _ & Hdraw)%effect_Ret_inv)%effect_Ret_inv.
    unfold CondensedTree.draw in Hdraw.
    rewrite decide_False in Hdraw by (by intros ?).
    apply effect_Ret_inv in Hdraw as (sm & Hsm & Hdraw).
    injection Hsm as <-.
    apply effect_Ret_inv in Hdraw as (ax & _ & Hdraw).
    apply effect_Ret_inv in Hdraw as (? & _ & Hdraw).
    apply effect_Ret_inv in Hdraw as (? & _ & Hdraw).
    apply effect_Ret_inv in Hdraw as (? & _ & Hdraw).
    apply effect_Ret_inv in Hdraw as (? & Hcolorbar & _).
    by apply effect_Ret_inv in Hcolorbar as (? & ? & _).
  - intros Hplt -> pd Hpd. unfold CondensedTree.plot, import_or_raise.
    rewrite Hplt, effect_bind_ret, Hpd.
    rewrite (effect_bind_Ret (lift (Ret pd)) _ pd) by done.
    unfold CondensedTree.draw. rewrite decide_False by (by intros ?).
    rewrite effect_bind_ret.
    rewrite (effect_bind_Ret (axis_or_gca axis) _ _ (axis_or_gca_value axis)).
    rewrite for_each_effect_emit. cbn. split; [done|].
    rewrite !elem_of_app, !elem_of_cons. auto.
Qed.

(** X13 (the patches are imported late).  [matplotlib.patches] is imported
    only when [select_clusters] is set, after the bars and the connectors
    have been drawn.  When it is missing, [CondensedTree.plot] raises
    [ImportError] with the bars already on the axis and no ellipse
    drawn. *)
Theorem plot_imports_patches_late (cmap : string) (label_clusters : bool)
    (axis : option axes) (colorbar log_size : bool) (pd : plot_data) :
  has_pyplot env = true → has_patches env = false →
  CondensedTree.get_plot_data log_shrink recursion_limit _raw_tree leaf_separation log_size = Ret pd →
  cmap = "none" ∨ bar_widths pd ≠ [] →
  value (CondensedTree.plot log_shrink float_sum env recursion_limit fuel _raw_tree stability leaf_separation
           cmap true label_clusters axis colorbar log_size) = Raise ImportError ∧
  Call "axis.bar" ∈
    trace (CondensedTree.plot log_shrink float_sum env recursion_limit fuel _raw_tree stability leaf_separation
             cmap true label_clusters axis colorbar log_size) ∧
  Call "Ellipse" ∉
    trace (CondensedTree.plot log_shrink float_sum env recursion_limit fuel _raw_tree stability leaf_separation
             cmap true label_clusters axis colorbar log_size).
Proof.
  intros Hplt Hpatches Hpd Hcmap. unfold CondensedTree.plot, import_or_raise.
  rewrite Hplt, effect_bind_ret, Hpd.
  rewrite (effect_bind_Ret (lift (Ret pd)) _ pd) by done.
  unfold CondensedTree.draw, import_or_raise. rewrite Hpatches.
  assert (∃ t sm,
    (if decide (cmap ≠ "none")
     then _ ← lift (match bar_widths pd with
                    | [] => Raise ValueError
                    | _ :: _ => Ret ()
                    end);
          _ ← emit (Call "plt.cm.ScalarMappable"); mret true
     else mret false) = Effect t (Ret sm) ∧
    Call "Ellipse" ∉ t) as (t & sm & -> & Ht).
  { case_decide as Hc.
    - destruct Hcmap as [->|Hw]; [done|].
      destruct (bar_widths pd); [done|]. eexists _, _. split; [done|]. cbn.
      no_warn.
    - eexists _, _. split; [done|]. cbn. no_warn. }
  rewrite (effect_bind_Ret (Effect t (Ret sm)) _ sm) by done.
  rewrite (effect_bind_Ret (axis_or_gca axis) _ _ (axis_or_gca_value axis)).
  rewrite for_each_effect_emit. cbn. split_and!; [done| |].
  - rewrite !elem_of_app, !elem_of_cons. auto.
  - intros Hin.
    repeat (first [apply elem_of_app in Hin as [Hin|Hin]
                  |apply elem_of_cons in Hin as [Hin|Hin]]);
      try done.
    all: try (by apply elem_of_nil in Hin).
    all: try (by apply list_elem_of_fmap in Hin as (? & ? & _)).
    all: destruct axis; cbn in Hin.
    all: repeat (apply elem_of_cons in Hin as [Hin|Hin]; [done|]).
    all: by apply elem_of_nil in Hin.
Qed.

(** X14 (what a returned axis tells).  When [CondensedTree.plot] returns,
    it returns the axis it was given, or the current axis of matplotlib
    when it was given none; matplotlib could be imported, and so could its
    patches if clusters were to be selected; a colorbar was asked for only
    with a colormap; and [get_plot_data] has returned a layout. *)
Theorem plot_returns_its_axis (cmap : string)
    (select_clusters label_clusters : bool) (axis : option axes)
    (colorbar log_size : bool) (a : axes) :
  value (CondensedTree.plot log_shrink float_sum env recursion_limit fuel _raw_tree stability leaf_separation
           cmap select_clusters label_clusters axis colorbar log_size) = Ret a →
  a = default CurrentAxes axis ∧
  has_pyplot env = true ∧
  (select_clusters = true → has_patches env = true) ∧
  (colorbar = true → cmap ≠ "none") ∧
  ∃ pd, CondensedTree.get_plot_data log_shrink recursion_limit _raw_tree leaf_separation log_size = Ret pd.
Proof.
  unfold CondensedTree.plot.
  intros (? & Himport & (pd & Hpd & Hdraw)%effect_Ret_inv)%effect_Ret_inv.
  unfold CondensedTree.draw in Hdraw.
  apply effect_Ret_inv in Hdraw as (sm & Hsm & Hdraw).
  apply effect_Ret_inv in Hdraw as (ax & Hax & Hdraw).
  rewrite axis_or_gca_value in Hax. injection Hax as <-.
  apply effect_Ret_inv in Hdraw as (? & _ & Hdraw).
  apply effect_Ret_inv in Hdraw as (? & _ & Hdraw).
  apply effect_Ret_inv in Hdraw as (? & Hselect & Hdraw).
  apply effect_Ret_inv in Hdraw as (? & Hcolorbar & Hdraw).
  apply effect_Ret_inv in Hdraw as (? & _ & Hdraw).
  apply effect_Ret_inv in Hdraw as (? & _ & Hdraw).
  apply effect_Ret_inv in Hdraw as (? & _ & Hdraw).
  injection Hdraw as <-. split_and!.
  - done.
  - unfold import_or_raise in Himport. by destruct (has_pyplot env).
  - intros ->. apply effect_Ret_inv in Hselect as (? & Hpatches & _).
    unfold import_or_raise in Hpatches. by destruct (has_patches env).
  - intros -> ->. rewrite decide_False in Hsm by (by intros ?).
    injection Hsm as <-.
    by apply effect_Ret_inv in Hcolorbar as (? & ? & _).
  - by exists pd.
Qed.
Lemma plot_plain_returns (label_clusters : bool) (axis : option axes)
    (log_size : bool) (pd : plot_data) :
  has_pyplot env = true →
  CondensedTree.get_plot_data log_shrink recursion_limit _raw_tree leaf_separation log_size = Ret pd →
  value (CondensedTree.plot log_shrink float_sum env recursion_limit fuel _raw_tree stability leaf_separation
           "none" false label_clusters axis false log_size)
    = Ret (default CurrentAxes axis).
Proof.
  intros Hplt Hpd. unfold CondensedTree.plot, import_or_raise.
  rewrite Hplt, effect_bind_ret, Hpd.
  rewrite (effect_bind_Ret (lift (Ret pd)) _ pd) by done.
  unfold CondensedTree.draw. rewrite decide_False by (by intros ?).
  rewrite effect_bind_ret.
  rewrite (effect_bind_Ret (axis_or_gca axis) _ _ (axis_or_gca_value axis)).
  by rewrite for_each_effect_emit.
Qed.
End condensed_tree_plot.

Lemma plot_colorbar_needs_cmap_witness :
  ∃ pd, CondensedTree.get_plot_data exact_log_shrink 2 two_leaves 1 false = Ret pd ∧
        value (CondensedTree.plot exact_log_shrink np_sum with_matplotlib 2 2 two_leaves ∅ 1
                 "none" false false None true false) = Raise NameError.
Proof.
  destruct (two_leaves_layout false) as [pd Hpd]. exists pd. split; [done|].
  apply (proj2 (plot_colorbar_needs_cmap exact_log_shrink np_sum with_matplotlib 2 2 two_leaves ∅ 1
                  false false None false) eq_refl eq_refl pd Hpd).
Defined.

Lemma plot_imports_patches_late_witness :
  ∃ pd, CondensedTree.get_plot_data exact_log_shrink 2 two_leaves 1 false = Ret pd ∧
        value (CondensedTree.plot exact_log_shrink np_sum without_patches 2 2 two_leaves ∅ 1
                 "none" true false None false false) = Raise ImportError.
Proof.
  destruct (two_leaves_layout false) as [pd Hpd]. exists pd. split; [done|].
  apply (plot_imports_patches_late exact_log_shrink np_sum without_patches 2 2 two_leaves ∅ 1
           "none" false None false false pd eq_refl eq_refl Hpd).
  by left.
Defined.

Lemma plot_returns_its_axis_witness :
  ∃ a, value (CondensedTree.plot exact_log_shrink np_sum with_matplotlib 2 2 two_leaves ∅ 1
                "none" false false (Some (GivenAxes 0)) false false) = Ret a ∧
       a = GivenAxes 0.
Proof.
  destruct (two_leaves_layout false) as [pd Hpd].
  pose proof (plot_plain_returns exact_log_shrink np_sum with_matplotlib 2 2 two_leaves ∅ 1
                false (Some (GivenAxes 0)) false pd eq_refl Hpd) as Hret.
  exists (GivenAxes 0). split; [exact Hret|].
  apply (plot_returns_its_axis exact_log_shrink np_sum with_matplotlib 2 2 two_leaves ∅ 1
           "none" false false (Some (GivenAxes 0)) false false _ Hret).
Defined.

(** ** The plot of the minimum spanning tree *)

Lemma line_coords_Ret projection mst :
  MinimumSpanningTree.line_coords projection mst = Ret () ↔
  Forall (λ e, row_index projection (mst_from e) ∧ row_index projection (mst_to e)) mst.
Proof.
  unfold MinimumSpanningTree.line_coords, row_index.
  induction mst as [|e mst IH]; [by split; [constructor|]|].
  rewrite Forall_cons, <-IH. cbn [fmap list_fmap concat app for_each].
  destruct (decide (- shape0 projection ≤ mst_from e < shape0 projection));
    [|split; [done|by intros [[? ?] _]]].
  cbn. destruct (decide (- shape0 projection ≤ mst_to e < shape0 projection));
    [|split; [done|by intros [[? ?] _]]].
  cbn. split; [done|by intros [_ ?]].
Qed.

Lemma line_coords_Raise projection mst e :
  MinimumSpanningTree.line_coords projection mst = Raise e → e = IndexError.
Proof.
  unfold MinimumSpanningTree.line_coords.
  intros (? & i & _ & Hi)%for_each_Raise_inv.
  case_decide; [done|]. by injection Hi.
Qed.

Lemma project_value sklearn data :
  value (MinimumSpanningTree.project sklearn data) = projected sklearn data.
Proof.
  unfold MinimumSpanningTree.project, projected.
  destruct (decide (2 < shape1 data)); [|done].
  destruct (decide (32 < shape1 data)).
  - destruct (pca_fit_transform sklearn data) as [reduced| |]; [|done..].
    cbn. by destruct (tsne_fit_transform sklearn reduced).
  - cbn. by destruct (tsne_fit_transform sklearn data).
Qed.

(** The calls of the projection: PCA on more than 32 columns, then t-SNE,
    unless PCA has raised. *)
Lemma project_calls sklearn data :
  trace (MinimumSpanningTree.project sklearn data) =
    (if decide (32 < shape1 data) then [Call "PCA.fit_transform"] else []) ++
    (if decide (2 < shape1 data) then
       match (if decide (32 < shape1 data)
              then pca_fit_transform sklearn data else Ret data) with
       | Ret _ => [Call "TSNE.fit_transform"]
       | _ => []
       end
     else []).
Proof.
  unfold MinimumSpanningTree.project.
  destruct (decide (2 < shape1 data)).
  - destruct (decide (32 < shape1 data)).
    + destruct (pca_fit_transform sklearn data) as [reduced| |]; [|done..].
      cbn. by destruct (tsne_fit_transform sklearn reduced).
    + cbn. by destruct (tsne_fit_transform sklearn data).
  - by rewrite decide_False by lia.
Qed.

Lemma project_only_projects sklearn data e :
  e ∈ trace (MinimumSpanningTree.project sklearn data) →
  e ∈ [Call "PCA.fit_transform"; Call "TSNE.fit_transform"].
Proof.
  rewrite project_calls.
  repeat case_decide; try destruct (pca_fit_transform sklearn data); set_solver.
Qed.

Lemma trace_bind_Ret {A B} (m : effect A) (f : A → effect B) a e :
  value m = Ret a → e ∈ trace (m ≫= f) ↔ e ∈ trace m ∨ e ∈ trace (f a).
Proof. intros Hm. rewrite (effect_bind_Ret m f a Hm). cbn. apply elem_of_app. Qed.

Lemma trace_bind_stop {A B} (m : effect A) (f : A → effect B) e :
  (∀ a, value m ≠ Ret a) → e ∈ trace (m ≫= f) ↔ e ∈ trace m.
Proof.
  intros Hm. unfold mbind, effect_bind.
  destruct (value m) as [a| |]; [by destruct (Hm a)|done..].
Qed.

Section mst_plot.
Context (env : environment) (sklearn : projector) (self : MinimumSpanningTree.t).
Hypothesis Hplt : has_pyplot env = true.
Hypothesis Hcoll : has_collections env = true.
Hypothesis Hsize : shape0 (MinimumSpanningTree._data self) ≤ 32767.

Lemma mst_plot_unfold axis vary_linewidth colorbar :
  MinimumSpanningTree.plot env sklearn self axis vary_linewidth colorbar =
    (axis ← axis_or_gca axis;
     projection ← MinimumSpanningTree.project sklearn (MinimumSpanningTree._data self);
     draw_mst self axis vary_linewidth colorbar projection).
Proof.
  unfold MinimumSpanningTree.plot, import_or_raise. rewrite Hplt, Hcoll. cbn [andb].
  rewrite effect_bind_ret. by rewrite decide_False by lia.
Qed.

(** Drawing does not project. *)
Lemma draw_mst_calls axis vary_linewidth colorbar projection e :
  e ∈ trace (draw_mst self axis vary_linewidth colorbar projection) →
  e ∈ [Call "LineCollection"; Call "axis.add_artist"; Call "axis.scatter";
       Call "axis.set_xticks"; Call "axis.set_yticks"; Call "plt.colorbar"].
Proof.
  unfold draw_mst. intros He.
  repeat (apply trace_bind in He as [He|(? & _ & He)]);
    try destruct colorbar; cbn in He;
    first [by apply elem_of_nil in He
          |apply list_elem_of_singleton in He as ->; set_solver].
Qed.

Lemma mst_plot_calls axis vary_linewidth colorbar e :
  e ∈ [Call "PCA.fit_transform"; Call "TSNE.fit_transform"] →
  e ∈ trace (MinimumSpanningTree.plot env sklearn self axis vary_linewidth colorbar) ↔
  e ∈ trace (MinimumSpanningTree.project sklearn (MinimumSpanningTree._data self)).
Proof.
  intros He. rewrite mst_plot_unfold.
  rewrite (trace_bind_Ret _ _ _ _ (axis_or_gca_value axis)).
  assert (e ∉ trace (axis_or_gca axis)) as Hgca.
  { intros ->%axis_or_gca_trace. set_solver. }
  split.
  - intros [?|Hin]; [done|].
    apply trace_bind in Hin as [?|(p & _ & Hin%draw_mst_calls)]; [done|].
    exfalso. set_solver.
  - intros Hin. right. eapply elem_of_prefix; [exact Hin|apply effect_trace_prefix].
Qed.


End mst_plot.

Lemma small_mst_size : shape0 (MinimumSpanningTree._data small_mst) ≤ 32767.
Proof. simpl. lia. Qed.



(** * Condensed trees for which a layout is returned *)

Lemma py_dict_keys {V} (pairs : list (Z * V)) k :
  is_Some (py_dict pairs !! k) ↔ k ∈ pairs.*1.
Proof.
  induction pairs as [|[k' v] pairs IH] using rev_ind.
  - unfold py_dict. simpl. rewrite lookup_empty. split; [by intros [??]|].
    by intros ?%not_elem_of_nil.
  - rewrite py_dict_snoc, fmap_app, elem_of_app, lookup_insert_is_Some', IH.
    simpl. rewrite list_elem_of_singleton. split; intros [?|?]; auto.
Qed.

Lemma seqZ_Sorted m n : Sorted Z.lt (seqZ m n).
Proof.
  remember (Z.to_nat n) as k eqn:Hk. revert m n Hk.
  induction k as [|k IH]; intros m n Hk.
  - rewrite seqZ_nil by lia. constructor.
  - rewrite seqZ_cons by lia. constructor; [apply IH; lia|].
    destruct (decide (0 < Z.pred n)).
    + rewrite seqZ_cons by lia. constructor. lia.
    + rewrite seqZ_nil by lia. constructor.
Qed.

Lemma range_down_sorted start stop : StronglySorted Z.gt (range_down start stop).
Proof.
  unfold range_down.
  assert (StronglySorted (flip Z.lt) (reverse (seqZ (stop + 1) (start - stop)))) as Hs.
  { apply Sorted_StronglySorted; [intros x y z; unfold flip; lia|].
    apply Sorted_reverse, seqZ_Sorted. }
  induction Hs as [|x l _ IH Hx]; constructor; [done|].
  eapply Forall_impl; [exact Hx|]. unfold flip. intros; lia.
Qed.

Lemma split_of_elem _raw_tree c r :
  r ∈ split_of _raw_tree c ↔ r ∈ cluster_tree_of _raw_tree ∧ parent r = c.
Proof.
  unfold split_of, cluster_tree_of. rewrite !list_elem_of_filter. tauto.
Qed.

Lemma cluster_tree_in_raw _raw_tree r :
  r ∈ cluster_tree_of _raw_tree → r ∈ _raw_tree.
Proof. unfold cluster_tree_of. by intros [_ ?]%list_elem_of_filter. Qed.

Lemma np_min_nonempty l : l ≠ [] → ∃ m, np_min l = Ret m.
Proof.
  intros Hl. destruct (np_min l) as [m|e|] eqn:Hmin; [by eexists| |].
  - unfold np_min in Hmin. by destruct l.
  - by apply np_min_not_timeout in Hmin.
Qed.

(** What the layout needs of a binary condensed tree, on the pruned tree. *)
Lemma binary_condensed_model _raw_tree root last_leaf :
  binary_condensed _raw_tree root last_leaf →
  np_min (parent <$> _raw_tree) = Ret root ∧
  np_max (parent <$> _raw_tree) = Ret last_leaf ∧
  cluster_tree_of _raw_tree ≠ [] ∧
  rooted_at root (cluster_tree_of _raw_tree) ∧
  one_parent (cluster_tree_of _raw_tree) ∧
  (∀ r, r ∈ cluster_tree_of _raw_tree → 0 ≤ parent r < child r) ∧
  (∀ c, c ∈ child <$> cluster_tree_of _raw_tree → c ∈ parent <$> _raw_tree) ∧
  (∀ p, p ∈ parent <$> _raw_tree →
        p = root ∨ p ∈ child <$> cluster_tree_of _raw_tree) ∧
  (∀ c, root ≤ c ≤ last_leaf → c ∈ parent <$> _raw_tree) ∧
  (∀ c, length (split_of _raw_tree c) = 0%nat ∨ length (split_of _raw_tree c) = 2%nat) ∧
  (rank_bound id_rank (cluster_tree_of _raw_tree) - id_rank root
   ≤ Z.to_nat (last_leaf - root))%nat.
Proof.
  intros (Hroot & [r0 Hr0] & Hrange & Hcontig & Hord & Hchild & Hone & Hbinary).
  assert (∀ r, r ∈ cluster_tree_of _raw_tree → r ∈ _raw_tree) as Hraw.
  { intros r Hr. by apply list_elem_of_filter in Hr as [_ ?]. }
  pose proof (Hrange r0 (Hraw r0 Hr0)) as Hr0range.
  assert (∀ r, r ∈ cluster_tree_of _raw_tree →
            cluster_link _raw_tree (parent r) (child r)) as Hlink.
  { intros r Hr. apply cluster_link_spec. by exists r. }
  split_and!.
  - apply np_min_spec. split; [apply Hcontig; lia|].
    intros p (r & -> & Hr)%list_elem_of_fmap. by apply Hrange.
  - apply np_max_spec. split; [apply Hcontig; lia|].
    intros p (r & -> & Hr)%list_elem_of_fmap. by apply Hrange.
  - intros Hnil. rewrite cluster_tree_edges in Hnil. rewrite Hnil in Hr0.
    by apply not_elem_of_nil in Hr0.
  - intros r Hr. pose proof (Hrange r (Hraw r Hr)).
    destruct (decide (parent r = root)) as [|Hne]; [by left|right].
    destruct (Hchild (parent r)) as [x (r' & Hr' & _ & <-)%cluster_link_spec]; [lia|].
    apply list_elem_of_fmap. by exists r'.
  - done.
  - intros r Hr. pose proof (Hrange r (Hraw r Hr)). pose proof (Hord _ _ (Hlink r Hr)). lia.
  - intros c (r & -> & Hr)%list_elem_of_fmap.
    pose proof (Hrange r (Hraw r Hr)). pose proof (Hord _ _ (Hlink r Hr)).
    apply Hcontig. lia.
  - intros p (r & -> & Hr)%list_elem_of_fmap. pose proof (Hrange r Hr).
    destruct (decide (parent r = root)) as [|Hne]; [by left|right].
    destruct (Hchild (parent r)) as [x (r' & Hr' & _ & <-)%cluster_link_spec]; [lia|].
    apply list_elem_of_fmap. by exists r'.
  - done.
  - done.
  - assert (rank_bound id_rank (cluster_tree_of _raw_tree) < S (Z.to_nat last_leaf))%nat
      as Hbound.
    { apply rank_bound_lt; [lia|]. intros r Hr.
      pose proof (Hord _ _ (Hlink r Hr)). unfold id_rank. lia. }
    change (id_rank root) with (Z.to_nat root). lia.
Qed.

Section binary_condensed.
Context (log_shrink : running_size → Z → running_size).
Context (_raw_tree : list edge) (root last_leaf : Z).
Hypothesis Hbinary : binary_condensed _raw_tree root last_leaf.

Local Abbreviation ct := (cluster_tree_of _raw_tree).

Lemma binary_root_least : np_min (parent <$> ct) = Ret root.
Proof.
  destruct (binary_condensed_model _ _ _ Hbinary)
    as (_ & _ & Hne & Hrooted & _ & Hord & _).
  destruct (np_min_nonempty (parent <$> ct)) as [m Hm].
  { intros Hnil%fmap_nil_inv. done. }
  rewrite Hm. f_equal.
  apply np_min_spec in Hm as [(r & -> & Hr)%list_elem_of_fmap Hleast].
  destruct (Hrooted r Hr) as [?|(r' & Hr'eq & Hr')%list_elem_of_fmap]; [done|].
  pose proof (Hord r' Hr'). rewrite <-Hr'eq in *.
  assert (parent r' ∈ parent <$> ct) as Hin.
  { apply list_elem_of_fmap. by exists r'. }
  specialize (Hleast _ Hin). lia.
Qed.

Lemma binary_leaf c :
  c ∈ child <$> ct → length (split_of _raw_tree c) = 0%nat →
  leaf_below ct root c.
Proof.
  destruct (binary_condensed_model _ _ _ Hbinary)
    as (_ & _ & _ & Hrooted & _ & Hord & _).
  intros Hc Hlen. split.
  - apply (rooted_reachable id_rank); [by apply ordered_ranked|done| |].
    + pose proof binary_root_least as [? _]%np_min_spec. done.
    + unfold nodes_of. rewrite elem_of_remove_dups, elem_of_app. by right.
  - unfold children_of.
    rewrite split_of_cluster_tree. by apply nil_length_inv in Hlen as ->.
Qed.

(** The first loop of [get_plot_data] finds the coordinates of every
    cluster. *)
Lemma binary_coords recursion_limit leaf_separation :
  (Z.to_nat (last_leaf - root) < recursion_limit)%nat →
  ∃ x y, cluster_coords recursion_limit _raw_tree leaf_separation = Ret (x, y) ∧
         ∀ c, root ≤ c ≤ last_leaf → is_Some (x !! c) ∧ is_Some (y !! c).
Proof.
  intros Hlimit. pose proof binary_root_least as Hroot.
  pose proof binary_leaf as Hleaf.
  destruct (binary_condensed_model _ _ _ Hbinary)
    as (Hmin & Hmax & Hne & Hrooted & Hone & Hord & Hrows & Hparents
        & Hcontig & Hsplits & Hdepth).
  destruct (dfs_correct id_rank ct (ordered_ranked ct Hord) Hone recursion_limit root)
    as (leaves & Hdfs & _ & Hleaves); [lia|].
  unfold cluster_coords.
  rewrite (get_leaves_unfold _ _ root) by done. rewrite Hdfs, Hmax, Hmin.
  cbn [mbind outcome_bind].
  set (x0 := py_dict _). set (y0 := ({[ root := 0%R ]} : gmap Z R)).
  destruct (for_each_invariant (place_cluster _raw_tree)
    (λ done (st : gmap Z R * gmap Z R),
       (∀ k, leaf_below ct root k → is_Some (st.1 !! k)) ∧
       (∀ k, k ∈ done → length (split_of _raw_tree k) = 2%nat → is_Some (st.1 !! k)) ∧
       is_Some (st.2 !! root) ∧
       (∀ r, r ∈ ct → parent r ∈ done → is_Some (st.2 !! child r)))
    (range_down last_leaf (root - 1)) (x0, y0)) as ([x y] & Hloop & Hx & Hsplit & Hy0 & Hy).
  - split_and!; simpl.
    + intros k Hk%Hleaves. subst x0. apply py_dict_keys.
      rewrite fst_zip; [done|]. rewrite length_fmap, length_seqZ. lia.
    + by intros k ?%not_elem_of_nil.
    + subst y0. by rewrite lookup_singleton_eq.
    + by intros r _ ?%not_elem_of_nil.
  - intros done c [x y] Hprefix (Hx & Hsplit & Hy0 & Hy). simpl in Hx, Hsplit, Hy0, Hy.
    destruct (Hsplits c) as [Hlen|Hlen].
    + rewrite place_cluster_few by lia. eexists. split; [done|]. simpl.
      split_and!; [done| |done|].
      * intros k [Hk|Hk%list_elem_of_singleton]%elem_of_app Hk2; [by auto|].
        subst k. lia.
      * intros r Hr [Hk|Hk%list_elem_of_singleton]%elem_of_app; [by auto|].
        assert (r ∈ split_of _raw_tree c) as Hin by by apply split_of_elem.
        apply nil_length_inv in Hlen. rewrite Hlen in Hin.
        by apply not_elem_of_nil in Hin.
    + destruct (split_of _raw_tree c) as [|left_row [|right_row [|]]] eqn:Hsp;
        try done.
      assert (∀ r, r ∈ split_of _raw_tree c → is_Some (x !! child r)) as Hchild.
      { intros r [Hr Hpar]%split_of_elem.
        assert (child r ∈ child <$> ct) as Hc by (apply list_elem_of_fmap; eauto).
        assert (child r ∈ done) as Hdone.
        { apply (sorted_prefix_before (range_down last_leaf (root - 1)) done c);
            [apply range_down_sorted|done| |].
          - eapply parent_in_range; eauto.
          - specialize (Hord r Hr). lia. }
        destruct (Hsplits (child r)); [apply Hx; by apply Hleaf|by apply Hsplit]. }
      destruct (Hchild left_row) as [x_left Hxl]; [rewrite Hsp; by left|].
      destruct (Hchild right_row) as [x_right Hxr]; [rewrite Hsp; right; by left|].
      rewrite (place_cluster_two _ _ _ _ left_row right_row x_left x_right) by done.
      eexists. split; [done|]. simpl. split_and!.
      * intros k Hk. apply lookup_insert_is_Some'. right. by apply Hx.
      * intros k [Hk|Hk%list_elem_of_singleton]%elem_of_app Hk2;
          apply lookup_insert_is_Some'; [right; by auto|by left].
      * rewrite !lookup_insert_is_Some'. by right; right.
      * intros r Hr [Hk|Hk%list_elem_of_singleton]%elem_of_app;
          rewrite !lookup_insert_is_Some'; [right; right; by auto|].
        assert (r ∈ split_of _raw_tree c) as Hin by by apply split_of_elem.
        rewrite Hsp in Hin.
        apply elem_of_cons in Hin as [->|Hin]; [right; by left|].
        apply list_elem_of_singleton in Hin as ->. by left.
  - exists x, y. split; [done|]. simpl in Hx, Hsplit, Hy0, Hy. intros c Hc.
    assert (c ∈ range_down last_leaf (root - 1)) as Hrange
      by (apply range_down_spec; lia).
    pose proof (Hcontig c Hc) as Hpar.
    destruct (Hparents c Hpar) as [->|Hchild].
    + split; [|done]. destruct (Hsplits root) as [Hlen|Hlen]; [|by apply Hsplit].
      exfalso. apply np_min_spec in Hroot as [(r & Hreq & Hr)%list_elem_of_fmap _].
      assert (r ∈ split_of _raw_tree root) as Hin by by apply split_of_elem.
      apply nil_length_inv in Hlen. rewrite Hlen in Hin.
      by apply not_elem_of_nil in Hin.
    + split.
      * destruct (Hsplits c); [apply Hx; by apply Hleaf|by apply Hsplit].
      * apply list_elem_of_fmap in Hchild as (r & -> & Hr). apply Hy; [done|].
        apply range_down_spec.
        assert (parent r ∈ parent <$> _raw_tree) as Hp.
        { apply list_elem_of_fmap. exists r. split; [done|].
          by apply cluster_tree_in_raw. }
        pose proof (parent_in_range _ _ _ _ Hmax Hmin Hp) as ?%range_down_spec. lia.
Qed.

(** With the coordinates of every cluster, the bars and the connectors
    follow. *)
Lemma binary_layout (recursion_limit : nat) (leaf_separation : R) (log_size : bool) :
  (Z.to_nat (last_leaf - root) < recursion_limit)%nat →
  ∃ pd, get_plot_data log_shrink recursion_limit _raw_tree leaf_separation log_size
        = Ret pd.
Proof.
  intros Hlimit.
  destruct (binary_coords recursion_limit leaf_separation Hlimit)
    as (x & y & Hcoords & Hkeys).
  destruct (binary_condensed_model _ _ _ Hbinary)
    as (Hmin & Hmax & Hne & Hrooted & Hone & Hord & Hrows & Hparents
        & Hcontig & Hsplits & _).
  apply (get_plot_data_returns _ _ _ _ x y last_leaf root); try done.
  - intros c Hc. destruct (Hkeys c Hc). split_and!; [done..|]. by apply Hcontig.
  - intros r Hr.
    assert (child r ∈ parent <$> _raw_tree) as Hp.
    { apply Hrows, list_elem_of_fmap. eauto. }
    pose proof (parent_in_range _ _ _ _ Hmax Hmin Hp) as ?%range_down_spec.
    apply Hkeys. lia.
Qed.

End binary_condensed.

Lemma three_levels_binary : binary_condensed three_levels 7 11.
Proof.
  unfold binary_condensed. split_and!.
  - done.
  - exists (Edge 7 8 1 4). apply list_elem_of_filter. split; [simpl; lia|].
    apply list_elem_of_here.
  - apply Forall_forall. apply (bool_decide_unpack _). by vm_compute.
  - intros c Hc.
    assert (c = 7 ∨ c = 8 ∨ c = 9 ∨ c = 10 ∨ c = 11) as Hcases by lia.
    destruct Hcases as [->|[->|[->|[->| ->]]]]; apply (bool_decide_unpack _); by vm_compute.
  - intros x y Hxy%three_levels_links.
    repeat (apply elem_of_cons in Hxy as [[= -> ->]|Hxy]); try lia.
    by apply not_elem_of_nil in Hxy.
  - intros c Hc.
    assert (c = 8 ∨ c = 9 ∨ c = 10 ∨ c = 11) as Hcases by lia.
    destruct Hcases as [->|[->|[->| ->]]].
    + exists 7. apply three_levels_links. set_solver.
    + exists 7. apply three_levels_links. set_solver.
    + exists 8. apply three_levels_links. set_solver.
    + exists 8. apply three_levels_links. set_solver.
  - rewrite <-cluster_tree_edges. exact three_levels_one_parent.
  - intros c. unfold cluster_rows, three_levels.
    repeat (rewrite filter_cons; cbn [parent child_size]).
    rewrite filter_nil.
    repeat case_decide; simpl; try (by left); try (by right); exfalso; lia.
Qed.


(** * C8 *)

Lemma effect_eta {A} (m : effect A) : Effect (trace m) (value m) = m.
Proof. by destruct m. Qed.

Lemma fmap_const_replicate {A B} (b : B) (l : list A) :
  (λ _, b) <$> l = replicate (length l) b.
Proof. induction l as [|a l IH]; [done|]. rewrite fmap_cons, IH. done. Qed.

(** With matplotlib, [plot] draws the layout of [get_plot_data]. *)
Lemma plot_draws log_shrink float_sum env recursion_limit fuel _raw_tree stability
    leaf_separation cmap select_clusters label_clusters axis colorbar log_size pd :
  has_pyplot env = true →
  CondensedTree.get_plot_data log_shrink recursion_limit _raw_tree leaf_separation log_size
    = Ret pd →
  CondensedTree.plot log_shrink float_sum env recursion_limit fuel _raw_tree stability
    leaf_separation cmap select_clusters label_clusters axis colorbar log_size =
  CondensedTree.draw float_sum env fuel _raw_tree stability pd
    cmap select_clusters label_clusters axis colorbar.
Proof.
  intros Hplt Hpd. unfold CondensedTree.plot, import_or_raise.
  rewrite Hplt, effect_bind_ret, Hpd.
  rewrite (effect_bind_Ret (lift (Ret pd)) _ pd) by done.
  apply effect_eta.
Qed.

(** The plain drawing: the bars, one line per connector, the axis. *)
Lemma draw_plain float_sum env fuel _raw_tree stability pd label_clusters axis :
  CondensedTree.draw float_sum env fuel _raw_tree stability pd
    "none" false label_clusters axis false =
  Effect (trace (axis_or_gca axis) ++ [Call "axis.bar"] ++
          replicate (length (zip (line_xs pd) (line_ys pd))) (Call "axis.plot") ++
          [Call "axis.set_xticks"; Call "axis.invert_yaxis"; Call "axis.set_ylabel"])
         (Ret (default CurrentAxes axis)).
Proof.
  unfold CondensedTree.draw. rewrite decide_False by (by intros ?).
  rewrite effect_bind_ret.
  rewrite (effect_bind_Ret (axis_or_gca axis) _ _ (axis_or_gca_value axis)).
  by rewrite for_each_effect_emit, fmap_const_replicate.
Qed.



(** * C3 *)

Lemma leaves_childless recursion_limit _raw_tree leaves y :
  _get_leaves recursion_limit _raw_tree = Ret leaves → y ∈ leaves →
  split_of _raw_tree y = [].
Proof.
  unfold _get_leaves. intros (root & _ & Hdfs)%bind_Ret_inv Hy.
  pose proof (dfs_leaves_childless _ _ _ _ _ Hdfs Hy) as Hnil.
  unfold children_of in Hnil. rewrite split_of_cluster_tree in Hnil.
  by apply fmap_nil_inv in Hnil.
Qed.

Lemma split_of_rows _raw_tree c : split_of _raw_tree c = cluster_rows _raw_tree c.
Proof. done. Qed.

Lemma cluster_rows_elem raw c r :
  r ∈ cluster_rows raw c ↔ r ∈ cluster_edges raw ∧ parent r = c.
Proof. unfold cluster_rows, cluster_edges. rewrite !list_elem_of_filter. tauto. Qed.

Lemma cluster_rows_link raw c r : r ∈ cluster_rows raw c → cluster_link raw c (child r).
Proof.
  unfold cluster_rows. intros [[Hp Hsize] Hr]%list_elem_of_filter. by exists r.
Qed.

Lemma NoDup_fmap_elem {A B} (f : A → B) (l : list A) x y :
  NoDup (f <$> l) → x ∈ l → y ∈ l → f x = f y → x = y.
Proof.
  induction l as [|a l IH]; [by intros _ ?%not_elem_of_nil|].
  rewrite fmap_cons. intros [Ha Hl]%NoDup_cons
    [->|Hx]%elem_of_cons [->|Hy]%elem_of_cons Hxy; [done| | |by apply IH].
  - destruct Ha. rewrite Hxy. apply list_elem_of_fmap. by exists y.
  - destruct Ha. rewrite <-Hxy. apply list_elem_of_fmap. by exists x.
Qed.

Lemma NoDup_fmap_filter {A B} (f : A → B) (P : A → Prop) `{!∀ x, Decision (P x)}
    (l : list A) :
  NoDup (f <$> l) → NoDup (f <$> filter P l).
Proof.
  induction l as [|a l IH]; [done|].
  rewrite fmap_cons. intros [Ha Hl]%NoDup_cons. rewrite filter_cons.
  case_decide; [|by apply IH]. rewrite fmap_cons. apply NoDup_cons. split; [|by apply IH].
  intros (x & Hx & [_ ?]%list_elem_of_filter)%list_elem_of_fmap.
  apply Ha, list_elem_of_fmap. by exists x.
Qed.

Lemma cluster_rows_distinct raw c left_row right_row :
  NoDup (child <$> cluster_edges raw) →
  cluster_rows raw c = [left_row; right_row] → child left_row ≠ child right_row.
Proof.
  intros Hone Hrows.
  assert (NoDup (child <$> cluster_rows raw c)) as Hnd.
  { rewrite <-cluster_rows_tree, cluster_tree_edges. by apply NoDup_fmap_filter. }
  rewrite Hrows in Hnd. simpl in Hnd. apply NoDup_cons in Hnd as [Hl _].
  intros Heq. apply Hl. rewrite Heq. by left.
Qed.

Lemma sorted_prefix_done (l done : list Z) x c :
  StronglySorted Z.gt l → done ++ [x] `prefix_of` l → c ∈ done → c > x.
Proof.
  intros Hsorted [rest ->] Hc. apply StronglySorted_app_1_l in Hsorted.
  apply (StronglySorted_app_1_elem_of Z.gt _ _ c x Hsorted Hc). by left.
Qed.

(** What one step of the first loop of [get_plot_data] does when it
    returns. *)
Lemma place_cluster_Ret _raw_tree x y cluster x' y' :
  place_cluster _raw_tree (x, y) cluster = Ret (x', y') →
  ((length (cluster_rows _raw_tree cluster) < 2)%nat ∧ x' = x ∧ y' = y) ∨
  ∃ left_row right_row x_left x_right,
    cluster_rows _raw_tree cluster = [left_row; right_row] ∧
    x !! child left_row = Some x_left ∧ x !! child right_row = Some x_right ∧
    x' = <[cluster := ((x_left + x_right) / 2)%R]> x ∧
    y' = <[child right_row := lambda_val right_row]>
           (<[child left_row := lambda_val left_row]> y).
Proof.
  unfold place_cluster. rewrite split_of_rows.
  case_decide as Hlen; [|intros [= <- <-]; left; split; [lia|done]].
  destruct (cluster_rows _raw_tree cluster) as [|r1 [|r2 [|r3 l]]] eqn:Hrows; [done..| |done].
  intros (xl & Hxl%getitem_Ret_inv & (xr & Hxr%getitem_Ret_inv & [= <- <-])%bind_Ret_inv)
           %bind_Ret_inv.
  right. exists r1, r2, xl, xr. by rewrite np_mean_pair.
Qed.

(** The coordinates after the first loop of [get_plot_data]: every cluster
    that splits into two stands midway between them, and the two start at
    the lambda values of their rows. *)
Lemma layout_placed _raw_tree clusters x0 y0 x y :
  StronglySorted Z.gt clusters →
  (∀ a b, cluster_link _raw_tree a b → a < b) →
  NoDup (child <$> cluster_edges _raw_tree) →
  for_each (place_cluster _raw_tree) (x0, y0) clusters = Ret (x, y) →
  ∀ c left_row right_row,
    c ∈ clusters → cluster_rows _raw_tree c = [left_row; right_row] →
    ∃ x_left x_right,
      x !! child left_row = Some x_left ∧ x !! child right_row = Some x_right ∧
      x !! c = Some ((x_left + x_right) / 2)%R ∧
      y !! child left_row = Some (lambda_val left_row) ∧
      y !! child right_row = Some (lambda_val right_row).
Proof.
  intros Hsorted Hord Hone Hloop.
  refine (for_each_Ret_ind _
    (λ done st, ∀ c left_row right_row,
       c ∈ done → cluster_rows _raw_tree c = [left_row; right_row] →
       ∃ x_left x_right,
         st.1 !! child left_row = Some x_left ∧ st.1 !! child right_row = Some x_right ∧
         st.1 !! c = Some ((x_left + x_right) / 2)%R ∧
         st.2 !! child left_row = Some (lambda_val left_row) ∧
         st.2 !! child right_row = Some (lambda_val right_row))
    _ _ (x, y) _ _ Hloop).
  { by intros c l r ?%not_elem_of_nil. }
  intros done c' [x1 y1] [x2 y2] Hprefix Hdone Hstep c l r Hc Hrows. simpl in *.
  assert (l ∈ cluster_rows _raw_tree c ∧ r ∈ cluster_rows _raw_tree c) as [Hl Hr].
  { rewrite Hrows. split; [by left|right; by left]. }
  pose proof (Hord _ _ (cluster_rows_link _ _ _ Hl)) as Hcl.
  pose proof (Hord _ _ (cluster_rows_link _ _ _ Hr)) as Hcr.
  apply place_cluster_Ret in Hstep
    as [(Hfew & -> & ->)|(l' & r' & xl & xr & Hrows' & Hxl & Hxr & -> & ->)].
  - apply elem_of_app in Hc as [Hc|Hc%list_elem_of_singleton]; [by apply Hdone|].
    subst c'. rewrite Hrows in Hfew. simpl in Hfew. lia.
  - apply elem_of_app in Hc as [Hc|Hc%list_elem_of_singleton].
    + destruct (Hdone c l r Hc Hrows) as (x_left & x_right & H1 & H2 & H3 & H4 & H5).
      pose proof (sorted_prefix_done _ _ _ _ Hsorted Hprefix Hc) as Hgt.
      assert (l' ∈ cluster_rows _raw_tree c' ∧ r' ∈ cluster_rows _raw_tree c')
        as [Hl' Hr'].
      { rewrite Hrows'. split; [by left|right; by left]. }
      assert (∀ a b, a ∈ cluster_rows _raw_tree c → b ∈ cluster_rows _raw_tree c' →
                child a ≠ child b) as Hother.
      { intros a b [Ha Hpa]%cluster_rows_elem [Hb Hpb]%cluster_rows_elem Hab.
        pose proof (NoDup_fmap_elem child _ a b Hone Ha Hb Hab). subst b. lia. }
      exists x_left, x_right.
      rewrite !lookup_insert_ne by (try lia; apply not_eq_sym; by apply Hother).
      done.
    + subst c'. rewrite Hrows in Hrows'. injection Hrows' as <- <-.
      pose proof (cluster_rows_distinct _ _ _ _ Hone Hrows) as Hlr.
      exists xl, xr. rewrite !lookup_insert_ne by lia. rewrite lookup_insert_eq.
      rewrite lookup_insert_ne by done. by rewrite !lookup_insert_eq.
Qed.

(** The bounds of a cluster are centred at its x coordinate and start at
    its y coordinate. *)
Lemma plot_data_centers {log_shrink} recursion_limit _raw_tree leaf_separation log_size pd :
  get_plot_data log_shrink recursion_limit _raw_tree leaf_separation log_size = Ret pd →
  ∃ x y scaling,
    cluster_coords recursion_limit _raw_tree leaf_separation = Ret (x, y) ∧
    ∀ c bds, cluster_bounds pd !! c = Some bds →
      ∃ xc left right bottom top,
        bds = [left; right; bottom; top] ∧ x !! c = Some xc ∧ y !! c = Some bottom ∧
        ((left + right) / 2 = xc * scaling)%R.
Proof.
  intros (x & y & last_leaf & root & scaling & b & bounds & lxs & lys &
          Hcoords & Hmax & Hmin & Hbars & _ & ->)%get_plot_data_Ret. simpl.
  exists x, y, scaling. split; [done|].
  refine (for_each_Ret_ind _
            (λ _ st, ∀ c bds, st.2 !! c = Some bds →
               ∃ xc left right bottom top,
                 bds = [left; right; bottom; top] ∧ x !! c = Some xc ∧
                 y !! c = Some bottom ∧ ((left + right) / 2 = xc * scaling)%R)
            _ _ (b, bounds) _ _ Hbars).
  - intros c bds. simpl. by rewrite lookup_empty.
  - intros done c [b0 bounds0] [b1 bounds1] _ Hdone Hstep. simpl in *.
    apply cluster_bars_Ret in Hstep
      as (current_lambda & xc & top & current_size & last_lambda &
          Hy & Hx & _ & _ & ->).
    intros k bds. destruct (decide (k = c)) as [->|Hne].
    + rewrite lookup_insert_eq. intros [= <-]. do 5 eexists.
      split_and!; [done..|]. lra.
    + rewrite lookup_insert_ne by done. apply Hdone.
Qed.

(** ** The exceptions of [get_plot_data] *)

Lemma bind_Raise_inv {A B} (m : outcome A) (f : A → outcome B) e :
  m ≫= f = Raise e → m = Raise e ∨ ∃ a, m = Ret a ∧ f a = Raise e.
Proof. destruct m as [a|e'|]; [|intros [= <-]; by left|done]. right. by exists a. Qed.

Lemma getitem_Raise {V} (d : gmap Z V) k e : getitem d k = Raise e → e = KeyError.
Proof. unfold getitem. destruct (d !! k); [done|]. by intros [= <-]. Qed.

Lemma place_cluster_Raise _raw_tree coords cluster e :
  place_cluster _raw_tree coords cluster = Raise e →
  e = KeyError ∨ (2 < length (cluster_rows _raw_tree cluster))%nat.
Proof.
  unfold place_cluster. destruct coords as [x y]. rewrite split_of_rows.
  case_decide as Hlen; [|done].
  destruct (cluster_rows _raw_tree cluster) as [|r1 [|r2 [|r3 l]]];
    [simpl in Hlen; lia..| |right; simpl; lia].
  intros [?%getitem_Raise|(xl & _ & [?%getitem_Raise|(xr & _ & ?)]%bind_Raise_inv)]
           %bind_Raise_inv; by auto.
Qed.

Lemma cluster_bars_Raise {log_shrink} _raw_tree log_size scaling x y st c e :
  cluster_bars log_shrink _raw_tree log_size scaling x y st c = Raise e →
  e = KeyError ∨ c ∉ parent <$> _raw_tree.
Proof.
  unfold cluster_bars. destruct st as [b bounds].
  intros [?%getitem_Raise|(current_lambda & _ & Hrest)]%bind_Raise_inv; [by left|].
  apply bind_Raise_inv in Hrest as [?%getitem_Raise|(xc & _ & Hrest)]; [by left|].
  apply bind_Raise_inv in Hrest as [Htop|(top & _ & Hrest)].
  - right. intros (r & -> & Hr)%list_elem_of_fmap.
    destruct (filter (λ r0, parent r0 = parent r) _raw_tree) as [|r' l] eqn:Hrows.
    + assert (r ∈ filter (λ r0, parent r0 = parent r) _raw_tree) as Hin
        by by apply list_elem_of_filter.
      rewrite Hrows in Hin. by apply not_elem_of_nil in Hin.
    + by destruct (np_max_float_spec (lambda_val r') (lambda_val <$> l)) as (? & ? & _);
        simplify_eq.
  - exfalso.
    match type of Hrest with
    | context [bar_rows ?ls ?lg ?ce ?cc ?o ?s] =>
        destruct (bar_rows_returns (log_shrink:=ls) lg ce cc s) as [[[b' s'] l'] Hret]
    end.
    rewrite Hret in Hrest. done.
Qed.

Lemma split_line_Raise log_size scaling x y st row e :
  split_line log_size scaling x y st row = Raise e → e = KeyError.
Proof.
  unfold split_line. destruct st as [lxs lys].
  intros [?%getitem_Raise|(xc & _ & Hrest)]%bind_Raise_inv; [done|].
  apply bind_Raise_inv in Hrest as [?%getitem_Raise|(xp & _ & Hrest)]; [done|].
  by apply bind_Raise_inv in Hrest as [?%getitem_Raise|(yc & _ & ?)].
Qed.

Lemma get_leaves_not_timeout recursion_limit _raw_tree :
  _get_leaves recursion_limit _raw_tree ≠ OutOfFuel.
Proof.
  unfold _get_leaves. apply bind_not_timeout; [apply np_min_not_timeout|].
  intros root Hdfs.
  destruct (dfs_outcome recursion_limit (cluster_tree_of _raw_tree) root) as [[l Hl]|Hl];
    rewrite Hl in Hdfs; done.
Qed.

Lemma get_plot_data_ends {log_shrink} recursion_limit _raw_tree leaf_separation log_size :
  get_plot_data log_shrink recursion_limit _raw_tree leaf_separation log_size ≠ OutOfFuel.
Proof.
  destruct (_get_leaves recursion_limit _raw_tree) as [leaves| |] eqn:Hleaves.
  - by eapply get_plot_data_not_timeout.
  - unfold get_plot_data, cluster_coords. by rewrite Hleaves.
  - by apply get_leaves_not_timeout in Hleaves.
Qed.

(** Once the leaves are found, a tree with rows raises [KeyError], unless a
    cluster splits into more than two clusters or a cluster id in the range
    of the parent ids has no rows. *)
Lemma get_plot_data_Raise {log_shrink} recursion_limit _raw_tree leaf_separation log_size
    leaves e :
  _get_leaves recursion_limit _raw_tree = Ret leaves →
  get_plot_data log_shrink recursion_limit _raw_tree leaf_separation log_size = Raise e →
  e = KeyError ∨
  (∃ c, (2 < length (cluster_rows _raw_tree c))%nat) ∨
  (∃ c r1 r2, r1 ∈ _raw_tree ∧ r2 ∈ _raw_tree ∧ parent r1 ≤ c ≤ parent r2 ∧
              c ∉ parent <$> _raw_tree).
Proof.
  intros Hleaves. unfold get_plot_data, cluster_coords. rewrite Hleaves.
  cbn [mbind outcome_bind].
  destruct (np_max (parent <$> _raw_tree)) as [last_leaf| |] eqn:Hmax;
    [|by destruct _raw_tree|by apply np_max_not_timeout in Hmax].
  destruct (np_min (parent <$> _raw_tree)) as [root| |] eqn:Hmin;
    [|by destruct _raw_tree|by apply np_min_not_timeout in Hmin].
  cbn [mbind outcome_bind].
  intros [(st0 & c & _ & [?|?]%place_cluster_Raise)%for_each_Raise_inv
         |([x y] & _ & Hrest)]%bind_Raise_inv; [by left|right; left; by exists c|].
  cbn [mbind outcome_bind] in Hrest.
  apply bind_Raise_inv in Hrest
    as [(st0 & c & Hc%range_down_spec & [?|Hgap]%cluster_bars_Raise)%for_each_Raise_inv
       |([b bounds] & _ & Hrest)]; [by left| |].
  - right. right.
    apply np_max_spec in Hmax as [(r2 & -> & Hr2)%list_elem_of_fmap _].
    apply np_min_spec in Hmin as [(r1 & -> & Hr1)%list_elem_of_fmap _].
    exists c, r1, r2. split_and!; try done; lia.
  - left.
    apply bind_Raise_inv in Hrest
      as [(st0 & row & _ & ?%split_line_Raise)%for_each_Raise_inv
         |([lxs lys] & _ & ?)]; done.
Qed.

(** C3, as the code has it.  Take the layout that [get_plot_data] returns
    for a condensed tree whose cluster ids grow from parent to child and in
    which no cluster has two parents.  It is computed from the coordinates
    [x] and [y] of the clusters: the bounds of a cluster are centred at its
    x coordinate and start at its y coordinate.  In these coordinates a
    cluster with exactly two cluster children has the mean of their x
    coordinates as its x coordinate, and each of the two children has as y
    coordinate the lambda value of its row.  A cluster with exactly one
    cluster child is neither a leaf nor placed: it has no x coordinate, no
    position is inherited from the child, and [get_plot_data] returns no
    layout for a tree that has one.  It raises an exception: [KeyError]
    when the leaves are found, no cluster splits into more than two
    clusters and every id between two parent ids is a parent id, as on
    [single_child]; on [single_child_three_way] it is the [ValueError] of
    the three-way split. *)
Theorem layout_places_binary_splits (log_shrink : running_size → Z → running_size)
    (recursion_limit : nat) (_raw_tree : list edge) (leaf_separation : R)
    (log_size : bool) :
  (∀ pd,
     get_plot_data log_shrink recursion_limit _raw_tree leaf_separation log_size = Ret pd →
     (∀ a b, cluster_link _raw_tree a b → a < b) →
     NoDup (child <$> cluster_edges _raw_tree) →
     ∃ x y scaling,
       cluster_coords recursion_limit _raw_tree leaf_separation = Ret (x, y) ∧
       (∀ c bds, cluster_bounds pd !! c = Some bds →
          ∃ xc left right bottom top,
            bds = [left; right; bottom; top] ∧ x !! c = Some xc ∧ y !! c = Some bottom ∧
            ((left + right) / 2 = xc * scaling)%R) ∧
       (∀ c left_row right_row,
          cluster_rows _raw_tree c = [left_row; right_row] →
          ∃ x_left x_right,
            x !! child left_row = Some x_left ∧ x !! child right_row = Some x_right ∧
            x !! c = Some ((x_left + x_right) / 2)%R ∧
            y !! child left_row = Some (lambda_val left_row) ∧
            y !! child right_row = Some (lambda_val right_row))) ∧
  (∀ c, length (cluster_rows _raw_tree c) = 1%nat →
     (∀ x y, cluster_coords recursion_limit _raw_tree leaf_separation = Ret (x, y) →
             x !! c = None) ∧
     (∀ pd, get_plot_data log_shrink recursion_limit _raw_tree leaf_separation log_size
            ≠ Ret pd) ∧
     (∃ e, get_plot_data log_shrink recursion_limit _raw_tree leaf_separation log_size
           = Raise e) ∧
     (∀ leaves,
        _get_leaves recursion_limit _raw_tree = Ret leaves →
        (∀ k, (length (cluster_rows _raw_tree k) ≤ 2)%nat) →
        (∀ k r1 r2, r1 ∈ _raw_tree → r2 ∈ _raw_tree → parent r1 ≤ k ≤ parent r2 →
                    k ∈ parent <$> _raw_tree) →
        get_plot_data log_shrink recursion_limit _raw_tree leaf_separation log_size
          = Raise KeyError)) ∧
  get_plot_data exact_log_shrink 10 single_child 1 false = Raise KeyError ∧
  get_plot_data exact_log_shrink 10 single_child_three_way 1 false = Raise ValueError.
Proof.
  split_and!; [| |by vm_compute..].
  - intros pd Hpd Hord Hone.
    destruct (plot_data_centers _ _ _ _ _ Hpd) as (x & y & scaling & Hcoords & Hbounds).
    exists x, y, scaling. split_and!; [done..|].
    intros c l r Hrows.
    pose proof Hcoords as (leaves & last_leaf & root & _ & Hmax & Hmin & Hloop)
                            %cluster_coords_inv.
    apply (layout_placed _ _ _ _ _ _ (range_down_sorted _ _) Hord Hone Hloop); [|done].
    eapply parent_in_range; [done..|]. apply split_of_parent.
    rewrite split_of_rows, Hrows. done.
  - intros c Hlen.
    assert (∀ x y, cluster_coords recursion_limit _raw_tree leaf_separation = Ret (x, y) →
                   x !! c = None) as Hnone.
    { intros x y (leaves & last_leaf & root & Hleaves & _ & _ & Hloop)%cluster_coords_inv.
      apply eq_None_not_Some. intros Hc.
      destruct (layout_x_keys _ _ _ _ _ _ _ Hloop Hc) as [Hc0|Hc2];
        [|rewrite split_of_rows in Hc2; lia].
      apply py_dict_lookup, list_elem_of_fmap in Hc0 as ([k v] & -> & Hkv).
      apply elem_of_zip_l in Hkv. simpl in Hkv, Hlen.
      rewrite <-split_of_rows, (leaves_childless _ _ _ _ Hleaves Hkv) in Hlen. done. }
    assert (∀ pd, get_plot_data log_shrink recursion_limit _raw_tree leaf_separation
                    log_size ≠ Ret pd) as Hno.
    { intros pd (x & y & last_leaf & root & scaling & st & Hcoords & Hmax & Hmin & Hbars)
                  %get_plot_data_inv.
      eapply (for_each_fails _ c); [| |exact Hbars].
      + eapply parent_in_range; [done..|]. apply split_of_parent.
        intros Hnil. rewrite split_of_rows in Hnil. by rewrite Hnil in Hlen.
      + intros [b bounds] st'. unfold cluster_bars.
        intros (current_lambda & _ & (xc & Hx & _)%bind_Ret_inv)%bind_Ret_inv.
        rewrite getitem_None in Hx; [done|]. by eapply Hnone. }
    assert (∃ e, get_plot_data log_shrink recursion_limit _raw_tree leaf_separation
                   log_size = Raise e) as [e He].
    { pose proof (get_plot_data_ends (log_shrink:=log_shrink) recursion_limit _raw_tree
                    leaf_separation log_size) as Hends.
      destruct (get_plot_data log_shrink recursion_limit _raw_tree leaf_separation log_size)
        as [pd|e|] eqn:Hpd; [by destruct (Hno pd)|by exists e|done]. }
    split_and!; [done..|by exists e|].
    intros leaves Hleaves Hbinary Hfilled. rewrite He. f_equal.
    destruct (get_plot_data_Raise _ _ _ _ _ _ Hleaves He)
      as [?|[[k Hk]|(k & r1 & r2 & Hr1 & Hr2 & Hk & Hgap)]]; [done| |].
    + specialize (Hbinary k). lia.
    + destruct Hgap. by apply (Hfilled k r1 r2).
Qed.

Lemma layout_places_binary_splits_witness :
  (∃ c, length (cluster_rows single_child c) = 1%nat) ∧
  (∀ pd, get_plot_data exact_log_shrink 10 single_child 1 true ≠ Ret pd) ∧
  ∃ pd x y,
    get_plot_data exact_log_shrink 5 three_levels 1 false = Ret pd ∧
    cluster_coords 5 three_levels 1 = Ret (x, y) ∧
    ∀ c left_row right_row,
      cluster_rows three_levels c = [left_row; right_row] →
      ∃ x_left x_right,
        x !! child left_row = Some x_left ∧ x !! child right_row = Some x_right ∧
        x !! c = Some ((x_left + x_right) / 2)%R ∧
        y !! child left_row = Some (lambda_val left_row) ∧
        y !! child right_row = Some (lambda_val right_row).
Proof.
  split_and!.
  - exists 7. by vm_compute.
  - apply (proj1 (proj2 (layout_places_binary_splits exact_log_shrink 10 single_child
                           1 true)) 7).
    by vm_compute.
  - destruct (binary_layout exact_log_shrink three_levels 7 11 three_levels_binary
                5 1 false) as [pd Hpd]; [simpl; lia|].
    destruct (proj1 (layout_places_binary_splits exact_log_shrink 5 three_levels 1 false)
                pd Hpd) as (x & y & scaling & Hcoords & _ & Hplaced).
    + intros a b Hab. destruct three_levels_binary as (_ & _ & _ & _ & Hord & _).
      by apply Hord.
    + by destruct three_levels_binary as (_ & _ & _ & _ & _ & _ & Hone & _).
    + by exists pd, x, y.
Defined.

(** The layout of [single_child] is not defined: 7 has one cluster child
    and no x coordinate, and the root asks for it. *)
Lemma single_child_has_no_layout :
  length (cluster_rows single_child 7) = 1%nat ∧
  cluster_coords 10 single_child 1 = Raise KeyError ∧
  get_plot_data exact_log_shrink 10 single_child 1 false = Raise KeyError.
Proof. split_and!; by vm_compute. Qed.
